(** * CDT: constrained Delaunay triangulation -- public API helpers

    A shallow embedding of the public helpers of [CDT.h] / [CDT.hpp]
    (duplicate removal, edge remapping, depth peeling, edge extraction)
    and of the batch entry points of [Triangulation.h], together with the
    properties the specification states about them.

    Conventions.
    - Index types ([VertInd], [TriInd], [std::size_t]) are [N]; a
      [std::vector] is a [list] read with [vec_at] and written with
      [vec_set]; reading or writing out of range is undefined behaviour in
      the source and is an explicit [Undefined] outcome here.
    - [LayerDepth] is an unsigned integer type whose largest value is the
      parameter [LayerDepth_max]; arithmetic on it wraps modulo
      [LayerDepth_max + 1].
    - [unordered_set] / [unordered_map] are [gset] / [gmap]; whenever the
      source iterates over one of them to build a stack, the iteration
      order is a parameter. *)

From stdpp Require Import gmap list sets fin_maps numbers.

Open Scope N_scope.

(** ** Basic types *)

Abbreviation VertInd := N (only parsing).
Abbreviation TriInd := N (only parsing).
Abbreviation LayerDepth := N (only parsing).
Abbreviation BoundaryOverlapCount := N (only parsing).

(** [Index]: the position of a vertex or neighbour inside a triangle;
    the source loops [for(Index i(0); i < Index(3); ++i)]. *)
Inductive Index := I0 | I1 | I2.

#[global] Instance Index_eq_dec : EqDecision Index.
Proof. solve_decision. Defined.

Definition Index_all : list Index := [I0; I1; I2].

(** A 3-element array [std::array<X, 3>]. *)
Definition arr3 (X : Type) : Type := (X * X * X)%type.

Definition arr3_at {X} (a : arr3 X) (i : Index) : X :=
  match a, i with
  | (x0, _, _), I0 => x0
  | (_, x1, _), I1 => x1
  | (_, _, x2), I2 => x2
  end.

(** Modelled from the spec: [Edge] (declared in CDTUtils.h), "an unordered
    pair of vertex indices, canonicalized so that the lower index is
    first". The representation is the canonical pair itself. *)
Definition Edge : Type := (VertInd * VertInd)%type.

Definition mkEdge (iV1 iV2 : VertInd) : Edge :=
  if iV1 <? iV2 then (iV1, iV2) else (iV2, iV1).

Definition v1 (e : Edge) : VertInd := fst e.
Definition v2 (e : Edge) : VertInd := snd e.

(** Modelled from the spec: [Triangle] (declared in CDTUtils.h), "three
    vertex indices [...] and three neighbor triangle indices". *)
Record Triangle := mkTriangle {
  vertices : arr3 VertInd;
  neighbors : arr3 TriInd
}.

Abbreviation TriangleVec := (list Triangle) (only parsing).
Abbreviation EdgeUSet := (gset Edge) (only parsing).
Abbreviation TriIndUSet := (gset N) (only parsing).

(** The declarations of CDTUtils.h that the functions below use and that
    are not part of the sources at hand. Every general theorem holds for
    any choice of them. *)
Class CDTUtils := {
  (** [noNeighbor]: the sentinel stored in an empty neighbour slot *)
  noNeighbor : TriInd;
  (** [std::numeric_limits<LayerDepth>::max()] *)
  LayerDepth_max : LayerDepth;
  (** [std::numeric_limits<VertInd>::max()] *)
  VertInd_max : VertInd;
  (** [ccw], [cw]: the next / previous corner of a triangle *)
  ccw : Index → Index;
  cw : Index → Index;
  (** [opoNbr]: the neighbour slot opposed to a corner *)
  opoNbr : Index → Index
}.

(** Modelled from the spec: the corner arithmetic of CDTUtils.h. "Neighbor
    [ni] is the triangle sharing the edge opposite vertex [vi] -- i.e., the
    edge [(v_{(i+1) mod 3}, v_{(i+2) mod 3})]"; depths are 16-bit and the
    sentinel is the largest index, indices being 32-bit. Used for the concrete examples. *)
Definition spec_utils : CDTUtils := {|
  noNeighbor := 4294967295;
  LayerDepth_max := 65535;
  VertInd_max := 4294967295;
  ccw := λ i, match i with I0 => I1 | I1 => I2 | I2 => I0 end;
  cw := λ i, match i with I0 => I2 | I1 => I0 | I2 => I1 end;
  opoNbr := λ i, i
|}.

(** ** Vectors indexed by [N] *)

Definition vec_at {X} (l : list X) (i : N) : option X := l !! N.to_nat i.

Definition vec_set {X} (l : list X) (i : N) (x : X) : list X :=
  <[N.to_nat i := x]> l.

Definition vec_size {X} (l : list X) : N := N.of_nat (length l).


(** Conversion of an arithmetic result to the unsigned types [LayerDepth]
    and [VertInd]: reduction modulo the number of values of the type. *)
Definition LayerDepth_of `{CDTUtils} (x : N) : LayerDepth :=
  x mod (LayerDepth_max + 1).

Definition VertInd_of `{CDTUtils} (x : N) : VertInd :=
  x mod (VertInd_max + 1).

(** ** Outcomes

    [Done a]: the call returns [a]. [Undefined]: the call indexes a vector
    out of range. [OutOfFuel]: the loop was cut off by the iteration budget
    of the model. *)
Inductive outcome (A : Type) : Type :=
  | Done (a : A)
  | Undefined
  | OutOfFuel.
Arguments Done {A} a.
Arguments Undefined {A}.
Arguments OutOfFuel {A}.

Definition outcome_bind {A B} (f : A → outcome B) (c : outcome A) : outcome B :=
  match c with
  | Done a => f a
  | Undefined => Undefined
  | OutOfFuel => OutOfFuel
  end.

#[global] Instance outcome_ret : MRet outcome := λ A a, Done a.
#[global] Instance outcome_mbind : MBind outcome := λ A B f c, outcome_bind f c.

(** [v[i]] on a vector, undefined out of range. *)
Definition vec_read {X} (l : list X) (i : N) : outcome X :=
  match vec_at l i with
  | Some x => Done x
  | None => Undefined
  end.

(** [v[i] = x] on a vector, undefined out of range. *)
Definition vec_write {X} (l : list X) (i : N) (x : X) : outcome (list X) :=
  if decide (i < vec_size l) then Done (vec_set l i x) else Undefined.
(** ** [extractEdgesFromTriangles] (CDT.hpp) *)

Definition triangle_edges (t : Triangle) : list Edge :=
  [ mkEdge (arr3_at (vertices t) I0) (arr3_at (vertices t) I1);
    mkEdge (arr3_at (vertices t) I1) (arr3_at (vertices t) I2);
    mkEdge (arr3_at (vertices t) I2) (arr3_at (vertices t) I0) ].

Definition extractEdgesFromTriangles (triangles : TriangleVec) : EdgeUSet :=
  fold_left
    (λ (edges : gset Edge) t,
       let edges := edges ∪ {[ mkEdge (arr3_at (vertices t) I0) (arr3_at (vertices t) I1) ]} in
       let edges := edges ∪ {[ mkEdge (arr3_at (vertices t) I1) (arr3_at (vertices t) I2) ]} in
       edges ∪ {[ mkEdge (arr3_at (vertices t) I2) (arr3_at (vertices t) I0) ]})
    triangles ∅.


(** ** Duplicate removal and edge remapping (CDT.h, CDT.hpp) *)

Record DuplicatesInfo := mkDuplicatesInfo {
  mapping : list N;     (* vertex index mapping *)
  duplicates : list N   (* duplicates' indices *)
}.

(** Modelled from the spec: [remove_at] (remove_at.hpp), "in-place removal
    preserving order": the elements whose position is listed in [idx] are
    dropped, the others keep their relative order. [i] is the position of
    the head of [l] in the original vector. *)
Fixpoint remove_at_from {X} (i : N) (l : list X) (idx : list N) : list X :=
  match l with
  | [] => []
  | x :: l' =>
      if bool_decide (i ∈ idx) then remove_at_from (i + 1) l' idx
      else x :: remove_at_from (i + 1) l' idx
  end.

Definition remove_at {X} (l : list X) (idx : list N) : list X :=
  remove_at_from 0 l idx.

(** [RemoveDuplicates(vertices, duplicates)]: the new contents of
    [vertices]. *)
Definition RemoveDuplicates {TVertex} (vertices : list TVertex)
    (duplicates : list N) : list TVertex :=
  remove_at vertices duplicates.

(** [RemapEdges(edges, mapping)]: the new contents of [edges]. *)
Fixpoint RemapEdges (edges : list Edge) (mapping : list N) : outcome (list Edge) :=
  match edges with
  | [] => Done []
  | e :: rest =>
      a ← vec_read mapping (v1 e);
      b ← vec_read mapping (v2 e);
      rest' ← RemapEdges rest mapping;
      Done (mkEdge a b :: rest')
  end.

Section Duplicates.
(** [T]: the coordinate type, compared with [==]; [TVertex]: the custom
    point type with its coordinate getters. *)
Context {T : Type} `{Countable T} {TVertex : Type}.
Variables (getX getY : TVertex → T).

(** [V2d<T>::make(x, y)] *)
Definition V2d_make (x y : T) : T * T := (x, y).

(** State of the loop of [FindDuplicates]. *)
Record FindState := mkFindState {
  iIn : N;
  iOut : N;
  uniqueVerts : gmap (T * T) N;
  di : DuplicatesInfo
}.

Definition FindDuplicates_step (st : FindState) (v : TVertex) : FindState :=
  let key := V2d_make (getX v) (getY v) in
  match uniqueVerts st !! key with
  | None =>
      (* isUnique: the pair (key, iOut) was inserted *)
      {| iIn := iIn st + 1;
         iOut := iOut st + 1;
         uniqueVerts := <[key := iOut st]> (uniqueVerts st);
         di := {| mapping := vec_set (mapping (di st)) (iIn st) (iOut st);
                  duplicates := duplicates (di st) |} |}
  | Some j =>
      (* found a duplicate *)
      {| iIn := iIn st + 1;
         iOut := iOut st;
         uniqueVerts := uniqueVerts st;
         di := {| mapping := vec_set (mapping (di st)) (iIn st) j;
                  duplicates := duplicates (di st) ++ [iIn st] |} |}
  end.

Definition FindDuplicates_init (verticesSize : nat) : FindState :=
  {| iIn := 0; iOut := 0; uniqueVerts := ∅;
     di := {| mapping := replicate verticesSize 0; duplicates := [] |} |}.

Definition FindDuplicates (range : list TVertex) : DuplicatesInfo :=
  di (fold_left FindDuplicates_step range (FindDuplicates_init (length range))).

(** [RemoveDuplicatesAndRemapEdges(vertices, edges, getX, getY)]: the new
    contents of [vertices] and [edges], and the returned info. *)
Definition RemoveDuplicatesAndRemapEdges (vertices : list TVertex)
    (edges : list Edge) : outcome (list TVertex * list Edge * DuplicatesInfo) :=
  let di := FindDuplicates vertices in
  let vertices := RemoveDuplicates vertices (duplicates di) in
  edges ← RemapEdges edges (mapping di);
  Done (vertices, edges, di).

(** The chain of calls a user would write, each call on the result of the
    previous one: [di = FindDuplicates(...)], then
    [RemoveDuplicates(vertices, di.duplicates)], then
    [RemapEdges(edges, di.mapping)]. *)
Definition chained_Find_Remove_Remap (vertices : list TVertex)
    (edges : list Edge) : outcome (list TVertex * list Edge * DuplicatesInfo) :=
  let found := FindDuplicates vertices in
  let removed := RemoveDuplicates vertices (duplicates found) in
  match RemapEdges edges (mapping found) with
  | Done remapped => Done (removed, remapped, found)
  | Undefined => Undefined
  | OutOfFuel => OutOfFuel
  end.
End Duplicates.

(** The overloads on [std::vector<V2d<T> >] (CDT.hpp) pass the getters
    [getX_V2d], [getY_V2d]. *)
Definition getX_V2d {T} (v : T * T) : T := fst v.
Definition getY_V2d {T} (v : T * T) : T := snd v.

Definition RemoveDuplicates_V2d {T} `{Countable T} (vertices : list (T * T))
    : list (T * T) * DuplicatesInfo :=
  let di := FindDuplicates getX_V2d getY_V2d vertices in
  (RemoveDuplicates vertices (duplicates di), di).

Definition RemoveDuplicatesAndRemapEdges_V2d {T} `{Countable T}
    (vertices : list (T * T)) (edges : list Edge)
    : outcome (list (T * T) * list Edge * DuplicatesInfo) :=
  RemoveDuplicatesAndRemapEdges getX_V2d getY_V2d vertices edges.

(** ** Batch insertion of constraint edges (Triangulation.h)

    [Triangulation::insertEdge] and [Triangulation::eraseDummies] are
    defined in Triangulation.hpp; [insertEdges] is modelled over any
    implementation of them acting on a triangulation state [Tri]. *)

Section InsertEdges.
Context `{CDTUtils} {Tri TEdge : Type}.
Variables (insertEdge : Edge → Tri → Tri) (eraseDummies : Tri → Tri).
(** the data member [m_nTargetVerts] *)
Variable m_nTargetVerts : Tri → N.
Variables (getStart getEnd : TEdge → VertInd).

(** The edge passed to [insertEdge] for the user edge [e]. *)
Definition offset_edge (tr : Tri) (e : TEdge) : Edge :=
  mkEdge (VertInd_of (getStart e + m_nTargetVerts tr))
         (VertInd_of (getEnd e + m_nTargetVerts tr)).

Definition insertEdges (range : list TEdge) (tr : Tri) : Tri :=
  let tr := fold_left (λ tr e, insertEdge (offset_edge tr e) tr) range tr in
  eraseDummies tr.
End InsertEdges.

(** A triangulation state that also records the calls made on it, in
    order. *)
Inductive Call :=
  | CallInsertEdge (e : Edge)
  | CallEraseDummies.

#[global] Instance Call_eq_dec : EqDecision Call.
Proof. solve_decision. Defined.

Section Logged.
Context {Tri : Type}.
Variables (insertEdge : Edge → Tri → Tri) (eraseDummies : Tri → Tri).
Variable m_nTargetVerts : Tri → N.

Definition logged_insertEdge (e : Edge) (s : Tri * list Call) : Tri * list Call :=
  (insertEdge e s.1, s.2 ++ [CallInsertEdge e]).

Definition logged_eraseDummies (s : Tri * list Call) : Tri * list Call :=
  (eraseDummies s.1, s.2 ++ [CallEraseDummies]).

Definition logged_nTargetVerts (s : Tri * list Call) : N :=
  m_nTargetVerts s.1.
End Logged.

(** Number of calls of [eraseDummies] in a log. *)
Definition count_eraseDummies (log : list Call) : nat :=
  length (filter (λ c, c = CallEraseDummies) log).

(** ** Depth peeling (CDT.hpp) *)

(** [std::stack<TriInd>(TriDeque(first, last))]: the stack (top first)
    holding a range; the last element of the range is on top. *)
Definition stack_of_range (range : list N) : list N := reverse range.

Section Peel.
Context `{CDTUtils}.
Variables (triangles : list Triangle) (fixedEdges : gset Edge).

(** [Edge(t.vertices[ccw(i)], t.vertices[cw(i)])] and
    [t.neighbors[opoNbr(i)]] *)
Definition opEdge (t : Triangle) (i : Index) : Edge :=
  mkEdge (arr3_at (vertices t) (ccw i)) (arr3_at (vertices t) (cw i)).

Definition opNeighbor (t : Triangle) (i : Index) : TriInd :=
  arr3_at (neighbors t) (opoNbr i).

(** *** [PeelLayer], the overload without overlaps *)

(** One run of the body of the [for] loop on corner [i] of [t]. *)
Definition PeelLayer_visit (layerDepth : LayerDepth) (triDepths : list N)
    (t : Triangle) (st : list N * gset N) (i : Index)
    : outcome (list N * gset N) :=
  let iN := opNeighbor t i in
  if decide (iN = noNeighbor) then Done st
  else
    d ← vec_read triDepths iN;
    if d <=? layerDepth then Done st
    else if decide (opEdge t i ∈ fixedEdges)
         then Done (st.1, st.2 ∪ {[iN]})
         else Done (iN :: st.1, st.2).

(** One run of the body of the [while] loop, [iT] being the popped top. *)
Definition PeelLayer_pop (layerDepth : LayerDepth) (iT : TriInd)
    (seeds : list N) (triDepths : list N) (behindBoundary : gset N)
    : outcome (list N * list N * gset N) :=
  triDepths ← vec_write triDepths iT layerDepth;
  let behindBoundary := behindBoundary ∖ {[iT]} in
  t ← vec_read triangles iT;
  st ← PeelLayer_visit layerDepth triDepths t (seeds, behindBoundary) I0;
  st ← PeelLayer_visit layerDepth triDepths t st I1;
  st ← PeelLayer_visit layerDepth triDepths t st I2;
  Done (st.1, triDepths, st.2).

Fixpoint PeelLayer_loop (fuel : nat) (layerDepth : LayerDepth)
    (seeds : list N) (triDepths : list N) (behindBoundary : gset N)
    : outcome (gset N * list N) :=
  match seeds with
  | [] => Done (behindBoundary, triDepths)
  | iT :: seeds =>
      match fuel with
      | O => OutOfFuel
      | S fuel =>
          '(seeds, triDepths, behindBoundary) ←
            PeelLayer_pop layerDepth iT seeds triDepths behindBoundary;
          PeelLayer_loop fuel layerDepth seeds triDepths behindBoundary
      end
  end.

(** An iteration budget that the loop never exhausts
    (see [PeelLayer_loop_fuel]). *)
Definition PeelLayer_fuel (seeds : list N) (triDepths : list N) : nat :=
  (7 * length triDepths + length seeds + 5)%nat.

(** [PeelLayer(seeds, triangles, fixedEdges, layerDepth, triDepths)]:
    the returned set and the new contents of [triDepths]. *)
Definition PeelLayer (seeds : list N) (layerDepth : LayerDepth)
    (triDepths : list N) : outcome (gset N * list N) :=
  PeelLayer_loop (PeelLayer_fuel seeds triDepths) layerDepth seeds triDepths ∅.

(** *** [PeelLayer], the overload with overlaps *)

Variable overlapCount : gmap Edge N.

(** The depth recorded for a triangle behind the fixed edge [e]. *)
Definition behind_depth (layerDepth : LayerDepth) (e : Edge) : LayerDepth :=
  match overlapCount !! e with
  | None => LayerDepth_of (layerDepth + 1)
  | Some count => LayerDepth_of (layerDepth + count + 1)
  end.

Definition PeelLayer_ov_visit (layerDepth : LayerDepth) (triDepths : list N)
    (t : Triangle) (st : list N * gmap N N) (i : Index)
    : outcome (list N * gmap N N) :=
  let iN := opNeighbor t i in
  if decide (iN = noNeighbor) then Done st
  else
    d ← vec_read triDepths iN;
    if d <=? layerDepth then Done st
    else if decide (opEdge t i ∈ fixedEdges)
         then Done (st.1, <[iN := behind_depth layerDepth (opEdge t i)]> st.2)
         else Done (iN :: st.1, st.2).

Definition PeelLayer_ov_pop (layerDepth : LayerDepth) (iT : TriInd)
    (seeds : list N) (triDepths : list N) (behindBoundary : gmap N N)
    : outcome (list N * list N * gmap N N) :=
  triDepths ← vec_write triDepths iT layerDepth;
  let behindBoundary := delete iT behindBoundary in
  t ← vec_read triangles iT;
  st ← PeelLayer_ov_visit layerDepth triDepths t (seeds, behindBoundary) I0;
  st ← PeelLayer_ov_visit layerDepth triDepths t st I1;
  st ← PeelLayer_ov_visit layerDepth triDepths t st I2;
  Done (st.1, triDepths, st.2).

Fixpoint PeelLayer_ov_loop (fuel : nat) (layerDepth : LayerDepth)
    (seeds : list N) (triDepths : list N) (behindBoundary : gmap N N)
    : outcome (gmap N N * list N) :=
  match seeds with
  | [] => Done (behindBoundary, triDepths)
  | iT :: seeds =>
      match fuel with
      | O => OutOfFuel
      | S fuel =>
          '(seeds, triDepths, behindBoundary) ←
            PeelLayer_ov_pop layerDepth iT seeds triDepths behindBoundary;
          PeelLayer_ov_loop fuel layerDepth seeds triDepths behindBoundary
      end
  end.

Definition PeelLayer_ov (seeds : list N) (layerDepth : LayerDepth)
    (triDepths : list N) : outcome (gmap N N * list N) :=
  PeelLayer_ov_loop (PeelLayer_fuel seeds triDepths) layerDepth seeds triDepths ∅.

(** *** [CalculateTriangleDepths], the overload without overlaps

    [order] is the order in which the [unordered_set] returned by
    [PeelLayer] is iterated. *)

Variable order : gset N → list N.

Fixpoint CalculateTriangleDepths_loop (fuel : nat) (seeds : list N)
    (layerDepth : LayerDepth) (triDepths : list N) : outcome (list N) :=
  match fuel with
  | O => OutOfFuel
  | S fuel =>
      '(newSeeds, triDepths) ← PeelLayer seeds layerDepth triDepths;
      let layerDepth := LayerDepth_of (layerDepth + 1) in
      let seeds := stack_of_range (order newSeeds) in
      match seeds with
      | [] => Done triDepths
      | _ => CalculateTriangleDepths_loop fuel seeds layerDepth triDepths
      end
  end.

(** The loop runs at most once per triangle and once more
    (see [CalculateTriangleDepths_never_OutOfFuel]). *)
Definition CalculateTriangleDepths (seed : TriInd) : outcome (list N) :=
  CalculateTriangleDepths_loop (length triangles + 2) [seed] 0
    (replicate (length triangles) LayerDepth_max).

(** *** [CalculateTriangleDepths], the overload with overlaps *)

(** The loop over [newSeeds]: [deepestSeedDepth] and [seedsByDepth] after
    it. *)
Definition record_seeds (newSeeds : gmap N N)
    (acc : LayerDepth * gmap N (gset N)) : LayerDepth * gmap N (gset N) :=
  map_fold
    (λ (iT : N) (d : N) (acc : LayerDepth * gmap N (gset N)),
       (N.max acc.1 d, <[d := default ∅ (acc.2 !! d) ∪ {[iT]}]> acc.2))
    acc newSeeds.

(** State at the head of the [do] loop. *)
Record DepthState := mkDepthState {
  ds_seeds : list N;
  ds_layerDepth : LayerDepth;
  ds_deepestSeedDepth : LayerDepth;
  ds_seedsByDepth : gmap N (gset N);
  ds_triDepths : list N
}.

(** One run of the body of the [do] loop. *)
Definition CalculateTriangleDepths_ov_body (st : DepthState)
    : outcome DepthState :=
  '(newSeeds, triDepths) ←
    PeelLayer_ov (ds_seeds st) (ds_layerDepth st) (ds_triDepths st);
  let seedsByDepth := delete (ds_layerDepth st) (ds_seedsByDepth st) in
  let '(deepestSeedDepth, seedsByDepth) :=
    record_seeds newSeeds (ds_deepestSeedDepth st, seedsByDepth) in
  let key := LayerDepth_of (ds_layerDepth st + 1) in
  let nextLayerSeeds := default ∅ (seedsByDepth !! key) in
  let seedsByDepth := <[key := nextLayerSeeds]> seedsByDepth in
  Done {| ds_seeds := stack_of_range (order nextLayerSeeds);
          ds_layerDepth := LayerDepth_of (ds_layerDepth st + 1);
          ds_deepestSeedDepth := deepestSeedDepth;
          ds_seedsByDepth := seedsByDepth;
          ds_triDepths := triDepths |}.

(** The condition of the [do] loop. *)
Definition CalculateTriangleDepths_ov_continue (st : DepthState) : bool :=
  negb (bool_decide (ds_seeds st = []))
  || (ds_layerDepth st <? ds_deepestSeedDepth st).

Fixpoint CalculateTriangleDepths_ov_loop (fuel : nat) (st : DepthState)
    : outcome (list N) :=
  match fuel with
  | O => OutOfFuel
  | S fuel =>
      st ← CalculateTriangleDepths_ov_body st;
      if CalculateTriangleDepths_ov_continue st
      then CalculateTriangleDepths_ov_loop fuel st
      else Done (ds_triDepths st)
  end.

Definition CalculateTriangleDepths_ov_init (seed : TriInd) : DepthState :=
  {| ds_seeds := [seed];
     ds_layerDepth := 0;
     ds_deepestSeedDepth := 0;
     ds_seedsByDepth := ∅;
     ds_triDepths := replicate (length triangles) LayerDepth_max |}.

(** The iteration budget of the model: two passes over the values of
    [LayerDepth], and one iteration per triangle. *)
Definition CalculateTriangleDepths_ov_fuel : nat :=
  (2 * N.to_nat (LayerDepth_max + 1) + length triangles + 2)%nat.

Definition CalculateTriangleDepths_ov (seed : TriInd) : outcome (list N) :=
  CalculateTriangleDepths_ov_loop CalculateTriangleDepths_ov_fuel
    (CalculateTriangleDepths_ov_init seed).
End Peel.

(** ** Insertion of vertices (Triangulation.h) *)

Inductive VertexInsertionOrder :=
  | Randomized   (* vertices will be inserted in random order *)
  | AsProvided.  (* vertices will be inserted in the same order as provided *)

(** [Triangulation::insertVertices], over any implementation of the
    methods of Triangulation.hpp it calls, acting on a triangulation state
    [Tri]. The function-local [static mt19937 g(9001)] of [randomCDT] is
    one object for the whole process: its state [G] is threaded through
    the calls, whatever the instance they are made on. *)
Section InsertVertices.
Context `{CDTUtils} {Tri TVertex G : Type}.
(** [vertices.size()] *)
Variable vertices_size : Tri → N.
(** [addSuperTriangle(envelopBox<T>(first, last, getX, getY))] *)
Variable addSuperTriangle : list TVertex → Tri → Tri.
(** [addNewVertex(V2d<T>::make(getX(v), getY(v)), TriIndVec())] *)
Variable addNewVertex : TVertex → Tri → Tri.
Variable insertVertex : VertInd → Tri → Tri.
(** the data member [m_vertexInsertionOrder] *)
Variable m_vertexInsertionOrder : Tri → VertexInsertionOrder.
(** [g()]: the next number of the generator, and its new state *)
Variable gen : G → N * G.
(** [std::random_shuffle(first, last, rand)], whose algorithm the C++
    standard leaves to the implementation *)
Variable random_shuffle : (N → G → N * G) → list N → G → list N * G.

(** [randomCDT(i)]: [g() % i]. *)
Definition randomCDT (i : N) (g : G) : N * G :=
  let '(r, g) := gen g in (r mod i, g).

(** The indices [nExistingVerts], [nExistingVerts + 1], ... of the [n] new
    vertices. *)
Definition new_indices (nExistingVerts : N) (n : nat) : list N :=
  map (λ k, VertInd_of (nExistingVerts + N.of_nat k)) (seq 0 n).

Definition insertVertices (range : list TVertex) (w : Tri * G) : Tri * G :=
  let '(tr, g) := w in
  let tr := if vertices_size tr =? 0 then addSuperTriangle range tr else tr in
  let nExistingVerts := vertices_size tr in
  let tr := fold_left (λ tr v, addNewVertex v tr) range tr in
  match m_vertexInsertionOrder tr with
  | AsProvided =>
      (fold_left (λ tr iV, insertVertex iV tr)
         (new_indices nExistingVerts (length range)) tr, g)
  | Randomized =>
      let '(ii, g) :=
        random_shuffle randomCDT (new_indices nExistingVerts (length range)) g in
      (fold_left (λ tr iV, insertVertex iV tr) ii tr, g)
  end.
End InsertVertices.

(** *** The generator and the shuffle of the examples

    [mt19937] is the 32-bit Mersenne twister of the C++ standard library
    ([rand.eng.mers], [rand.predef]); the shuffle is the one of the GNU
    implementation of [std::random_shuffle]. *)

Definition w32 (x : N) : N := x mod 4294967296.

Record mt_state := { mt_words : list N; mt_index : nat }.

Fixpoint mt_seed_words (n : nat) (i : N) (prev : N) : list N :=
  match n with
  | O => []
  | S n =>
      let x := w32 (1812433253 * N.lxor prev (N.shiftr prev 30) + i) in
      x :: mt_seed_words n (i + 1) x
  end.

(** [mt19937 g(s)] *)
Definition mt19937_seed (s : N) : mt_state :=
  {| mt_words := w32 s :: mt_seed_words 623 1 (w32 s); mt_index := 624 |}.

Definition mt_twist_at (mt : list N) (i : nat) : list N :=
  let y := N.lor (N.land (mt !!! i) 2147483648)
                 (N.land (mt !!! ((i + 1) mod 624)%nat) 2147483647) in
  let v := N.lxor (N.lxor (mt !!! ((i + 397) mod 624)%nat) (N.shiftr y 1))
                  (if N.odd y then 2567483615 else 0) in
  <[i := v]> mt.

Definition mt_twist (mt : list N) : list N :=
  fold_left mt_twist_at (seq 0 624) mt.

Definition mt_temper (y : N) : N :=
  let y := N.lxor y (N.shiftr y 11) in
  let y := N.lxor y (N.land (w32 (N.shiftl y 7)) 2636928640) in
  let y := N.lxor y (N.land (w32 (N.shiftl y 15)) 4022730752) in
  N.lxor y (N.shiftr y 18).

(** [g()] *)
Definition mt_next (g : mt_state) : N * mt_state :=
  let g := if (624 <=? mt_index g)%nat
           then {| mt_words := mt_twist (mt_words g); mt_index := 0 |}
           else g in
  (mt_temper (mt_words g !!! mt_index g),
   {| mt_words := mt_words g; mt_index := S (mt_index g) |}).

(** The [n]-th number drawn from [g], counting from 0. *)
Fixpoint mt_nth (n : nat) (g : mt_state) : N :=
  match n with
  | O => (mt_next g).1
  | S n => mt_nth n (mt_next g).2
  end.

Definition swap_at (l : list N) (i j : nat) : list N :=
  <[i := l !!! j]> (<[j := l !!! i]> l).

(** [for (i = first + 1; i != last; ++i) iter_swap(i, first + rand((i - first) + 1))] *)
Fixpoint gnu_shuffle_from {G} (rand : N → G → N * G) (i : nat) (n : nat)
    (l : list N) (g : G) : list N * G :=
  match n with
  | O => (l, g)
  | S n =>
      let '(j, g) := rand (N.of_nat i + 1) g in
      gnu_shuffle_from rand (S i) n (swap_at l i (N.to_nat j)) g
  end.

Definition gnu_random_shuffle {G} (rand : N → G → N * G) (l : list N) (g : G)
    : list N * G :=
  gnu_shuffle_from rand 1 (length l - 1) l g.

(** A triangulation state that keeps the vertices and the order of the
    calls of [insertVertex]. *)
Record InsertionLog := {
  il_vertices : list (Z * Z);
  il_inserted : list N
}.

Definition log_addSuperTriangle (range : list (Z * Z)) (tr : InsertionLog) : InsertionLog :=
  {| il_vertices := il_vertices tr ++ [(0, 0); (0, 0); (0, 0)]%Z;
     il_inserted := il_inserted tr |}.

Definition log_addNewVertex (v : Z * Z) (tr : InsertionLog) : InsertionLog :=
  {| il_vertices := il_vertices tr ++ [v]; il_inserted := il_inserted tr |}.

Definition log_insertVertex (iV : N) (tr : InsertionLog) : InsertionLog :=
  {| il_vertices := il_vertices tr; il_inserted := il_inserted tr ++ [iV] |}.

(** [insertVertices] of a [Randomized] instance on that state, with the
    generator and the shuffle above. *)
Definition log_insertVertices (range : list (Z * Z))
    (w : InsertionLog * mt_state) : InsertionLog * mt_state :=
  insertVertices (H := spec_utils)
    (λ tr, N.of_nat (length (il_vertices tr)))
    log_addSuperTriangle log_addNewVertex log_insertVertex
    (λ _, Randomized) mt_next gnu_random_shuffle range w.

(** ** Reference notions used in the statements *)

Section DuplicatesSpec.
Context {T : Type} `{Countable T} {TVertex : Type}.
Variables (getX getY : TVertex → T).

(** The position of a vertex: duplicates are the vertices with the same
    position. *)
Definition position (v : TVertex) : T * T := (getX v, getY v).

(** The survivors of a vertex list: the first vertex at each position,
    in the order of the list. *)
Definition survivors (vs : list TVertex) : list TVertex :=
  fold_left
    (λ acc v, if decide (position v ∈ position <$> acc) then acc else acc ++ [v])
    vs [].

(** [j] is the first index of [vs] holding a vertex at the position of
    [w], and holds [w]. *)
Definition first_occurrence (vs : list TVertex) (j : nat) (w : TVertex) : Prop :=
  vs !! j = Some w
  ∧ ∀ j' v', (j' < j)%nat → vs !! j' = Some v' → position v' ≠ position w.
End DuplicatesSpec.

(** What the body of the [for] loop of [PeelLayer] does on a corner: go
    on to the next corner, record the neighbour behind a fixed edge, push
    it on the stack, or read [triDepths] out of range. *)
Inductive action := Skip | Record | Push | Fault.

#[global] Instance action_eq_dec : EqDecision action.
Proof. solve_decision. Defined.

Section PeelSpec.
Context `{CDTUtils}.
Variables (triangles : list Triangle) (fixedEdges : gset Edge).

(** [iN] is the neighbour of triangle [iT] opposed to its corner [i], and
    [e] is the edge they share. *)
Definition neighbor_at (iT : TriInd) (i : Index) (iN : TriInd) (e : Edge) : Prop :=
  ∃ t, vec_at triangles iT = Some t
       ∧ opNeighbor t i = iN ∧ opEdge t i = e ∧ iN ≠ noNeighbor.

(** The depth recorded for [iN] in [triDepths] exceeds [layerDepth]. *)
Definition exceeds (triDepths : list N) (layerDepth : LayerDepth) (iN : TriInd) : Prop :=
  ∃ d, vec_at triDepths iN = Some d ∧ layerDepth < d.

(** [iN] is a neighbour of [iT] with a depth above the layer, across an
    edge that is not fixed / that is fixed. *)
Definition free_step (triDepths : list N) (layerDepth : LayerDepth)
    (iT iN : TriInd) : Prop :=
  ∃ i e, neighbor_at iT i iN e ∧ (e ∉ fixedEdges) ∧ exceeds triDepths layerDepth iN.

Definition fixed_step (triDepths : list N) (layerDepth : LayerDepth)
    (iT iN : TriInd) : Prop :=
  ∃ i e, neighbor_at iT i iN e ∧ e ∈ fixedEdges ∧ exceeds triDepths layerDepth iN.

(** The triangles of the layer: the seeds, and every triangle reached
    from them through edges that are not fixed, going only to triangles
    whose depth, at the call, is above the layer. *)
Inductive peeled (triDepths : list N) (layerDepth : LayerDepth)
    (seeds : list N) : TriInd → Prop :=
  | peeled_seed iT : iT ∈ seeds → peeled triDepths layerDepth seeds iT
  | peeled_step iT iN :
      peeled triDepths layerDepth seeds iT →
      free_step triDepths layerDepth iT iN →
      peeled triDepths layerDepth seeds iN.

(** [iT] can be popped without indexing out of range: it is a triangle
    with a depth entry, and so is each of its neighbours. *)
Definition usable (triDepths : list N) (iT : TriInd) : Prop :=
  iT < vec_size triDepths
  ∧ ∃ t, vec_at triangles iT = Some t
         ∧ ∀ i, opNeighbor t i = noNeighbor ∨ opNeighbor t i < vec_size triDepths.

(** Neighbour traversal, whatever the edges: [iN] fills a neighbour slot
    of [iT]. *)
Definition adjacent (iT iN : TriInd) : Prop :=
  ∃ i e, neighbor_at iT i iN e.

Definition reached_from (seed : TriInd) (iT : TriInd) : Prop :=
  rtc adjacent seed iT.

(** Every neighbour slot of every triangle holds [noNeighbor] or the
    index of a triangle. *)
Definition neighbors_in_range : Prop :=
  ∀ iT t i, vec_at triangles iT = Some t →
    opNeighbor t i = noNeighbor ∨ opNeighbor t i < vec_size triangles.

Definition visit_action (layerDepth : LayerDepth) (triDepths : list N)
    (t : Triangle) (i : Index) : action :=
  if decide (opNeighbor t i = noNeighbor) then Skip
  else match vec_at triDepths (opNeighbor t i) with
       | None => Fault
       | Some d =>
           if d <=? layerDepth then Skip
           else if decide (opEdge t i ∈ fixedEdges) then Record else Push
       end.
End PeelSpec.

(** An iteration order of an [unordered_set]: a list of its elements. *)
Definition enumerates (order : gset N → list N) : Prop :=
  ∀ (s : gset N) (x : N), x ∈ order s ↔ x ∈ s.

(** No index is out of range during the peeling: there is one depth per
    triangle, the seeds are triangles, and every neighbour slot holds
    [noNeighbor] or a triangle. *)
Definition well_formed `{CDTUtils} (triangles : list Triangle)
    (seeds : list N) (triDepths : list N) : bool :=
  bool_decide (length triDepths = length triangles)
  && forallb (λ s, s <? vec_size triangles) seeds
  && forallb
       (λ t, forallb
               (λ i, bool_decide (opNeighbor t i = noNeighbor)
                     || (opNeighbor t i <? vec_size triangles))
               Index_all)
       triangles.

(** The triangulation of the examples: the triangle [0 1 2] and its
    neighbours [2 1 3] and [0 3 2], which are neighbours of each other. *)
Definition example_triangles : list Triangle :=
  [ mkTriangle (0, 1, 2) (1, 2, 4294967295);
    mkTriangle (2, 1, 3) (4294967295, 2, 0);
    mkTriangle (0, 3, 2) (1, 0, 4294967295) ].

(** The seeds recorded in [seedsByDepth] for the layer [k]. *)
Definition pending (seedsByDepth : gmap N (gset N)) (k : LayerDepth) : gset N :=
  default ∅ (seedsByDepth !! k).

(** [example_triangles] and a triangle that is not a neighbour of any
    other. *)
Definition example_with_island : list Triangle :=
  example_triangles
  ++ [ mkTriangle (4, 5, 6) (4294967295, 4294967295, 4294967295) ].

(** ** Notions used in the proofs: invariants and measures *)

Section DuplicatesInvariant.
Context {T : Type} `{Countable T} {TVertex : Type}.
Variables (getX getY : TVertex → T).
Local Abbreviation pos := (position getX getY).
Local Abbreviation surv := (survivors getX getY).
Local Abbreviation step := (FindDuplicates_step getX getY).

(** What the loop of [FindDuplicates] has established once the prefix
    [p] of a range of [n] vertices is processed. *)
Definition find_inv (n : nat) (p : list TVertex) (st : @FindState T _ _) : Prop :=
  iIn st = N.of_nat (length p)
  ∧ iOut st = N.of_nat (length (surv p))
  ∧ length (mapping (di st)) = n
  ∧ (∀ k m, uniqueVerts st !! k = Some m
            ↔ ∃ m' w, m = N.of_nat m' ∧ surv p !! m' = Some w ∧ pos w = k)
  ∧ (∀ i v, p !! i = Some v →
            ∃ m w, mapping (di st) !! i = Some (N.of_nat m)
                   ∧ surv p !! m = Some w ∧ pos w = pos v)
  ∧ (∀ m w, surv p !! m = Some w →
            ∃ j, first_occurrence getX getY p j w
                 ∧ mapping (di st) !! j = Some (N.of_nat m))
  ∧ (∀ i, i ∈ duplicates (di st)
          ↔ ∃ i' j v w, i = N.of_nat i' ∧ (j < i')%nat
                        ∧ p !! j = Some v ∧ p !! i' = Some w ∧ pos v = pos w)
  ∧ remove_at p (duplicates (di st)) = surv p.

End DuplicatesInvariant.

Section PeelStepDefs.
Context `{CDTUtils}.
Variable fixedEdges : gset Edge.
Local Abbreviation act := (visit_action fixedEdges).

(** The triangles pushed, and the triangles recorded, by the three runs
    of the [for] loop on [t]. *)
Definition pushed_by (L : N) (d : list N) (t : Triangle) (i : Index) : list N :=
  match act L d t i with Push => [opNeighbor t i] | _ => [] end.

Definition pushed (L : N) (d : list N) (t : Triangle) : list N :=
  pushed_by L d t I2 ++ pushed_by L d t I1 ++ pushed_by L d t I0.

Definition recorded_by (L : N) (d : list N) (t : Triangle) (i : Index) : gset N :=
  match act L d t i with Record => {[opNeighbor t i]} | _ => ∅ end.

Definition recorded (L : N) (d : list N) (t : Triangle) : gset N :=
  recorded_by L d t I0 ∪ recorded_by L d t I1 ∪ recorded_by L d t I2.

Definition faultless (L : N) (d : list N) (t : Triangle) : Prop :=
  ∀ i, act L d t i ≠ Fault.

#[global] Instance faultless_dec L d t : Decision (faultless L d t).
Proof.
  unfold faultless.
  destruct (decide (act L d t I0 ≠ Fault ∧ act L d t I1 ≠ Fault ∧ act L d t I2 ≠ Fault))
    as [Hy|Hn].
  - left. intros []; tauto.
  - right. intros Hall. apply Hn. eauto.
Defined.

End PeelStepDefs.

Section PeelLoopDefs.
Context `{CDTUtils}.
Variables (triangles : list Triangle) (fixedEdges : gset Edge).
Variables (L : LayerDepth) (d0 : list N) (seeds0 : list N).
Local Abbreviation act := (visit_action fixedEdges).
Local Abbreviation peeled0 := (peeled triangles fixedEdges d0 L seeds0).
Local Abbreviation free0 := (free_step triangles fixedEdges d0 L).
Local Abbreviation fixed0 := (fixed_step triangles fixedEdges d0 L).

(** The state of the [while] loop: [s] the stack, [d] the depths, [bb]
    the set behind the boundary; [X] is the set of triangles popped so
    far. *)
Record peel_inv (s : list N) (d : list N) (bb : gset N) (X : gset N) : Prop := {
  pi_length : length d = length d0;
  pi_in : ∀ t, t ∈ X → vec_at d t = Some L;
  pi_out : ∀ t, t ∉ X → vec_at d t = vec_at d0 t;
  pi_popped : ∀ t, t ∈ X → peeled0 t;
  pi_stack : ∀ t, t ∈ s → peeled0 t;
  pi_closed : ∀ t n, t ∈ X → free0 t n → n ∈ X ∨ n ∈ s;
  pi_seeds : ∀ t, t ∈ seeds0 → t ∈ X ∨ t ∈ s;
  pi_behind : ∀ n, n ∈ bb ↔ (n ∉ X) ∧ ∃ t, t ∈ X ∧ fixed0 t n;
  pi_usable : ∀ t, t ∈ X → usable triangles d0 t
}.

End PeelLoopDefs.

(** Number of entries of [d] above [L]. *)
Definition count_above (L : N) (d : list N) : nat :=
  length (filter (λ v, L < v) d).

Section PeelFuelDefs.
Variable L : LayerDepth.

(** The top of the stack is a triangle whose depth is above the layer. *)
Definition top_above (s : list N) (d : list N) : bool :=
  match s with
  | iT :: _ => match vec_at d iT with Some v => L <? v | None => false end
  | [] => false
  end.

(** A quantity that every iteration of the [while] loop lowers. *)
Definition peel_measure (s : list N) (d : list N) : nat :=
  (7 * count_above L d + length s + if top_above s d then 0 else 4)%nat.

End PeelFuelDefs.

Section PeelOverlapDefs.
Context `{CDTUtils}.
Variables (triangles : list Triangle) (fixedEdges : gset Edge).
Variable overlapCount : gmap Edge N.
Variables (L : LayerDepth) (d0 : list N) (seeds0 : list N).
Local Abbreviation act := (visit_action fixedEdges).
Local Abbreviation peeled0 := (peeled triangles fixedEdges d0 L seeds0).

(** The map after the run of the [for] loop on corner [i]. *)
Definition record_ov (d : list N) (t : Triangle) (i : Index) (m : gmap N N) : gmap N N :=
  match act L d t i with
  | Record => <[opNeighbor t i := behind_depth overlapCount L (opEdge t i)]> m
  | _ => m
  end.

(** Where the depths recorded in the map come from: a fixed edge between
    a triangle of the layer and the recorded triangle. *)
Definition recorded_from (bbm : gmap N N) : Prop :=
  ∀ n v, bbm !! n = Some v →
    ∃ iT i e, peeled0 iT ∧ neighbor_at triangles iT i n e
              ∧ e ∈ fixedEdges ∧ exceeds d0 L n
              ∧ v = behind_depth overlapCount L e.

End PeelOverlapDefs.

Section DepthsDefs.
Context `{CDTUtils}.
Variable triangles : list Triangle.

(** At the head of the iteration for layer [L], the depths assigned so
    far are below [L], and the others are [LayerDepth_max]. *)
Definition depths_below (L : LayerDepth) (d : list N) : Prop :=
  ∀ t v, vec_at d t = Some v → v < L ∨ v = LayerDepth_max.

Definition seeds_unassigned (seeds : list N) (d : list N) : Prop :=
  ∀ s v, s ∈ seeds → vec_at d s = Some v → v = LayerDepth_max.

(** Only triangles reached from the seed through neighbour slots get a
    depth. *)
Definition only_reached (seed : TriInd) (d : list N) : Prop :=
  ∀ t v, vec_at d t = Some v → v ≠ LayerDepth_max →
         reached_from triangles seed t.

End DepthsDefs.

Section DepthsOverlapInvDefs.
Context `{CDTUtils}.
Variable triangles : list Triangle.

(** Nothing is out of range. *)
Definition ov_in_range (st : DepthState) : Prop :=
  length (ds_triDepths st) = length triangles
  ∧ (∀ s, s ∈ ds_seeds st → s < vec_size triangles)
  ∧ (∀ k t, t ∈ pending (ds_seedsByDepth st) k → t < vec_size triangles).

(** Only triangles reached from the seed have a depth, or are seeds. *)
Definition ov_reached (seed : TriInd) (st : DepthState) : Prop :=
  length (ds_triDepths st) = length triangles
  ∧ only_reached triangles seed (ds_triDepths st)
  ∧ (∀ s, s ∈ ds_seeds st → reached_from triangles seed s)
  ∧ (∀ k t, t ∈ pending (ds_seedsByDepth st) k → reached_from triangles seed t).

End DepthsOverlapInvDefs.

Section AssignedDefs.
Context `{CDTUtils}.

(** Number of triangles with a depth below [LayerDepth_max]. *)
Definition assigned_count (d : list N) : nat :=
  length (filter (λ v, v < LayerDepth_max) d).

End AssignedDefs.

Section DepthsOverlapFuelDefs.
Context `{CDTUtils}.
Variable triangles : list Triangle.
(** a bound on the overlap counts *)
Variable K : N.

(** The number of assigned depths, as a depth. *)
Definition assigned (d : list N) : N := N.of_nat (assigned_count d).

(** What bounds the layers when the overlap counts are at most [K]: a
    layer that has seeds, and every recorded depth, is at most [K + 1]
    times the number of triangles assigned so far. *)
Record ov_bounded (st : DepthState) : Prop := {
  ob_len : length (ds_triDepths st) = length triangles;
  ob_layer : ds_layerDepth st ≤ vec_size triangles * (K + 1);
  ob_below : depths_below (ds_layerDepth st) (ds_triDepths st);
  ob_deep : ds_deepestSeedDepth st ≤ assigned (ds_triDepths st) * (K + 1);
  ob_pend_le : ∀ k t, t ∈ pending (ds_seedsByDepth st) k → k ≤ ds_deepestSeedDepth st;
  ob_pend : ∀ k t v,
    t ∈ pending (ds_seedsByDepth st) k → ds_layerDepth st ≤ k →
    vec_at (ds_triDepths st) t = Some v →
    (v = LayerDepth_max → k ≤ assigned (ds_triDepths st) * (K + 1))
    ∧ (v < LayerDepth_max → k + K + 1 ≤ assigned (ds_triDepths st) * (K + 1));
  ob_seeds : ∀ s v,
    s ∈ ds_seeds st → vec_at (ds_triDepths st) s = Some v →
    (v = LayerDepth_max → ds_layerDepth st ≤ assigned (ds_triDepths st) * (K + 1))
    ∧ (v < LayerDepth_max →
       ds_layerDepth st + K + 1 ≤ assigned (ds_triDepths st) * (K + 1))
}.

End DepthsOverlapFuelDefs.

Section InsertVerticesDefs.
Context `{CDTUtils} {Tri TVertex : Type}.
Variable vertices_size : Tri → N.
Variable addSuperTriangle : list TVertex → Tri → Tri.
Variable addNewVertex : TVertex → Tri → Tri.

(** The instance once the super-triangle and the new vertices are added,
    and the indices to insert. *)
Definition with_super (range : list TVertex) (tr : Tri) : Tri :=
  if vertices_size tr =? 0 then addSuperTriangle range tr else tr.

Definition with_vertices (range : list TVertex) (tr : Tri) : Tri :=
  fold_left (λ tr v, addNewVertex v tr) range (with_super range tr).

Definition indices_to_insert (range : list TVertex) (tr : Tri) : list N :=
  new_indices (vertices_size (with_super range tr)) (length range).

End InsertVerticesDefs.
(** ** Notions used in the further properties *)

Section DuplicatesBoundsDefs.
Context {T : Type} `{Countable T}.

(** What the loop of [FindDuplicates] keeps about the sizes: [iOut]
    counts the vertices kept so far, the duplicates are listed in
    increasing order, and the mapping points below [iOut]. *)
Definition find_bounds (st : @FindState T _ _) : Prop :=
  iOut st ≤ iIn st
  ∧ N.of_nat (length (duplicates (di st))) + iOut st = iIn st
  ∧ (∀ (i j : nat) a b, (i < j)%nat →
       duplicates (di st) !! i = Some a → duplicates (di st) !! j = Some b → a < b)
  ∧ (∀ a, a ∈ duplicates (di st) → a < iIn st)
  ∧ (∀ k m, uniqueVerts st !! k = Some m → m < iOut st)
  ∧ (∀ i m, i < iIn st → vec_at (mapping (di st)) i = Some m → m ≤ i ∧ m < iOut st).
End DuplicatesBoundsDefs.

(** ** [hash<V2d<T> >] (CDT.h)

    [Hasher()(xy.x) ^ Hasher()(xy.y)], for any hash [Hasher] of the
    coordinates. *)
Definition hash_V2d {T : Type} (Hasher : T → N) (xy : T * T) : N :=
  N.lxor (Hasher (getX_V2d xy)) (Hasher (getY_V2d xy)).

(** What both overloads of [PeelLayer] leave: the triangles recorded
    behind the boundary and the depths. *)

Definition peel_ov_result (r : outcome (gmap N N * list N))
    : outcome (gset N * list N) :=
  match r with
  | Done (behindBoundary, triDepths) => Done (dom behindBoundary, triDepths)
  | Undefined => Undefined
  | OutOfFuel => OutOfFuel
  end.

(** *** Counting the fixed edges crossed from the seed *)

Section CrossingDefs.
Context `{CDTUtils}.
Variables (triangles : list Triangle) (fixedEdges : gset Edge).

(** [iN] fills a neighbour slot of [iT], across an edge that is not
    fixed / that is fixed. *)
Definition free_neighbor (iT iN : TriInd) : Prop :=
  ∃ i e, neighbor_at triangles iT i iN e ∧ e ∉ fixedEdges.

Definition fixed_neighbor (iT iN : TriInd) : Prop :=
  ∃ i e, neighbor_at triangles iT i iN e ∧ e ∈ fixedEdges.

(** [crossing seed k iT]: [iT] is reached from [seed] through neighbour
    slots, crossing at most [k] fixed edges. *)
Inductive crossing (seed : TriInd) : nat → TriInd → Prop :=
  | crossing_seed k : crossing seed k seed
  | crossing_free k iT iN :
      crossing seed k iT → free_neighbor iT iN → crossing seed k iN
  | crossing_fixed k iT iN :
      crossing seed k iT → fixed_neighbor iT iN → crossing seed (S k) iN.

(** [k] is the least number of fixed edges crossed on the way from
    [seed] to [iT]. *)
Definition min_crossing (seed : TriInd) (k : nat) (iT : TriInd) : Prop :=
  crossing seed k iT ∧ ∀ j, (j < k)%nat → ¬ crossing seed j iT.

(** [iT] is reached crossing fewer than [L] fixed edges. *)
Definition below_crossing (seed : TriInd) (L : N) (iT : TriInd) : Prop :=
  ∃ k, N.of_nat k < L ∧ crossing seed k iT.

(** The depths once the layers below [L] are peeled. *)
Definition counted (seed : TriInd) (L : N) (d : list N) : Prop :=
  ∀ t v, vec_at d t = Some v →
    (v < L ∧ v < LayerDepth_max ∧ min_crossing seed (N.to_nat v) t)
    ∨ (v = LayerDepth_max ∧ ¬ below_crossing seed L t).

(** The state at the head of the iteration for layer [L]. *)
Record count_inv (seed : TriInd) (seeds : list N) (L : N) (d : list N) : Prop := {
  ci_len : length d = length triangles;
  ci_counted : counted seed L d;
  ci_seeds : ∀ s, s ∈ seeds →
    vec_at d s = Some LayerDepth_max ∧ crossing seed (N.to_nat L) s;
  ci_complete : L < LayerDepth_max →
    ∀ t, crossing seed (N.to_nat L) t → ¬ below_crossing seed L t →
         peeled triangles fixedEdges d L seeds t
}.

(** The depths returned: the least number of fixed edges crossed from
    the seed, when it is below [LayerDepth_max]. *)
Definition counts_crossings (seed : TriInd) (d : list N) : Prop :=
  ∀ t v, vec_at d t = Some v →
    (v < LayerDepth_max ∧ min_crossing seed (N.to_nat v) t)
    ∨ (v = LayerDepth_max
       ∧ ∀ k, N.of_nat k < LayerDepth_max → ¬ crossing seed k t).
End CrossingDefs.

(** A fan of four triangles around vertex 1: triangle 0 is [1 2 0], and
    going around, triangles 1 [1 0 3], 2 [1 3 4] and 3 [1 4 2]. The four
    edges at vertex 1 are fixed, and two boundaries overlap on the edge
    [(1, 4)], between triangles 3 and 2. *)
Definition fan_triangles : list Triangle :=
  [ mkTriangle (1, 2, 0) (4294967295, 1, 3);
    mkTriangle (1, 0, 3) (4294967295, 2, 0);
    mkTriangle (1, 3, 4) (4294967295, 3, 1);
    mkTriangle (1, 4, 2) (4294967295, 0, 2) ].

Definition fan_fixedEdges : gset Edge :=
  {[ mkEdge 0 1; mkEdge 1 2; mkEdge 1 3; mkEdge 1 4 ]}.

Definition fan_overlapCount : gmap Edge N := {[ mkEdge 1 4 := 1 ]}.

Section ShuffleDefs.
Context {G : Type}.
Variable gen : G → N * G.

(** The state of the generator after [n] numbers are drawn. *)
Definition drawn (n : nat) (g : G) : G := Nat.iter n (λ g, (gen g).2) g.
End ShuffleDefs.

Section OuterDefs.
Context `{CDTUtils}.
Variables (triangles : list Triangle) (fixedEdges : gset Edge).
Variable seed : TriInd.

(** The depth 0 is the depth of the triangles reached from the seed
    without crossing a fixed edge, and of no other. *)
Definition outer_depths (d : list N) : Prop :=
  length d = length triangles
  ∧ ∀ t, t < vec_size triangles →
         (vec_at d t = Some 0 ↔ crossing triangles fixedEdges seed 0 t).

(** The state at the head of an iteration of the overload with overlaps:
    before the layer 0 nothing is assigned; after it, the triangles at
    depth 0 are settled and are no seeds any more. *)
Record outer_inv (st : DepthState) : Prop := {
  oi_len : length (ds_triDepths st) = length triangles;
  oi_sound : ∀ t, vec_at (ds_triDepths st) t = Some 0 →
                  crossing triangles fixedEdges seed 0 t;
  oi_complete : 1 ≤ ds_layerDepth st →
    ∀ t, t < vec_size triangles → crossing triangles fixedEdges seed 0 t →
         vec_at (ds_triDepths st) t = Some 0;
  oi_seeds : 1 ≤ ds_layerDepth st →
    ∀ s, s ∈ ds_seeds st → ¬ crossing triangles fixedEdges seed 0 s;
  oi_pending : ∀ k t, t ∈ pending (ds_seedsByDepth st) k →
                      ¬ crossing triangles fixedEdges seed 0 t;
  oi_first : ds_layerDepth st = 0 →
    ds_seeds st = [seed]
    ∧ ds_triDepths st = replicate (length triangles) LayerDepth_max
}.
End OuterDefs.

Section AppendDefs.
Context {T : Type} `{Countable T}.

(** The state of [FindDuplicates] with room for more vertices: [extra]
    is appended to the mapping. *)
Definition with_room (st : @FindState T _ _) (extra : list N) : FindState :=
  {| iIn := iIn st; iOut := iOut st; uniqueVerts := uniqueVerts st;
     di := {| mapping := mapping (di st) ++ extra;
              duplicates := duplicates (di st) |} |}.
End AppendDefs.
(** * Properties *)

(** ** Vectors *)

Lemma vec_at_is_Some {X} (l : list X) i : is_Some (vec_at l i) ↔ i < vec_size l.
Proof. unfold vec_at, vec_size. rewrite lookup_lt_is_Some. lia. Qed.

Lemma vec_at_None {X} (l : list X) i : vec_at l i = None ↔ vec_size l ≤ i.
Proof. unfold vec_at, vec_size. rewrite lookup_ge_None. lia. Qed.

Lemma vec_set_length {X} (l : list X) i x : length (vec_set l i x) = length l.
Proof. apply length_insert. Qed.

Lemma vec_size_set {X} (l : list X) i x : vec_size (vec_set l i x) = vec_size l.
Proof. unfold vec_size. by rewrite vec_set_length. Qed.

Lemma vec_at_set_eq {X} (l : list X) i x :
  i < vec_size l → vec_at (vec_set l i x) i = Some x.
Proof.
  unfold vec_at, vec_set, vec_size. intros Hi.
  apply list_lookup_insert_eq. lia.
Qed.

Lemma vec_at_set_ne {X} (l : list X) i j x :
  i ≠ j → vec_at (vec_set l i x) j = vec_at l j.
Proof.
  unfold vec_at, vec_set. intros Hne.
  apply list_lookup_insert_ne. lia.
Qed.

(** ** Edge extraction *)

Lemma extract_fold_elem (triangles : list Triangle) (acc : gset Edge) (e : Edge) :
  e ∈ fold_left
    (λ (edges : gset Edge) t,
       let edges := edges ∪ {[ mkEdge (arr3_at (vertices t) I0) (arr3_at (vertices t) I1) ]} in
       let edges := edges ∪ {[ mkEdge (arr3_at (vertices t) I1) (arr3_at (vertices t) I2) ]} in
       edges ∪ {[ mkEdge (arr3_at (vertices t) I2) (arr3_at (vertices t) I0) ]})
    triangles acc
  ↔ e ∈ acc ∨ ∃ t, t ∈ triangles ∧ e ∈ triangle_edges t.
Proof.
  revert acc. induction triangles as [|t ts IH]; intros acc; simpl.
  - split; [by left|]. intros [?|(t & Ht & _)]; [done|]. by apply elem_of_nil in Ht.
  - rewrite IH. unfold triangle_edges. split.
    + intros [Hacc|(t' & Ht' & He)].
      * apply elem_of_union in Hacc as [Hacc|Hacc];
          [apply elem_of_union in Hacc as [Hacc|Hacc];
            [apply elem_of_union in Hacc as [Hacc|Hacc]|]|].
        -- by left.
        -- right. exists t. split; [left|]. apply elem_of_singleton in Hacc. subst. set_solver.
        -- right. exists t. split; [left|]. apply elem_of_singleton in Hacc. subst. set_solver.
        -- right. exists t. split; [left|]. apply elem_of_singleton in Hacc. subst. set_solver.
      * right. exists t'. split; [by right|done].
    + intros [Hacc|(t' & Ht' & He)].
      * left. set_solver.
      * apply elem_of_cons in Ht' as [->|Ht'].
        -- left. set_solver.
        -- right. eauto.
Qed.

(** C5. [extractEdgesFromTriangles] returns exactly the canonical edges of
    the triangles of its input, so a fixed-edge set whose every edge is an
    edge of some triangle (invariant 3) is included in it. *)
Theorem extractEdgesFromTriangles_exact (triangles : list Triangle) :
  (∀ e : Edge, e ∈ extractEdgesFromTriangles triangles
               ↔ ∃ t, t ∈ triangles ∧ e ∈ triangle_edges t)
  ∧ (∀ fixedEdges : gset Edge,
       (∀ e, e ∈ fixedEdges → ∃ t, t ∈ triangles ∧ e ∈ triangle_edges t) →
       fixedEdges ⊆ extractEdgesFromTriangles triangles).
Proof.
  assert (Hex : ∀ e : Edge, e ∈ extractEdgesFromTriangles triangles
               ↔ ∃ t, t ∈ triangles ∧ e ∈ triangle_edges t).
  { intros e. unfold extractEdgesFromTriangles. rewrite extract_fold_elem.
    split; [intros [H|H]; [set_solver|done] | by right]. }
  split; [exact Hex|].
  intros fixedEdges Hinv e He. apply Hex. by apply Hinv.
Qed.


(** ** Duplicate removal *)

Lemma remove_at_from_app {X} (l1 l2 : list X) i idx :
  remove_at_from i (l1 ++ l2) idx
  = remove_at_from i l1 idx ++ remove_at_from (i + N.of_nat (length l1)) l2 idx.
Proof.
  revert i. induction l1 as [|x l1 IH]; intros i; simpl.
  - f_equal. lia.
  - rewrite IH. replace (i + 1 + N.of_nat (length l1)) with (i + N.pos (Pos.of_succ_nat (length l1))) by lia.
    by destruct (bool_decide (i ∈ idx)).
Qed.

Lemma remove_at_from_ext {X} (l : list X) i idx idx' :
  (∀ j, i ≤ j < i + N.of_nat (length l) → j ∈ idx ↔ j ∈ idx') →
  remove_at_from i l idx = remove_at_from i l idx'.
Proof.
  revert i. induction l as [|x l IH]; intros i Hext; simpl; [done|].
  rewrite (IH (i + 1)).
  - assert (Hi : i ∈ idx ↔ i ∈ idx') by (apply Hext; simpl; lia).
    destruct (bool_decide_reflect (i ∈ idx)), (bool_decide_reflect (i ∈ idx')); tauto.
  - intros j Hj. apply Hext. simpl. lia.
Qed.

Section DuplicatesProofs.
Context {T : Type} `{Countable T} {TVertex : Type}.
Variables (getX getY : TVertex → T).

Local Abbreviation pos := (position getX getY).
Local Abbreviation surv := (survivors getX getY).
Local Abbreviation step := (FindDuplicates_step getX getY).
Local Abbreviation find_inv := (find_inv getX getY).

Lemma survivors_snoc p v :
  surv (p ++ [v])
  = if decide (pos v ∈ pos <$> surv p) then surv p else surv p ++ [v].
Proof. unfold survivors. by rewrite fold_left_app. Qed.


Lemma find_inv_init n : find_inv n [] (FindDuplicates_init n).
Proof.
  unfold find_inv, FindDuplicates_init; simpl. repeat split.
  - by rewrite length_replicate.
  - intros Hk. by rewrite lookup_empty in Hk.
  - intros (m' & w & _ & Hw & _). cbn in Hw. by rewrite lookup_nil in Hw.
  - intros i v Hv. by rewrite lookup_nil in Hv.
  - intros m w Hw. cbn in Hw. by rewrite lookup_nil in Hw.
  - intros Hi. by apply elem_of_nil in Hi.
  - intros (i' & j & v & w & _ & _ & Hv & _). by rewrite lookup_nil in Hv.
Qed.

Lemma survivors_positions p (st : @FindState T _ _) n k :
  find_inv n p st →
  (k ∈ pos <$> surv p) ↔ is_Some (uniqueVerts st !! k).
Proof.
  intros (_ & _ & _ & Huv & _). split.
  - intros Hk. apply list_elem_of_fmap in Hk as (w & -> & Hw).
    apply list_elem_of_lookup in Hw as (m & Hm).
    exists (N.of_nat m). apply Huv. eauto.
  - intros (m & Hm). apply Huv in Hm as (m' & w & _ & Hw & <-).
    apply list_elem_of_fmap. exists w. split; [done|].
    apply list_elem_of_lookup. eauto.
Qed.

Lemma find_inv_step n p v (st : @FindState T _ _) :
  (length p < n)%nat →
  find_inv n p st → find_inv n (p ++ [v]) (step st v).
Proof.
  intros Hlen Hinv.
  pose proof (survivors_positions p st n (pos v) Hinv) as Hmem.
  destruct Hinv as (HiIn & HiOut & Hmap & Huv & Hfwd & Hbwd & Hdup & Hrem).
  unfold find_inv. rewrite survivors_snoc.
  unfold FindDuplicates_step, V2d_make. fold (pos v).
  destruct (uniqueVerts st !! pos v) as [m|] eqn:Hlook.
  - (* a duplicate *)
    rewrite decide_True by (apply Hmem; eauto).
    apply Huv in Hlook as (m' & w & -> & Hw & Hposw).
    simpl. repeat split.
    + rewrite HiIn, length_app. simpl. lia.
    + done.
    + by rewrite vec_set_length.
    + apply Huv.
    + apply Huv.
    + intros i u Hu. unfold vec_set. rewrite HiIn, Nat2N.id.
      apply lookup_app_Some in Hu as [Hu|[Hge Hu]].
      * destruct (Hfwd i u Hu) as (m & w' & Hm & Hw' & Hpos).
        exists m, w'. split; [|done].
        rewrite list_lookup_insert_ne; [done|].
        apply lookup_lt_Some in Hu. lia.
      * apply list_lookup_singleton_Some in Hu as [Hi ->].
        replace i with (length p) by lia.
        exists m', w. split; [|done].
        apply list_lookup_insert_eq. lia.
    + intros m w' Hw'. destruct (Hbwd m w' Hw') as (j & [Hj Hfirst] & Hmj).
      exists j. split; [split|].
      * by apply lookup_app_l_Some.
      * intros j' v' Hlt Hv'. apply (Hfirst j' v' Hlt).
        rewrite lookup_app_l in Hv'; [done|]. apply lookup_lt_Some in Hj. lia.
      * unfold vec_set. rewrite HiIn, Nat2N.id.
        rewrite list_lookup_insert_ne; [done|]. apply lookup_lt_Some in Hj. lia.
    + intros Hi. apply elem_of_app in Hi as [Hi|Hi].
      * apply Hdup in Hi as (i' & j & u & w' & -> & Hlt & Hu & Hw' & Hpos).
        exists i', j, u, w'. repeat split; try done; by apply lookup_app_l_Some.
      * apply list_elem_of_singleton in Hi as ->.
        destruct (Hbwd m' w Hw) as (j & [Hj _] & _).
        exists (length p), j, w, v. rewrite HiIn. repeat split; try done.
        -- by apply lookup_lt_Some in Hj.
        -- by apply lookup_app_l_Some.
        -- by rewrite lookup_app_r, Nat.sub_diag.
    + intros (i' & j & u & w' & -> & Hlt & Hu & Hw' & Hpos).
      apply elem_of_app.
      apply lookup_app_Some in Hw' as [Hw'|[Hge Hw']].
      * left. apply Hdup. exists i', j, u, w'. repeat split; try done.
        rewrite lookup_app_l in Hu; [done|]. apply lookup_lt_Some in Hw'. lia.
      * right. apply list_lookup_singleton_Some in Hw' as [Hi _].
        apply list_elem_of_singleton. rewrite HiIn. lia.
    + unfold remove_at. rewrite remove_at_from_app. simpl.
      rewrite bool_decide_true by (apply elem_of_app; right; apply list_elem_of_singleton; lia).
      rewrite app_nil_r, <- Hrem. unfold remove_at.
      apply remove_at_from_ext. intros j Hj. rewrite elem_of_app, list_elem_of_singleton.
      split; [|by left]. intros [?|Heq]; [done|]. lia.
  - (* a new position *)
    rewrite decide_False by (rewrite Hmem; by intros [? ?]).
    simpl. repeat split.
    + rewrite HiIn, length_app. simpl. lia.
    + rewrite HiOut, length_app. simpl. lia.
    + by rewrite vec_set_length.
    + intros Hk. destruct (decide (pos v = k)) as [<-|Hne].
      * rewrite lookup_insert_eq in Hk. injection Hk as <-.
        exists (length (surv p)), v. rewrite HiOut. repeat split.
        by rewrite lookup_app_r, Nat.sub_diag.
      * rewrite lookup_insert_ne in Hk by done.
        apply Huv in Hk as (m' & w & -> & Hw & Hposw).
        exists m', w. repeat split; try done. by apply lookup_app_l_Some.
    + intros (m' & w & -> & Hw & <-).
      apply lookup_app_Some in Hw as [Hw|[Hge Hw]].
      * rewrite lookup_insert_ne.
        -- apply Huv. eauto.
        -- intros Heq. assert (is_Some (uniqueVerts st !! pos w)) as [? Hs].
           { eexists. apply Huv. eauto. }
           rewrite <- Heq in Hs. congruence.
      * apply list_lookup_singleton_Some in Hw as [Hm <-].
        rewrite lookup_insert_eq. f_equal. rewrite HiOut. lia.
    + intros i u Hu. unfold vec_set. rewrite HiIn, Nat2N.id.
      apply lookup_app_Some in Hu as [Hu|[Hge Hu]].
      * destruct (Hfwd i u Hu) as (m & w' & Hm & Hw' & Hpos).
        exists m, w'. repeat split; try done.
        -- rewrite list_lookup_insert_ne; [done|]. apply lookup_lt_Some in Hu. lia.
        -- by apply lookup_app_l_Some.
      * apply list_lookup_singleton_Some in Hu as [Hi <-].
        replace i with (length p) by lia.
        exists (length (surv p)), v. repeat split.
        -- rewrite HiOut. apply list_lookup_insert_eq. lia.
        -- by rewrite lookup_app_r, Nat.sub_diag.
    + intros m w' Hw'. apply lookup_app_Some in Hw' as [Hw'|[Hge Hw']].
      * destruct (Hbwd m w' Hw') as (j & [Hj Hfirst] & Hmj).
        exists j. split; [split|].
        -- by apply lookup_app_l_Some.
        -- intros j' v' Hlt Hv'. apply (Hfirst j' v' Hlt).
           rewrite lookup_app_l in Hv'; [done|]. apply lookup_lt_Some in Hj. lia.
        -- unfold vec_set. rewrite HiIn, Nat2N.id.
           rewrite list_lookup_insert_ne; [done|]. apply lookup_lt_Some in Hj. lia.
      * apply list_lookup_singleton_Some in Hw' as [Hm <-].
        exists (length p). split; [split|].
        -- by rewrite lookup_app_r, Nat.sub_diag.
        -- intros j' v' Hlt Hv' Heq. rewrite lookup_app_l in Hv' by done.
           destruct (Hfwd j' v' Hv') as (m1 & w1 & _ & Hw1 & Hpos1).
           assert (is_Some (uniqueVerts st !! pos v)) as [? Hs].
           { eexists. apply Huv. exists m1, w1. repeat split; [done|congruence]. }
           congruence.
        -- unfold vec_set. rewrite HiIn, Nat2N.id, HiOut.
           replace m with (length (surv p)) by lia.
           apply list_lookup_insert_eq. lia.
    + intros Hi.
      apply Hdup in Hi as (i' & j & u & w' & -> & Hlt & Hu & Hw' & Hpos).
      exists i', j, u, w'. repeat split; try done; by apply lookup_app_l_Some.
    + intros (i' & j & u & w' & -> & Hlt & Hu & Hw' & Hpos).
      apply Hdup.
      apply lookup_app_Some in Hw' as [Hw'|[Hge Hw']].
      * exists i', j, u, w'. repeat split; try done.
        rewrite lookup_app_l in Hu; [done|]. apply lookup_lt_Some in Hw'. lia.
      * apply list_lookup_singleton_Some in Hw' as [Hi <-]. exfalso.
        rewrite lookup_app_l in Hu by lia.
        destruct (Hfwd j u Hu) as (m1 & w1 & _ & Hw1 & Hpos1).
        assert (is_Some (uniqueVerts st !! pos v)) as [? Hs].
        { eexists. apply Huv. exists m1, w1. repeat split; [done|congruence]. }
        congruence.
    + unfold remove_at. rewrite remove_at_from_app. simpl.
      rewrite bool_decide_false.
      * f_equal. apply Hrem.
      * intros Hi. apply Hdup in Hi as (i' & j & u & w' & Heq & Hlt & Hu & Hw' & Hpos).
        apply lookup_lt_Some in Hw'. lia.
Qed.

Lemma find_inv_fold n p q (st : @FindState T _ _) :
  (length p + length q ≤ n)%nat →
  find_inv n p st → find_inv n (p ++ q) (fold_left step q st).
Proof.
  revert p st. induction q as [|v q IH]; intros p st Hlen Hinv; simpl.
  - by rewrite app_nil_r.
  - replace (p ++ v :: q) with ((p ++ [v]) ++ q) by (by rewrite <- app_assoc).
    simpl in Hlen. apply IH.
    + rewrite length_app. simpl. lia.
    + apply find_inv_step; [lia|done].
Qed.

Lemma FindDuplicates_inv vs :
  find_inv (length vs) vs
    (fold_left step vs (FindDuplicates_init (length vs))).
Proof.
  apply (find_inv_fold (length vs) [] vs); [simpl; lia|apply find_inv_init].
Qed.
End DuplicatesProofs.

(** C6. [FindDuplicates] returns a mapping with one entry per input vertex
    and the indices of the duplicates: an index is reported as a duplicate
    exactly when an earlier vertex has the same x and y; every index is
    mapped to the position, in the vector left by the removal of the
    duplicates, of the first vertex with its coordinates. On
    [(0,0),(1,0),(0,0),(0,1)] the duplicates are [2] and the mapping is
    [0,1,0,2]. *)
Theorem FindDuplicates_mapping_and_duplicates :
  (∀ (T : Type) (EqT : EqDecision T) (CT : Countable T) (TVertex : Type)
     (getX getY : TVertex → T) (vs : list TVertex),
     let di := FindDuplicates getX getY vs in
     length (mapping di) = length vs
     ∧ (∀ i : N, i ∈ duplicates di
          ↔ ∃ j v w, j < i ∧ vec_at vs j = Some v ∧ vec_at vs i = Some w
                     ∧ position getX getY v = position getX getY w)
     ∧ (∀ (i : N) (v : TVertex), vec_at vs i = Some v →
          ∃ (m j : N) (w : TVertex),
            vec_at (mapping di) i = Some m
            ∧ vec_at (mapping di) j = Some m
            ∧ j ≤ i
            ∧ first_occurrence getX getY vs (N.to_nat j) w
            ∧ position getX getY w = position getX getY v
            ∧ vec_at (RemoveDuplicates vs (duplicates di)) m = Some w))
  ∧ FindDuplicates getX_V2d getY_V2d [(0,0); (1,0); (0,0); (0,1)]%Z
    = {| mapping := [0; 1; 0; 2]; duplicates := [2] |}.
Proof.
  split; [|vm_compute; reflexivity].
  intros T EqT CT TVertex getX getY vs di.
  destruct (FindDuplicates_inv getX getY vs)
    as (_ & _ & Hlen & _ & Hfwd & Hbwd & Hdup & Hrem).
  fold (FindDuplicates getX getY vs) in Hlen, Hfwd, Hbwd, Hdup, Hrem.
  fold di in Hlen, Hfwd, Hbwd, Hdup, Hrem.
  split; [exact Hlen|]. split.
  - intros i. rewrite Hdup. unfold vec_at. split.
    + intros (i' & j & v & w & -> & Hlt & Hv & Hw & Hpos).
      exists (N.of_nat j), v, w. rewrite !Nat2N.id. repeat split; try done. lia.
    + intros (j & v & w & Hlt & Hv & Hw & Hpos).
      exists (N.to_nat i), (N.to_nat j), v, w. repeat split; try done; lia.
  - intros i v Hv. unfold vec_at in *.
    destruct (Hfwd _ _ Hv) as (m & w & Hm & Hw & Hpos).
    destruct (Hbwd _ _ Hw) as (j & [Hj Hfirst] & Hmj).
    exists (N.of_nat m), (N.of_nat j), w. rewrite !Nat2N.id.
    repeat split; try done.
    + destruct (decide (j ≤ N.to_nat i)%nat) as [Hle|Hgt]; [lia|].
      exfalso. apply (Hfirst (N.to_nat i) v); [lia|done|done].
    + unfold RemoveDuplicates. by rewrite Hrem.
Qed.

(** C7. [RemoveDuplicatesAndRemapEdges] leaves the same vertices and edges
    and returns the same [DuplicatesInfo] as the chain of [FindDuplicates],
    [RemoveDuplicates] and [RemapEdges]; the removal keeps the survivors in
    their order, and the remapping sends both end points of every edge
    through the mapping. *)
Theorem RemoveDuplicatesAndRemapEdges_is_chain :
  (∀ (T : Type) (EqT : EqDecision T) (CT : Countable T) (TVertex : Type)
     (getX getY : TVertex → T) (vertices : list TVertex) (edges : list Edge),
     RemoveDuplicatesAndRemapEdges getX getY vertices edges
     = chained_Find_Remove_Remap getX getY vertices edges
     ∧ RemoveDuplicates vertices (duplicates (FindDuplicates getX getY vertices))
       = survivors getX getY vertices
     ∧ ∀ edges', RemapEdges edges (mapping (FindDuplicates getX getY vertices)) = Done edges' →
         length edges' = length edges
         ∧ ∀ (k : nat) e, edges !! k = Some e →
             ∃ a b, vec_at (mapping (FindDuplicates getX getY vertices)) (v1 e) = Some a
                    ∧ vec_at (mapping (FindDuplicates getX getY vertices)) (v2 e) = Some b
                    ∧ edges' !! k = Some (mkEdge a b))
  ∧ (∀ (T : Type) (EqT : EqDecision T) (CT : Countable T)
       (vertices : list (T * T)) (edges : list Edge),
       RemoveDuplicatesAndRemapEdges_V2d vertices edges
       = chained_Find_Remove_Remap getX_V2d getY_V2d vertices edges)
  ∧ RemoveDuplicatesAndRemapEdges_V2d
      [(0,0); (1,0); (0,0); (0,1)]%Z [mkEdge 0 3; mkEdge 2 1]
    = Done ([(0,0); (1,0); (0,1)]%Z, [mkEdge 0 2; mkEdge 0 1],
            {| mapping := [0; 1; 0; 2]; duplicates := [2] |}).
Proof.
  assert (Hchain : ∀ (T : Type) (EqT : EqDecision T) (CT : Countable T)
     (TVertex : Type) (getX getY : TVertex → T) vertices edges,
     RemoveDuplicatesAndRemapEdges getX getY vertices edges
     = chained_Find_Remove_Remap getX getY vertices edges).
  { intros. unfold RemoveDuplicatesAndRemapEdges, chained_Find_Remove_Remap.
    by destruct (RemapEdges _ _). }
  split; [|split; [|vm_compute; reflexivity]].
  - intros T EqT CT TVertex getX getY vertices edges. split; [apply Hchain|]. split.
    + destruct (FindDuplicates_inv getX getY vertices) as (_ & _ & _ & _ & _ & _ & _ & Hrem).
      exact Hrem.
    + generalize (mapping (FindDuplicates getX getY vertices)). intros mp.
      induction edges as [|e edges IH]; intros edges' Hre; simpl in Hre.
      * injection Hre as <-. split; [done|]. intros k e He. by rewrite lookup_nil in He.
      * unfold vec_read in Hre.
        destruct (vec_at mp (v1 e)) as [a|] eqn:Ha; [|done].
        destruct (vec_at mp (v2 e)) as [b|] eqn:Hb; [|done].
        simpl in Hre. destruct (RemapEdges edges mp) as [rest| |] eqn:Hrest; [|done..].
        simpl in Hre. injection Hre as <-.
        destruct (IH rest eq_refl) as [Hlen Hall]. split; [simpl; by rewrite Hlen|].
        intros [|k] e' He'; simpl in He'.
        -- injection He' as <-. exists a, b. by rewrite Ha, Hb.
        -- apply (Hall k e' He').
  - intros. apply Hchain.
Qed.

(** ** Batch insertion of constraint edges *)

Section InsertEdgesProofs.
Context `{CDTUtils} {Tri TEdge : Type}.
Variables (insertEdge : Edge → Tri → Tri) (eraseDummies : Tri → Tri).
Variable m_nTargetVerts : Tri → N.
Variables (getStart getEnd : TEdge → VertInd).

Local Abbreviation insertEdge' := (logged_insertEdge insertEdge).
Local Abbreviation nTargetVerts' := (logged_nTargetVerts (Tri := Tri) m_nTargetVerts).

Hypothesis insertEdge_nTargetVerts :
  ∀ e tr, m_nTargetVerts (insertEdge e tr) = m_nTargetVerts tr.

Lemma insertEdges_fold_logged (range : list TEdge) (tr : Tri) (log : list Call) :
  fold_left
    (λ s e, insertEdge' (offset_edge nTargetVerts' getStart getEnd s e) s)
    range (tr, log)
  = (fold_left
       (λ tr e, insertEdge (offset_edge m_nTargetVerts getStart getEnd tr e) tr)
       range tr,
     log ++ map (λ e, CallInsertEdge
                        (mkEdge (VertInd_of (getStart e + m_nTargetVerts tr))
                                (VertInd_of (getEnd e + m_nTargetVerts tr))))
                range).
Proof.
  revert tr log. induction range as [|e range IH]; intros tr log; simpl.
  - by rewrite app_nil_r.
  - unfold logged_insertEdge at 2. simpl. rewrite IH.
    rewrite insertEdge_nTargetVerts, <- app_assoc. reflexivity.
Qed.
End InsertEdgesProofs.

(** C8. [insertEdges] calls [insertEdge] once per edge of the range, in
    order, on the edge whose two end points are the user's indices plus
    [m_nTargetVerts], and then calls [eraseDummies], once, after all the
    insertions. [insertEdge] is any function that leaves [m_nTargetVerts]
    as it is; the sum is converted to [VertInd], which changes nothing
    when it is at most [VertInd_max]. *)
Theorem insertEdges_offsets_then_eraseDummies_once
    `{CDTUtils} {Tri TEdge : Type}
    (insertEdge : Edge → Tri → Tri) (eraseDummies : Tri → Tri)
    (m_nTargetVerts : Tri → N) (getStart getEnd : TEdge → VertInd)
    (range : list TEdge) (tr : Tri) :
  (∀ e tr, m_nTargetVerts (insertEdge e tr) = m_nTargetVerts tr) →
  let calls :=
    (insertEdges (logged_insertEdge insertEdge) (logged_eraseDummies eraseDummies)
       (logged_nTargetVerts m_nTargetVerts) getStart getEnd range (tr, [])).2 in
  calls
  = map (λ e, CallInsertEdge
                (mkEdge (VertInd_of (getStart e + m_nTargetVerts tr))
                        (VertInd_of (getEnd e + m_nTargetVerts tr))))
        range
    ++ [CallEraseDummies]
  ∧ count_eraseDummies calls = 1%nat
  ∧ (insertEdges (logged_insertEdge insertEdge) (logged_eraseDummies eraseDummies)
       (logged_nTargetVerts m_nTargetVerts) getStart getEnd range (tr, [])).1
    = insertEdges insertEdge eraseDummies m_nTargetVerts getStart getEnd range tr
  ∧ (∀ e, e ∈ range →
       getStart e + m_nTargetVerts tr ≤ VertInd_max →
       getEnd e + m_nTargetVerts tr ≤ VertInd_max →
       mkEdge (VertInd_of (getStart e + m_nTargetVerts tr))
              (VertInd_of (getEnd e + m_nTargetVerts tr))
       = mkEdge (getStart e + m_nTargetVerts tr) (getEnd e + m_nTargetVerts tr)).
Proof.
  intros Hpres calls. subst calls. unfold insertEdges.
  rewrite (insertEdges_fold_logged insertEdge m_nTargetVerts getStart getEnd Hpres).
  unfold logged_eraseDummies. simpl. repeat split.
  - unfold count_eraseDummies. rewrite list.filter_app, length_app.
    rewrite (list.filter_cons _ CallEraseDummies), decide_True by done.
    assert (Hnone : ∀ l : list TEdge,
      filter (λ c, c = CallEraseDummies)
        (map (λ e, CallInsertEdge
                (mkEdge (VertInd_of (getStart e + m_nTargetVerts tr))
                        (VertInd_of (getEnd e + m_nTargetVerts tr)))) l) = []).
    { induction l as [|e l IH]; [done|]. rewrite map_cons, list.filter_cons.
      rewrite decide_False by done. exact IH. }
    by rewrite Hnone.
  - intros e _ Hs He. unfold VertInd_of.
    rewrite !N.mod_small by lia. reflexivity.
Qed.

(** The edge range [(0,3), (2,1)] on a triangulation with three
    super-triangle vertices, [insertEdge] recording the fixed edge. *)
Lemma insertEdges_offsets_then_eraseDummies_once_witness :
  (insertEdges (H := spec_utils)
     (logged_insertEdge (λ (e : Edge) (tr : list Edge), e :: tr))
     (logged_eraseDummies (λ tr : list Edge, tr))
     (logged_nTargetVerts (λ _ : list Edge, 3)) fst snd
     [(0, 3); (2, 1)] ([], [])).2
  = [CallInsertEdge (3, 6); CallInsertEdge (4, 5); CallEraseDummies].
Proof.
  exact (proj1 (insertEdges_offsets_then_eraseDummies_once (H := spec_utils)
    (λ (e : Edge) (tr : list Edge), e :: tr) (λ tr, tr) (λ _, 3) fst snd
    [(0, 3); (2, 1)] [] (λ e tr, eq_refl))).
Defined.

(** ** Depth peeling: one iteration *)

Section PeelStep.
Context `{CDTUtils}.
Variables (triangles : list Triangle) (fixedEdges : gset Edge).
Variable overlapCount : gmap Edge N.

Local Abbreviation act := (visit_action fixedEdges).
Local Abbreviation pushed := (pushed fixedEdges).
Local Abbreviation pushed_by := (pushed_by fixedEdges).
Local Abbreviation recorded := (recorded fixedEdges).
Local Abbreviation recorded_by := (recorded_by fixedEdges).
Local Abbreviation faultless := (faultless fixedEdges).

Lemma PeelLayer_visit_action L d t st i :
  PeelLayer_visit fixedEdges L d t st i
  = match act L d t i with
    | Skip => Done st
    | Record => Done (st.1, st.2 ∪ {[opNeighbor t i]})
    | Push => Done (opNeighbor t i :: st.1, st.2)
    | Fault => Undefined
    end.
Proof.
  unfold PeelLayer_visit, visit_action, vec_read.
  destruct (decide (opNeighbor t i = noNeighbor)); [done|].
  destruct (vec_at d (opNeighbor t i)) as [v|]; [|done]. simpl.
  destruct (v <=? L); [done|].
  by destruct (decide (opEdge t i ∈ fixedEdges)).
Qed.

Lemma PeelLayer_ov_visit_action L d t st i :
  PeelLayer_ov_visit fixedEdges overlapCount L d t st i
  = match act L d t i with
    | Skip => Done st
    | Record => Done (st.1, <[opNeighbor t i := behind_depth overlapCount L (opEdge t i)]> st.2)
    | Push => Done (opNeighbor t i :: st.1, st.2)
    | Fault => Undefined
    end.
Proof.
  unfold PeelLayer_ov_visit, visit_action, vec_read.
  destruct (decide (opNeighbor t i = noNeighbor)); [done|].
  destruct (vec_at d (opNeighbor t i)) as [v|]; [|done]. simpl.
  destruct (v <=? L); [done|].
  by destruct (decide (opEdge t i ∈ fixedEdges)).
Qed.

Lemma act_Skip L d t i :
  act L d t i = Skip
  ↔ opNeighbor t i = noNeighbor
    ∨ ∃ v, vec_at d (opNeighbor t i) = Some v ∧ v ≤ L.
Proof.
  unfold visit_action.
  destruct (decide (opNeighbor t i = noNeighbor)) as [Hno|Hno]; [by split; [left|]|].
  destruct (vec_at d (opNeighbor t i)) as [v|].
  - destruct (N.leb_spec v L).
    + split; [right; eauto|done].
    + split.
      * by destruct (decide (opEdge t i ∈ fixedEdges)).
      * intros [?|(v' & [= <-] & ?)]; [done|lia].
  - split; [done|]. by intros [?|(v' & ? & _)].
Qed.

Lemma act_Record L d t i :
  act L d t i = Record
  ↔ opNeighbor t i ≠ noNeighbor ∧ opEdge t i ∈ fixedEdges
    ∧ exceeds d L (opNeighbor t i).
Proof.
  unfold visit_action, exceeds.
  destruct (decide (opNeighbor t i = noNeighbor)) as [Hno|Hno]; [by split; [|intros [? _]]|].
  destruct (vec_at d (opNeighbor t i)) as [v|].
  - destruct (N.leb_spec v L).
    + split; [done|]. intros (_ & _ & v' & [= <-] & ?). lia.
    + destruct (decide (opEdge t i ∈ fixedEdges)).
      * split; [|done]. intros _. repeat split; try done. eauto.
      * split; [done|]. by intros (_ & ? & _).
  - split; [done|]. by intros (_ & _ & v' & ? & _).
Qed.

Lemma act_Push L d t i :
  act L d t i = Push
  ↔ opNeighbor t i ≠ noNeighbor ∧ (opEdge t i ∉ fixedEdges)
    ∧ exceeds d L (opNeighbor t i).
Proof.
  unfold visit_action, exceeds.
  destruct (decide (opNeighbor t i = noNeighbor)) as [Hno|Hno]; [by split; [|intros [? _]]|].
  destruct (vec_at d (opNeighbor t i)) as [v|].
  - destruct (N.leb_spec v L).
    + split; [done|]. intros (_ & _ & v' & [= <-] & ?). lia.
    + destruct (decide (opEdge t i ∈ fixedEdges)).
      * split; [done|]. by intros (_ & ? & _).
      * split; [|done]. intros _. repeat split; try done. eauto.
  - split; [done|]. by intros (_ & _ & v' & ? & _).
Qed.

Lemma act_Fault L d t i :
  act L d t i = Fault
  ↔ opNeighbor t i ≠ noNeighbor ∧ vec_size d ≤ opNeighbor t i.
Proof.
  rewrite <- vec_at_None. unfold visit_action.
  destruct (decide (opNeighbor t i = noNeighbor)) as [Hno|Hno]; [by split; [|intros [? _]]|].
  destruct (vec_at d (opNeighbor t i)) as [v|].
  - destruct (v <=? L); [by split; [|intros [_ ?]]|].
    by destruct (decide (opEdge t i ∈ fixedEdges)); (split; [|intros [_ ?]]).
  - done.
Qed.







Lemma PeelLayer_pop_Done L iT s d bb :
  iT < vec_size d →
  ∀ t, vec_at triangles iT = Some t →
  faultless L (vec_set d iT L) t →
  PeelLayer_pop triangles fixedEdges L iT s d bb
  = Done (pushed L (vec_set d iT L) t ++ s, vec_set d iT L,
          (bb ∖ {[iT]}) ∪ recorded L (vec_set d iT L) t).
Proof.
  intros Hlt t Ht Hok. unfold PeelLayer_pop, vec_write, vec_read.
  rewrite decide_True by done. simpl. rewrite Ht. simpl.
  rewrite !PeelLayer_visit_action.
  pose proof (Hok I0) as H0. pose proof (Hok I1) as H1. pose proof (Hok I2) as H2.
  unfold pushed, pushed_by, recorded, recorded_by.
  destruct (act L (vec_set d iT L) t I0); try done; simpl;
    rewrite !PeelLayer_visit_action;
    destruct (act L (vec_set d iT L) t I1); try done; simpl;
    rewrite !PeelLayer_visit_action;
    destruct (act L (vec_set d iT L) t I2); try done; simpl;
    do 2 f_equal; set_solver.
Qed.

Lemma PeelLayer_pop_Undefined L iT s d bb :
  ¬ (iT < vec_size d
     ∧ ∃ t, vec_at triangles iT = Some t ∧ faultless L (vec_set d iT L) t) →
  PeelLayer_pop triangles fixedEdges L iT s d bb = Undefined.
Proof.
  intros Hbad. unfold PeelLayer_pop, vec_write, vec_read.
  destruct (decide (iT < vec_size d)) as [Hlt|]; [|done]. simpl.
  destruct (vec_at triangles iT) as [t|] eqn:Ht; [|done]. simpl.
  rewrite !PeelLayer_visit_action.
  destruct (act L (vec_set d iT L) t I0) eqn:H0; simpl; try done;
    rewrite !PeelLayer_visit_action;
    destruct (act L (vec_set d iT L) t I1) eqn:H1; simpl; try done;
    rewrite !PeelLayer_visit_action;
    destruct (act L (vec_set d iT L) t I2) eqn:H2; simpl; try done;
    exfalso; apply Hbad; (split; [done|]); exists t; (split; [done|]);
    intros []; congruence.
Qed.

Lemma PeelLayer_pop_cases L iT s d bb :
  (∃ t, iT < vec_size d ∧ vec_at triangles iT = Some t
        ∧ faultless L (vec_set d iT L) t
        ∧ PeelLayer_pop triangles fixedEdges L iT s d bb
          = Done (pushed L (vec_set d iT L) t ++ s, vec_set d iT L,
                  (bb ∖ {[iT]}) ∪ recorded L (vec_set d iT L) t))
  ∨ (PeelLayer_pop triangles fixedEdges L iT s d bb = Undefined
     ∧ ¬ (iT < vec_size d
          ∧ ∃ t, vec_at triangles iT = Some t ∧ faultless L (vec_set d iT L) t)).
Proof.
  assert (Hdec : (∃ t, vec_at triangles iT = Some t) ∨ vec_at triangles iT = None)
    by (destruct (vec_at triangles iT); eauto).
  destruct (decide (iT < vec_size d)) as [Hlt|Hge].
  - destruct Hdec as [[t Ht]|Hnone].
    + destruct (decide (faultless L (vec_set d iT L) t)) as [Hok|Hf].
      * left. exists t. repeat split; try done. by apply PeelLayer_pop_Done.
      * right. assert (Hbad : ¬ (iT < vec_size d
          ∧ ∃ t, vec_at triangles iT = Some t ∧ faultless L (vec_set d iT L) t)).
        { intros (_ & t' & Ht' & Hok). simplify_eq. by apply Hf. }
        split; [|exact Hbad]. apply PeelLayer_pop_Undefined, Hbad.
    + right. assert (Hbad : ¬ (iT < vec_size d
          ∧ ∃ t, vec_at triangles iT = Some t ∧ faultless L (vec_set d iT L) t)).
      { intros (_ & t' & Ht' & _). congruence. }
      split; [|exact Hbad]. apply PeelLayer_pop_Undefined, Hbad.
  - right. assert (Hbad : ¬ (iT < vec_size d
          ∧ ∃ t, vec_at triangles iT = Some t ∧ faultless L (vec_set d iT L) t)).
    { by intros (? & _). }
    split; [|exact Hbad]. apply PeelLayer_pop_Undefined, Hbad.
Qed.
End PeelStep.

Section PeelStepFacts.
Context `{CDTUtils}.
Variables (triangles : list Triangle) (fixedEdges : gset Edge).

Local Abbreviation act := (visit_action fixedEdges).

Lemma elem_of_pushed L d t x :
  x ∈ pushed fixedEdges L d t ↔ ∃ i, act L d t i = Push ∧ x = opNeighbor t i.
Proof.
  unfold pushed, pushed_by. rewrite !elem_of_app. split.
  - intros [Hx|[Hx|Hx]];
      [exists I2|exists I1|exists I0];
      destruct (act L d t _); try (by apply elem_of_nil in Hx);
      by apply list_elem_of_singleton in Hx.
  - intros ([] & Hact & ->); rewrite Hact;
      [right; right|right; left|left]; by apply list_elem_of_singleton.
Qed.

Lemma elem_of_recorded L d t x :
  x ∈ recorded fixedEdges L d t ↔ ∃ i, act L d t i = Record ∧ x = opNeighbor t i.
Proof.
  unfold recorded, recorded_by. rewrite !elem_of_union. split.
  - intros [[Hx|Hx]|Hx];
      [exists I0|exists I1|exists I2];
      destruct (act L d t _); try (by apply not_elem_of_empty in Hx);
      by apply elem_of_singleton in Hx.
  - intros ([] & Hact & ->); rewrite Hact;
      [left; left|left; right|right]; by apply elem_of_singleton.
Qed.

Lemma length_pushed L d t : (length (pushed fixedEdges L d t) ≤ 3)%nat.
Proof.
  unfold pushed, pushed_by. rewrite !length_app.
  destruct (act L d t I0), (act L d t I1), (act L d t I2); simpl; lia.
Qed.

Lemma head_pushed L d t x rest :
  pushed fixedEdges L d t = x :: rest → exceeds d L x.
Proof.
  intros Heq.
  assert (Hx : x ∈ pushed fixedEdges L d t) by (rewrite Heq; left).
  apply elem_of_pushed in Hx as (i & Hact & ->).
  by apply act_Push in Hact as (_ & _ & ?).
Qed.
End PeelStepFacts.

(** ** Depth peeling: the layer computed by [PeelLayer] *)

Section PeelLoop.
Context `{CDTUtils}.
Variables (triangles : list Triangle) (fixedEdges : gset Edge).
(** the layer, and the depths and seeds the call starts from *)
Variables (L : LayerDepth) (d0 : list N) (seeds0 : list N).

Local Abbreviation act := (visit_action fixedEdges).
Local Abbreviation peeled0 := (peeled triangles fixedEdges d0 L seeds0).
Local Abbreviation free0 := (free_step triangles fixedEdges d0 L).
Local Abbreviation fixed0 := (fixed_step triangles fixedEdges d0 L).
Local Abbreviation peel_inv := (peel_inv triangles fixedEdges L d0 seeds0).
Local Abbreviation pi_length := (pi_length triangles fixedEdges L d0 seeds0).
Local Abbreviation pi_in := (pi_in triangles fixedEdges L d0 seeds0).
Local Abbreviation pi_out := (pi_out triangles fixedEdges L d0 seeds0).
Local Abbreviation pi_popped := (pi_popped triangles fixedEdges L d0 seeds0).
Local Abbreviation pi_stack := (pi_stack triangles fixedEdges L d0 seeds0).
Local Abbreviation pi_closed := (pi_closed triangles fixedEdges L d0 seeds0).
Local Abbreviation pi_seeds := (pi_seeds triangles fixedEdges L d0 seeds0).
Local Abbreviation pi_behind := (pi_behind triangles fixedEdges L d0 seeds0).
Local Abbreviation pi_usable := (pi_usable triangles fixedEdges L d0 seeds0).


Lemma peel_inv_init : peel_inv seeds0 d0 ∅ ∅.
Proof.
  split; try done.
  - intros t Ht. by apply peeled_seed.
  - intros t Ht. by right.
  - intros n. split; [done|]. by intros (_ & t & ? & _).
Qed.

Lemma exceeds_current s d bb X n :
  peel_inv s d bb X →
  exceeds d L n ↔ (n ∉ X) ∧ exceeds d0 L n.
Proof.
  intros Hinv. unfold exceeds. destruct (decide (n ∈ X)) as [Hin|Hout].
  - rewrite (pi_in _ _ _ _ Hinv n Hin). split.
    + intros (v & [= <-] & ?). lia.
    + by intros [? _].
  - rewrite (pi_out _ _ _ _ Hinv n Hout). split; [by split|by intros [_ ?]].
Qed.

(** The invariant after the assignment [triDepths[iT] = layerDepth]. *)
Lemma peel_inv_write iT s d bb X :
  peel_inv (iT :: s) d bb X → iT < vec_size d →
  (∀ t, t ∈ X ∪ {[iT]} → vec_at (vec_set d iT L) t = Some L)
  ∧ (∀ t, t ∉ X ∪ {[iT]} → vec_at (vec_set d iT L) t = vec_at d0 t)
  ∧ (∀ n, exceeds (vec_set d iT L) L n ↔ (n ∉ X ∪ {[iT]}) ∧ exceeds d0 L n).
Proof.
  intros Hinv Hlt.
  assert (Hin : ∀ t, t ∈ X ∪ {[iT]} → vec_at (vec_set d iT L) t = Some L).
  { intros t Ht. destruct (decide (t = iT)) as [->|Hne].
    - by apply vec_at_set_eq.
    - rewrite vec_at_set_ne by done. apply (pi_in _ _ _ _ Hinv). set_solver. }
  assert (Hout : ∀ t, t ∉ X ∪ {[iT]} → vec_at (vec_set d iT L) t = vec_at d0 t).
  { intros t Ht. rewrite vec_at_set_ne by set_solver.
    apply (pi_out _ _ _ _ Hinv). set_solver. }
  split; [exact Hin|]. split; [exact Hout|].
  intros n. split.
  - intros (v & Hv & Hlv). destruct (decide (n ∈ X ∪ {[iT]})) as [Hn|Hn].
    + rewrite (Hin n Hn) in Hv. injection Hv as <-. lia.
    + split; [done|]. rewrite (Hout n Hn) in Hv. by exists v.
  - intros [Hn (v & Hv & Hlv)]. exists v. by rewrite (Hout n Hn).
Qed.

Lemma peel_inv_pop iT s d bb X t :
  peel_inv (iT :: s) d bb X →
  iT < vec_size d → vec_at triangles iT = Some t →
  faultless fixedEdges L (vec_set d iT L) t →
  peel_inv (pushed fixedEdges L (vec_set d iT L) t ++ s) (vec_set d iT L)
    ((bb ∖ {[iT]}) ∪ recorded fixedEdges L (vec_set d iT L) t) (X ∪ {[iT]}).
Proof.
  intros Hinv Hlt Ht Hok.
  destruct (peel_inv_write iT s d bb X Hinv Hlt) as (Hin & Hout & Hex).
  assert (HiT : peeled0 iT) by (apply (pi_stack _ _ _ _ Hinv); left).
  assert (Hpush : ∀ n, n ∈ pushed fixedEdges L (vec_set d iT L) t
                       ↔ (n ∉ X ∪ {[iT]}) ∧ free0 iT n).
  { intros n. rewrite elem_of_pushed. split.
    - intros (i & Hact & ->). apply act_Push in Hact as (Hno & Hfree & Hexc).
      apply Hex in Hexc as [Hn Hexc]. split; [done|].
      exists i, (opEdge t i). repeat split; try done. by exists t.
    - intros [Hn (i & e & (t' & Ht' & <- & <- & Hno) & Hfree & Hexc)].
      simplify_eq. exists i. split; [|done].
      apply act_Push. repeat split; try done. by apply Hex. }
  assert (Hrec : ∀ n, n ∈ recorded fixedEdges L (vec_set d iT L) t
                      ↔ (n ∉ X ∪ {[iT]}) ∧ fixed0 iT n).
  { intros n. rewrite elem_of_recorded. split.
    - intros (i & Hact & ->). apply act_Record in Hact as (Hno & Hfix & Hexc).
      apply Hex in Hexc as [Hn Hexc]. split; [done|].
      exists i, (opEdge t i). repeat split; try done. by exists t.
    - intros [Hn (i & e & (t' & Ht' & <- & <- & Hno) & Hfix & Hexc)].
      simplify_eq. exists i. split; [|done].
      apply act_Record. repeat split; try done. by apply Hex. }
  split.
  - rewrite vec_set_length. apply (pi_length _ _ _ _ Hinv).
  - exact Hin.
  - exact Hout.
  - intros t' Ht'. apply elem_of_union in Ht' as [Ht'|Ht'].
    + by apply (pi_popped _ _ _ _ Hinv).
    + apply elem_of_singleton in Ht' as ->. exact HiT.
  - intros n Hn. apply elem_of_app in Hn as [Hn|Hn].
    + apply Hpush in Hn as [_ Hfree]. by eapply peeled_step.
    + apply (pi_stack _ _ _ _ Hinv). by right.
  - intros t' n Ht' Hfree. destruct (decide (n ∈ X ∪ {[iT]})) as [|Hn]; [by left|].
    right. apply elem_of_app. apply elem_of_union in Ht' as [Ht'|Ht'].
    + destruct (pi_closed _ _ _ _ Hinv t' n Ht' Hfree) as [?|Hs]; [set_solver|].
      apply elem_of_cons in Hs as [->|Hs]; [set_solver|by right].
    + apply elem_of_singleton in Ht' as ->. left. by apply Hpush.
  - intros t' Ht'. destruct (pi_seeds _ _ _ _ Hinv t' Ht') as [?|Hs]; [left; set_solver|].
    apply elem_of_cons in Hs as [->|Hs]; [left; set_solver|].
    right. apply elem_of_app. by right.
  - intros n. rewrite elem_of_union, elem_of_difference, Hrec,
      (pi_behind _ _ _ _ Hinv n). split.
    + intros [[[Hn (t' & Ht' & Hfix)] HnT]|[Hn Hfix]].
      * split; [set_solver|]. exists t'. split; [set_solver|done].
      * split; [done|]. exists iT. split; [set_solver|done].
    + intros [Hn (t' & Ht' & Hfix)]. apply elem_of_union in Ht' as [Ht'|Ht'].
      * left. split; [|set_solver]. split; [set_solver|]. by exists t'.
      * apply elem_of_singleton in Ht' as ->. by right.
  - intros t' Ht'. apply elem_of_union in Ht' as [Ht'|Ht'].
    + by apply (pi_usable _ _ _ _ Hinv).
    + apply elem_of_singleton in Ht' as ->. split.
      * unfold vec_size in *. by rewrite <- (pi_length _ _ _ _ Hinv).
      * exists t. split; [done|]. intros i.
        destruct (decide (opNeighbor t i = noNeighbor)) as [|Hno]; [by left|].
        right. pose proof (Hok i) as Hi. rewrite act_Fault in Hi.
        rewrite vec_size_set in Hi. unfold vec_size in *.
        rewrite <- (pi_length _ _ _ _ Hinv).
        destruct (decide (N.of_nat (length d) ≤ opNeighbor t i)); [|lia].
        exfalso. by apply Hi.
Qed.

(** When the loop returns, the triangles popped are those of the layer. *)
Lemma peel_inv_final d bb X :
  peel_inv [] d bb X → ∀ t, peeled0 t ↔ t ∈ X.
Proof.
  intros Hinv t. split; [|apply (pi_popped _ _ _ _ Hinv)].
  induction 1 as [t Ht|t n _ IH Hfree].
  - destruct (pi_seeds _ _ _ _ Hinv t Ht) as [?|Hs]; [done|].
    by apply elem_of_nil in Hs.
  - destruct (pi_closed _ _ _ _ Hinv t n IH Hfree) as [?|Hs]; [done|].
    by apply elem_of_nil in Hs.
Qed.

Lemma PeelLayer_loop_inv fuel s d bb X bb' d' :
  peel_inv s d bb X →
  PeelLayer_loop triangles fixedEdges fuel L s d bb = Done (bb', d') →
  ∃ X', peel_inv [] d' bb' X'.
Proof.
  revert s d bb X. induction fuel as [|fuel IH]; intros s d bb X Hinv Hrun.
  - destruct s as [|iT s]; simpl in Hrun; [|done].
    injection Hrun as <- <-. by exists X.
  - destruct s as [|iT s]; simpl in Hrun.
    + injection Hrun as <- <-. by exists X.
    + destruct (PeelLayer_pop_cases triangles fixedEdges L iT s d bb)
        as [(t & Hlt & Ht & Hok & Hpop)|[Hpop _]];
        rewrite Hpop in Hrun; [|done].
      simpl in Hrun. eapply IH; [|exact Hrun].
      by apply peel_inv_pop.
Qed.

(** The loop indexes out of range only on a triangle of the layer that
    is not usable. *)
Lemma PeelLayer_loop_defined fuel s d bb X :
  (∀ t, peeled0 t → usable triangles d0 t) →
  peel_inv s d bb X →
  PeelLayer_loop triangles fixedEdges fuel L s d bb ≠ Undefined.
Proof.
  intros Huse. revert s d bb X.
  induction fuel as [|fuel IH]; intros s d bb X Hinv.
  - by destruct s.
  - destruct s as [|iT s]; simpl; [done|].
    destruct (PeelLayer_pop_cases triangles fixedEdges L iT s d bb)
      as [(t & Hlt & Ht & Hok & Hpop)|[Hpop Hbad]]; rewrite Hpop; simpl.
    + eapply IH. by apply peel_inv_pop.
    + exfalso. apply Hbad.
      assert (HiT : peeled0 iT) by (apply (pi_stack _ _ _ _ Hinv); left).
      destruct (Huse iT HiT) as (Hlt & t & Ht & Hnb).
      assert (Hlen : vec_size d = vec_size d0)
        by (unfold vec_size; by rewrite (pi_length _ _ _ _ Hinv)).
      split; [by rewrite Hlen|]. exists t. split; [done|].
      intros i. rewrite act_Fault, vec_size_set, Hlen.
      intros [Hno Hge]. destruct (Hnb i); [done|lia].
Qed.
End PeelLoop.

(** ** Depth peeling: the loop of [PeelLayer] ends *)


Lemma count_above_cons L v d :
  count_above L (v :: d)
  = if decide (L < v) then S (count_above L d) else count_above L d.
Proof.
  unfold count_above. rewrite list.filter_cons. by destruct (decide (L < v)).
Qed.

Lemma count_above_length L d : (count_above L d ≤ length d)%nat.
Proof. apply list.length_filter. Qed.

Lemma count_above_insert L d (i : nat) v :
  d !! i = Some v →
  if decide (L < v)
  then count_above L d = S (count_above L (<[i:=L]> d))
  else count_above L (<[i:=L]> d) = count_above L d.
Proof.
  revert i. induction d as [|x d IH]; intros [|i] Hv; simpl in Hv; try done.
  - injection Hv as ->. simpl. rewrite !count_above_cons.
    rewrite (decide_False (P := L < L)) by lia.
    by destruct (decide (L < v)).
  - simpl. rewrite !count_above_cons. specialize (IH i Hv).
    destruct (decide (L < v)), (decide (L < x)); lia.
Qed.

(** Raising the layer can only lower the count. *)
Lemma count_above_mono L L' d : L ≤ L' → (count_above L' d ≤ count_above L d)%nat.
Proof.
  intros Hle. induction d as [|x d IH]; [done|].
  rewrite !count_above_cons.
  destruct (decide (L' < x)), (decide (L < x)); lia.
Qed.

Section PeelFuel.
Context `{CDTUtils}.
Variables (triangles : list Triangle) (fixedEdges : gset Edge).
Variable L : LayerDepth.

Local Abbreviation top_above := (top_above L).
Local Abbreviation peel_measure := (peel_measure L).



Lemma top_above_exceeds iT s d :
  top_above (iT :: s) d = true ↔ exceeds d L iT.
Proof.
  unfold top_above, exceeds. destruct (vec_at d iT) as [v|].
  - rewrite N.ltb_lt. split; [eauto|]. by intros (v' & [= <-] & ?).
  - split; [done|]. by intros (v' & ? & _).
Qed.

Lemma peel_measure_pop iT s d t :
  iT < vec_size d →
  (peel_measure (pushed fixedEdges L (vec_set d iT L) t ++ s) (vec_set d iT L)
   < peel_measure (iT :: s) d)%nat.
Proof.
  intros Hlt. unfold peel_measure.
  pose proof (length_pushed fixedEdges L (vec_set d iT L) t) as Hlen.
  rewrite length_app. simpl length.
  apply vec_at_is_Some in Hlt as [v Hv].
  pose proof (count_above_insert L d (N.to_nat iT) v Hv) as Hcount.
  fold (vec_set d iT L) in Hcount.
  destruct (top_above (iT :: s) d) eqn:Htop.
  - (* the popped triangle was above the layer *)
    apply top_above_exceeds in Htop as (v' & Hv' & Hlv).
    rewrite Hv in Hv'. injection Hv' as <-.
    rewrite decide_True in Hcount by done.
    destruct (top_above _ _); lia.
  - (* it was not: the count is unchanged *)
    assert (Hnot : ¬ L < v).
    { intros Hlv. assert (top_above (iT :: s) d = true); [|congruence].
      apply top_above_exceeds. by exists v. }
    rewrite decide_False in Hcount by done.
    destruct (pushed fixedEdges L (vec_set d iT L) t) as [|x rest] eqn:Hp.
    + simpl. destruct (top_above s _); lia.
    + apply head_pushed in Hp as Hx. simpl app.
      rewrite (proj2 (top_above_exceeds x (rest ++ s) _) Hx). simpl in *. lia.
Qed.

Lemma PeelLayer_loop_fuel fuel s d bb :
  (peel_measure s d < fuel)%nat →
  PeelLayer_loop triangles fixedEdges fuel L s d bb ≠ OutOfFuel.
Proof.
  revert s d bb. induction fuel as [|fuel IH]; intros s d bb Hfuel; [lia|].
  destruct s as [|iT s]; simpl; [done|].
  destruct (PeelLayer_pop_cases triangles fixedEdges L iT s d bb)
    as [(t & Hlt & Ht & Hok & Hpop)|[Hpop _]]; rewrite Hpop; simpl; [|done].
  apply IH. pose proof (peel_measure_pop iT s d t Hlt). lia.
Qed.

Lemma peel_measure_fuel s d :
  (peel_measure s d < PeelLayer_fuel s d)%nat.
Proof.
  unfold peel_measure, PeelLayer_fuel.
  pose proof (count_above_length L d). destruct (top_above s d); lia.
Qed.

(** With more fuel than the measure, the result does not depend on the
    fuel. *)
Lemma PeelLayer_loop_fuel_irrelevant fuel fuel' s d bb :
  (peel_measure s d < fuel)%nat → (peel_measure s d < fuel')%nat →
  PeelLayer_loop triangles fixedEdges fuel L s d bb
  = PeelLayer_loop triangles fixedEdges fuel' L s d bb.
Proof.
  revert fuel' s d bb. induction fuel as [|fuel IH]; intros fuel' s d bb Hf Hf'; [lia|].
  destruct fuel' as [|fuel']; [lia|].
  destruct s as [|iT s]; simpl; [done|].
  destruct (PeelLayer_pop_cases triangles fixedEdges L iT s d bb)
    as [(t & Hlt & Ht & Hok & Hpop)|[Hpop _]]; rewrite Hpop; simpl; [|done].
  pose proof (peel_measure_pop iT s d t Hlt). apply IH; lia.
Qed.
End PeelFuel.

(** ** Depth peeling: the overload with overlaps follows the other one *)

Section PeelOverlap.
Context `{CDTUtils}.
Variables (triangles : list Triangle) (fixedEdges : gset Edge).
Variable overlapCount : gmap Edge N.
Variables (L : LayerDepth) (d0 : list N) (seeds0 : list N).

Local Abbreviation act := (visit_action fixedEdges).
Local Abbreviation peeled0 := (peeled triangles fixedEdges d0 L seeds0).
Local Abbreviation record_ov := (record_ov fixedEdges overlapCount L).
Local Abbreviation recorded_from :=
  (recorded_from triangles fixedEdges overlapCount L d0 seeds0).


Lemma dom_record_ov d t i m :
  dom (record_ov d t i m) = dom m ∪ recorded_by fixedEdges L d t i.
Proof.
  unfold record_ov, recorded_by.
  destruct (act L d t i); rewrite ?dom_insert_L; set_solver.
Qed.

Lemma lookup_record_ov d t i m n v :
  record_ov d t i m !! n = Some v →
  m !! n = Some v
  ∨ (act L d t i = Record ∧ n = opNeighbor t i
     ∧ v = behind_depth overlapCount L (opEdge t i)).
Proof.
  unfold record_ov. destruct (act L d t i) eqn:Hact; try (by left).
  destruct (decide (opNeighbor t i = n)) as [<-|Hne].
  - rewrite lookup_insert_eq. intros [= <-]. by right.
  - rewrite lookup_insert_ne by done. by left.
Qed.

Lemma PeelLayer_ov_pop_Done iT s d bbm :
  iT < vec_size d →
  ∀ t, vec_at triangles iT = Some t →
  faultless fixedEdges L (vec_set d iT L) t →
  PeelLayer_ov_pop triangles fixedEdges overlapCount L iT s d bbm
  = Done (pushed fixedEdges L (vec_set d iT L) t ++ s, vec_set d iT L,
          record_ov (vec_set d iT L) t I2
            (record_ov (vec_set d iT L) t I1
               (record_ov (vec_set d iT L) t I0 (delete iT bbm)))).
Proof.
  intros Hlt t Ht Hok. unfold PeelLayer_ov_pop, vec_write, vec_read.
  rewrite decide_True by done. simpl. rewrite Ht. simpl.
  rewrite !PeelLayer_ov_visit_action.
  pose proof (Hok I0) as H0. pose proof (Hok I1) as H1. pose proof (Hok I2) as H2.
  unfold pushed, pushed_by, record_ov.
  destruct (act L (vec_set d iT L) t I0); try done; simpl;
    rewrite !PeelLayer_ov_visit_action;
    destruct (act L (vec_set d iT L) t I1); try done; simpl;
    rewrite !PeelLayer_ov_visit_action;
    destruct (act L (vec_set d iT L) t I2); try done; simpl;
    reflexivity.
Qed.

Lemma PeelLayer_ov_pop_Undefined iT s d bbm :
  ¬ (iT < vec_size d
     ∧ ∃ t, vec_at triangles iT = Some t
            ∧ faultless fixedEdges L (vec_set d iT L) t) →
  PeelLayer_ov_pop triangles fixedEdges overlapCount L iT s d bbm = Undefined.
Proof.
  intros Hbad. unfold PeelLayer_ov_pop, vec_write, vec_read.
  destruct (decide (iT < vec_size d)) as [Hlt|]; [|done]. simpl.
  destruct (vec_at triangles iT) as [t|] eqn:Ht; [|done]. simpl.
  rewrite !PeelLayer_ov_visit_action.
  destruct (act L (vec_set d iT L) t I0) eqn:H0; simpl; try done;
    rewrite !PeelLayer_ov_visit_action;
    destruct (act L (vec_set d iT L) t I1) eqn:H1; simpl; try done;
    rewrite !PeelLayer_ov_visit_action;
    destruct (act L (vec_set d iT L) t I2) eqn:H2; simpl; try done;
    exfalso; apply Hbad; (split; [done|]); exists t; (split; [done|]);
    intros []; congruence.
Qed.


(** The two loops run in step: same stack, same depths, and the set of
    one is the domain of the map of the other. *)
Lemma PeelLayer_ov_loop_sim fuel s d bbm X :
  peel_inv triangles fixedEdges L d0 seeds0 s d (dom bbm) X →
  recorded_from bbm →
  match PeelLayer_ov_loop triangles fixedEdges overlapCount fuel L s d bbm with
  | Done (bbm', d') =>
      PeelLayer_loop triangles fixedEdges fuel L s d (dom bbm) = Done (dom bbm', d')
      ∧ recorded_from bbm'
  | Undefined => PeelLayer_loop triangles fixedEdges fuel L s d (dom bbm) = Undefined
  | OutOfFuel => PeelLayer_loop triangles fixedEdges fuel L s d (dom bbm) = OutOfFuel
  end.
Proof.
  revert s d bbm X. induction fuel as [|fuel IH]; intros s d bbm X Hinv Hfrom.
  - by destruct s.
  - destruct s as [|iT s]; simpl; [done|].
    destruct (PeelLayer_pop_cases triangles fixedEdges L iT s d (dom bbm))
      as [(t & Hlt & Ht & Hok & Hpop)|[Hpop Hbad]]; rewrite Hpop.
    + rewrite (PeelLayer_ov_pop_Done iT s d bbm Hlt t Ht Hok). simpl.
      pose proof (peel_inv_pop triangles fixedEdges L d0 seeds0
                    iT s d (dom bbm) X t Hinv Hlt Ht Hok) as Hinv'.
      assert (Hdom :
        dom (record_ov (vec_set d iT L) t I2
               (record_ov (vec_set d iT L) t I1
                  (record_ov (vec_set d iT L) t I0 (delete iT bbm))))
        = (dom bbm ∖ {[iT]}) ∪ recorded fixedEdges L (vec_set d iT L) t).
      { rewrite !dom_record_ov, dom_delete_L. unfold recorded. set_solver. }
      rewrite <- Hdom in Hinv' |- *.
      apply (IH _ _ _ _ Hinv').
      intros n v Hn.
      destruct (peel_inv_write triangles fixedEdges L d0 seeds0 iT s d (dom bbm) X Hinv Hlt)
        as (_ & _ & Hex).
      assert (HiT : peeled0 iT).
      { apply (pi_stack _ _ _ _ _ _ _ _ _ Hinv). left. }
      assert (Hnew : ∀ i, act L (vec_set d iT L) t i = Record →
                n = opNeighbor t i →
                v = behind_depth overlapCount L (opEdge t i) →
                ∃ iT i e, peeled0 iT ∧ neighbor_at triangles iT i n e
                  ∧ e ∈ fixedEdges ∧ exceeds d0 L n
                  ∧ v = behind_depth overlapCount L e).
      { intros i Hact -> ->. apply act_Record in Hact as (Hno & Hfix & Hexc).
        apply Hex in Hexc as [_ Hexc].
        exists iT, i, (opEdge t i). repeat split; try done. by exists t. }
      apply lookup_record_ov in Hn as [Hn|(Hact & Hn & Hv)]; [|by eapply Hnew].
      apply lookup_record_ov in Hn as [Hn|(Hact & Hn & Hv)]; [|by eapply Hnew].
      apply lookup_record_ov in Hn as [Hn|(Hact & Hn & Hv)]; [|by eapply Hnew].
      apply lookup_delete_Some in Hn as [_ Hn]. by apply Hfrom.
    + by rewrite (PeelLayer_ov_pop_Undefined iT s d bbm Hbad).
Qed.
End PeelOverlap.

(** ** Depth peeling: [PeelLayer] *)

Section PeelTheorems.
Context `{CDTUtils}.
Variables (triangles : list Triangle) (fixedEdges : gset Edge).

Lemma well_formed_spec seeds d0 :
  well_formed triangles seeds d0 = true →
  length d0 = length triangles
  ∧ (∀ s, s ∈ seeds → s < vec_size triangles)
  ∧ neighbors_in_range triangles.
Proof.
  unfold well_formed. rewrite !andb_true_iff, bool_decide_eq_true.
  intros [[Hlen Hseeds] Hnb]. split; [done|]. split.
  - intros s Hs. rewrite forallb_forall in Hseeds.
    apply N.ltb_lt, Hseeds. by apply list_elem_of_In.
  - intros iT t i Ht. rewrite forallb_forall in Hnb.
    assert (Hin : In t triangles).
    { apply list_elem_of_In, list_elem_of_lookup. by exists (N.to_nat iT). }
    specialize (Hnb t Hin). rewrite forallb_forall in Hnb.
    assert (Hi : In i Index_all) by (destruct i; simpl; tauto).
    specialize (Hnb i Hi). apply orb_true_iff in Hnb as [Hno|Hlt].
    + left. by apply bool_decide_eq_true in Hno.
    + right. by apply N.ltb_lt.
Qed.

Lemma peeled_in_range L d0 seeds t :
  (∀ s, s ∈ seeds → s < vec_size triangles) →
  neighbors_in_range triangles →
  peeled triangles fixedEdges d0 L seeds t → t < vec_size triangles.
Proof.
  intros Hseeds Hnb. induction 1 as [t Ht|t n _ _ Hfree]; [by apply Hseeds|].
  destruct Hfree as (i & e & (tri & Htri & <- & _ & Hno) & _).
  destruct (Hnb t tri i Htri); [done|done].
Qed.

Lemma in_range_usable L d0 seeds t :
  length d0 = length triangles →
  (∀ s, s ∈ seeds → s < vec_size triangles) →
  neighbors_in_range triangles →
  peeled triangles fixedEdges d0 L seeds t → usable triangles d0 t.
Proof.
  intros Hlen Hseeds Hnb Hp.
  pose proof (peeled_in_range L d0 seeds t Hseeds Hnb Hp) as Hlt.
  assert (Hsz : vec_size d0 = vec_size triangles) by (unfold vec_size; by rewrite Hlen).
  split; [by rewrite Hsz|].
  apply vec_at_is_Some in Hlt as [tri Htri]. exists tri. split; [done|].
  intros i. rewrite Hsz. by eapply Hnb.
Qed.

Lemma well_formed_usable L d0 seeds t :
  well_formed triangles seeds d0 = true →
  peeled triangles fixedEdges d0 L seeds t → usable triangles d0 t.
Proof.
  intros Hwf. apply well_formed_spec in Hwf as (Hlen & Hseeds & Hnb).
  by apply in_range_usable.
Qed.

(** What a call of [PeelLayer] that returns has done. *)
Lemma PeelLayer_Done seeds L d0 bb d' :
  PeelLayer triangles fixedEdges seeds L d0 = Done (bb, d') →
  length d' = length d0
  ∧ (∀ t, peeled triangles fixedEdges d0 L seeds t →
          vec_at d' t = Some L ∧ usable triangles d0 t)
  ∧ (∀ t, ¬ peeled triangles fixedEdges d0 L seeds t → vec_at d' t = vec_at d0 t)
  ∧ (∀ n, n ∈ bb ↔ ¬ peeled triangles fixedEdges d0 L seeds n
                   ∧ ∃ t, peeled triangles fixedEdges d0 L seeds t
                          ∧ fixed_step triangles fixedEdges d0 L t n).
Proof.
  intros Hrun. unfold PeelLayer in Hrun.
  destruct (PeelLayer_loop_inv triangles fixedEdges L d0 seeds _ _ _ _ _ _ _
              (peel_inv_init triangles fixedEdges L d0 seeds) Hrun) as [X Hinv].
  pose proof (peel_inv_final triangles fixedEdges L d0 seeds d' bb X Hinv) as HX.
  split; [apply (pi_length _ _ _ _ _ _ _ _ _ Hinv)|]. split; [|split].
  - intros t Ht. apply HX in Ht. split.
    + by apply (pi_in _ _ _ _ _ _ _ _ _ Hinv).
    + by apply (pi_usable _ _ _ _ _ _ _ _ _ Hinv).
  - intros t Ht. apply (pi_out _ _ _ _ _ _ _ _ _ Hinv). by rewrite <- HX.
  - intros n. rewrite (pi_behind _ _ _ _ _ _ _ _ _ Hinv n), <- HX. split.
    + intros [Hn (t & Ht & Hfix)]. split; [done|]. exists t. by rewrite HX.
    + intros [Hn (t & Ht & Hfix)]. split; [done|]. exists t. by rewrite <- HX.
Qed.

(** A call of [PeelLayer] returns, unless it indexes out of range on a
    triangle of the layer. *)
Lemma PeelLayer_returns seeds L d0 :
  (∀ t, peeled triangles fixedEdges d0 L seeds t → usable triangles d0 t) →
  ∃ bb d', PeelLayer triangles fixedEdges seeds L d0 = Done (bb, d').
Proof.
  intros Huse. unfold PeelLayer.
  pose proof (PeelLayer_loop_fuel triangles fixedEdges L
                (PeelLayer_fuel seeds d0) seeds d0 ∅
                (peel_measure_fuel L seeds d0)) as Hfuel.
  pose proof (PeelLayer_loop_defined triangles fixedEdges L d0 seeds
                (PeelLayer_fuel seeds d0) seeds d0 ∅ ∅ Huse
                (peel_inv_init triangles fixedEdges L d0 seeds)) as Hdef.
  destruct (PeelLayer_loop _ _ _ _ _ _ _) as [[bb d']| |]; [eauto|done|done].
Qed.

Lemma PeelLayer_never_OutOfFuel seeds L d0 :
  PeelLayer triangles fixedEdges seeds L d0 ≠ OutOfFuel.
Proof.
  apply PeelLayer_loop_fuel, peel_measure_fuel.
Qed.
End PeelTheorems.

(** C1, as amended. On a triangulation where no index is out of range, the
    overload of [PeelLayer] without overlaps returns. It has set to
    [layerDepth] the depth of the triangles of the layer, and of no other:
    the seeds, and every triangle with a depth above [layerDepth] that is a
    neighbour, across an edge that is not fixed, of a triangle of the layer
    (its neighbours are pushed); no triangle is reached across a fixed
    edge. The returned set holds the triangles that are not of the layer
    and are neighbours, across a fixed edge and with a depth above
    [layerDepth], of a triangle of the layer: a neighbour recorded behind a
    fixed edge leaves the set when it is popped itself. *)
Theorem PeelLayer_peels_layer `{CDTUtils} (triangles : list Triangle)
    (fixedEdges : gset Edge) (seeds : list N) (layerDepth : LayerDepth)
    (triDepths : list N) :
  well_formed triangles seeds triDepths = true →
  ∃ behindBoundary triDepths',
    PeelLayer triangles fixedEdges seeds layerDepth triDepths
    = Done (behindBoundary, triDepths')
    ∧ length triDepths' = length triDepths
    ∧ (∀ iT, iT ∈ seeds → vec_at triDepths' iT = Some layerDepth)
    ∧ (∀ iT, peeled triangles fixedEdges triDepths layerDepth seeds iT →
             vec_at triDepths' iT = Some layerDepth)
    ∧ (∀ iT, ¬ peeled triangles fixedEdges triDepths layerDepth seeds iT →
             vec_at triDepths' iT = vec_at triDepths iT)
    ∧ (∀ iT, peeled triangles fixedEdges triDepths layerDepth seeds iT →
             iT ∈ seeds
             ∨ ∃ iT', peeled triangles fixedEdges triDepths layerDepth seeds iT'
                      ∧ free_step triangles fixedEdges triDepths layerDepth iT' iT)
    ∧ (∀ iT iN, peeled triangles fixedEdges triDepths layerDepth seeds iT →
                free_step triangles fixedEdges triDepths layerDepth iT iN →
                peeled triangles fixedEdges triDepths layerDepth seeds iN)
    ∧ (∀ iN, iN ∈ behindBoundary
             ↔ ¬ peeled triangles fixedEdges triDepths layerDepth seeds iN
               ∧ ∃ iT, peeled triangles fixedEdges triDepths layerDepth seeds iT
                       ∧ fixed_step triangles fixedEdges triDepths layerDepth iT iN).
Proof.
  intros Hwf.
  destruct (PeelLayer_returns triangles fixedEdges seeds layerDepth triDepths)
    as (bb & d' & Hrun).
  { intros t. by apply well_formed_usable. }
  exists bb, d'. split; [done|].
  destruct (PeelLayer_Done triangles fixedEdges seeds layerDepth triDepths bb d' Hrun)
    as (Hlen & Hin & Hout & Hbb).
  split; [done|]. split; [|split; [|split; [|split; [|split]]]].
  - intros iT Hs. apply Hin. by apply peeled_seed.
  - intros iT Hp. by apply Hin.
  - done.
  - intros iT Hp. destruct Hp as [iT Hs|iT' iT Hp Hfree]; [by left|right; eauto].
  - intros iT iN Hp Hfree. by eapply peeled_step.
  - done.
Qed.

(** Peeling layer 0 of [example_triangles] from triangle 0, the edge
    [(1, 2)] between triangles 0 and 1 being fixed. *)
Lemma PeelLayer_peels_layer_witness :
  ∃ behindBoundary triDepths',
    PeelLayer (H := spec_utils) example_triangles {[ mkEdge 1 2 ]} [0] 0
      [65535; 65535; 65535]
    = Done (behindBoundary, triDepths')
    ∧ length triDepths' = 3%nat.
Proof.
  destruct (PeelLayer_peels_layer (H := spec_utils) example_triangles
              {[ mkEdge 1 2 ]} [0] 0 [65535; 65535; 65535] eq_refl)
    as (bb & d' & Hrun & Hlen & _).
  exists bb, d'. split; [exact Hrun|exact Hlen].
Defined.

(** C1, as stated, fails: in [example_triangles], triangle 1 is the
    neighbour of the seed 0 across the fixed edge [(1, 2)], and its depth
    is above the layer when the seed is popped, yet it is not in the
    returned set: it is reached from triangle 2, popped, and erased. *)
Lemma PeelLayer_recorded_neighbor_erased :
  let triDepths := [65535; 65535; 65535] in
  let fixedEdges : gset Edge := {[ mkEdge 1 2 ]} in
  ∃ t behindBoundary triDepths',
    vec_at example_triangles 0 = Some t
    ∧ opNeighbor (H := spec_utils) t I0 = 1
    ∧ 1 ≠ noNeighbor (CDTUtils := spec_utils)
    ∧ opEdge (H := spec_utils) t I0 ∈ fixedEdges
    ∧ exceeds triDepths 0 1
    ∧ PeelLayer (H := spec_utils) example_triangles fixedEdges [0] 0 triDepths
      = Done (behindBoundary, triDepths')
    ∧ 1 ∉ behindBoundary.
Proof.
  exists (mkTriangle (0, 1, 2) (1, 2, 4294967295)), ∅, [0; 0; 0].
  split; [reflexivity|]. split; [reflexivity|].
  split; [simpl; lia|].
  split; [by apply elem_of_singleton|].
  split; [exists 65535; split; [reflexivity|lia]|].
  split; [vm_compute; reflexivity|].
  set_solver.
Qed.

Section PeelOverlapTheorems.
Context `{CDTUtils}.
Variables (triangles : list Triangle) (fixedEdges : gset Edge).
Variable overlapCount : gmap Edge N.

(** The overload with overlaps returns what the other one returns, with
    a depth attached to each triangle of the set. *)
Lemma PeelLayer_ov_sim seeds L d0 :
  match PeelLayer_ov triangles fixedEdges overlapCount seeds L d0 with
  | Done (bbm', d') =>
      PeelLayer triangles fixedEdges seeds L d0 = Done (dom bbm', d')
      ∧ recorded_from triangles fixedEdges overlapCount L d0 seeds bbm'
  | Undefined => PeelLayer triangles fixedEdges seeds L d0 = Undefined
  | OutOfFuel => PeelLayer triangles fixedEdges seeds L d0 = OutOfFuel
  end.
Proof.
  unfold PeelLayer_ov, PeelLayer.
  pose proof (PeelLayer_ov_loop_sim triangles fixedEdges overlapCount L d0 seeds
                (PeelLayer_fuel seeds d0) seeds d0 ∅ ∅) as Hsim.
  rewrite dom_empty_L in Hsim. apply Hsim.
  - apply peel_inv_init.
  - intros n v Hn. by rewrite lookup_empty in Hn.
Qed.

Lemma behind_depth_jump L e :
  match overlapCount !! e with
  | None => behind_depth overlapCount L e = LayerDepth_of (L + 1)
  | Some k => behind_depth overlapCount L e = LayerDepth_of (L + k + 1)
  end.
Proof. unfold behind_depth. by destruct (overlapCount !! e). Qed.
End PeelOverlapTheorems.

Lemma LayerDepth_of_small `{CDTUtils} (x : N) :
  x ≤ LayerDepth_max → LayerDepth_of x = x.
Proof. intros Hx. unfold LayerDepth_of. apply N.mod_small. lia. Qed.


(** Overlapping boundaries: in [example_triangles] with its three inner
    edges fixed and an overlap count of 1 on the edge [(1, 2)], triangle 1
    is recorded for depth 2 and triangle 2 for depth 1. *)
Example PeelLayer_ov_example :
  PeelLayer_ov (H := spec_utils) example_triangles
    {[ mkEdge 1 2; mkEdge 0 2; mkEdge 2 3 ]} {[ mkEdge 1 2 := 1 ]} [0] 0
    [65535; 65535; 65535]
  = Done ({[ 1 := 2; 2 := 1 ]}, [0; 65535; 65535]).
Proof. vm_compute. reflexivity. Qed.

(** ** Depth peeling: facts about a layer used by the callers *)

Section PeelFacts.
Context `{CDTUtils}.
Variables (triangles : list Triangle) (fixedEdges : gset Edge).

(** The triangles of the layer, as a finite set. *)
Lemma PeelLayer_Done_set seeds L d0 bb d' :
  PeelLayer triangles fixedEdges seeds L d0 = Done (bb, d') →
  ∃ X : gset N,
    (∀ t, peeled triangles fixedEdges d0 L seeds t ↔ t ∈ X)
    ∧ length d' = length d0
    ∧ (∀ t, t ∈ X → vec_at d' t = Some L ∧ usable triangles d0 t)
    ∧ (∀ t, t ∉ X → vec_at d' t = vec_at d0 t)
    ∧ (∀ n, n ∈ bb ↔ (n ∉ X) ∧ ∃ t, t ∈ X ∧ fixed_step triangles fixedEdges d0 L t n).
Proof.
  intros Hrun. unfold PeelLayer in Hrun.
  destruct (PeelLayer_loop_inv triangles fixedEdges L d0 seeds _ _ _ _ _ _ _
              (peel_inv_init triangles fixedEdges L d0 seeds) Hrun) as [X Hinv].
  exists X. split; [apply (peel_inv_final _ _ _ _ _ _ _ _ Hinv)|].
  split; [apply (pi_length _ _ _ _ _ _ _ _ _ Hinv)|]. split; [|split].
  - intros t Ht. split.
    + by apply (pi_in _ _ _ _ _ _ _ _ _ Hinv).
    + by apply (pi_usable _ _ _ _ _ _ _ _ _ Hinv).
  - apply (pi_out _ _ _ _ _ _ _ _ _ Hinv).
  - apply (pi_behind _ _ _ _ _ _ _ _ _ Hinv).
Qed.

(** Every depth after the call is the layer or the depth before. *)
Lemma PeelLayer_Done_values seeds L d0 bb d' t v :
  PeelLayer triangles fixedEdges seeds L d0 = Done (bb, d') →
  vec_at d' t = Some v → v = L ∨ vec_at d0 t = Some v.
Proof.
  intros Hrun Hv.
  destruct (PeelLayer_Done_set seeds L d0 bb d' Hrun) as (X & _ & _ & Hin & Hout & _).
  destruct (decide (t ∈ X)) as [Ht|Ht].
  - destruct (Hin t Ht) as [HL _]. left. congruence.
  - right. by rewrite <- (Hout t Ht).
Qed.

(** The triangles of the returned set keep their depth, which is above
    the layer. *)
Lemma PeelLayer_Done_behind seeds L d0 bb d' n :
  PeelLayer triangles fixedEdges seeds L d0 = Done (bb, d') →
  n ∈ bb → ∃ v, vec_at d' n = Some v ∧ vec_at d0 n = Some v ∧ L < v.
Proof.
  intros Hrun Hn.
  destruct (PeelLayer_Done_set seeds L d0 bb d' Hrun) as (X & _ & _ & _ & Hout & Hbb).
  destruct (proj1 (Hbb n) Hn) as [Hn' (t & _ & i & e & _ & _ & v & Hv & Hlt)].
  exists v. by rewrite (Hout n Hn').
Qed.

(** The seeds are popped: each is a triangle, and its depth is the layer. *)
Lemma PeelLayer_Done_seed seeds L d0 bb d' s :
  PeelLayer triangles fixedEdges seeds L d0 = Done (bb, d') →
  s ∈ seeds → vec_at d' s = Some L ∧ s < vec_size d0.
Proof.
  intros Hrun Hs.
  destruct (PeelLayer_Done_set seeds L d0 bb d' Hrun) as (X & HX & _ & Hin & _).
  assert (HsX : s ∈ X) by (apply HX; by apply peeled_seed).
  destruct (Hin s HsX) as [HL [Hlt _]]. done.
Qed.

(** The number of depths above the layer does not grow, and it shrinks
    when the top seed has a depth above the layer. *)
Lemma PeelLayer_loop_count fuel L s d bb bb' d' :
  PeelLayer_loop triangles fixedEdges fuel L s d bb = Done (bb', d') →
  (count_above L d' ≤ count_above L d)%nat
  ∧ (∀ iT rest, s = iT :: rest → exceeds d L iT →
       (count_above L d' < count_above L d)%nat).
Proof.
  revert s d bb. induction fuel as [|fuel IH]; intros s d bb Hrun.
  - destruct s; simpl in Hrun; [|done]. injection Hrun as <- <-.
    split; [done|]. by intros.
  - destruct s as [|iT s]; simpl in Hrun.
    + injection Hrun as <- <-. split; [done|]. by intros.
    + destruct (PeelLayer_pop_cases triangles fixedEdges L iT s d bb)
        as [(t & Hlt & Ht & Hok & Hpop)|[Hpop _]];
        rewrite Hpop in Hrun; [|done].
      simpl in Hrun. destruct (IH _ _ _ Hrun) as [Hle _].
      apply vec_at_is_Some in Hlt as [v Hv].
      pose proof (count_above_insert L d (N.to_nat iT) v Hv) as Hcount.
      fold (vec_set d iT L) in Hcount. split.
      * destruct (decide (L < v)); lia.
      * intros iT' rest [= <- <-] (v' & Hv' & Hlv).
        rewrite Hv in Hv'. injection Hv' as <-.
        rewrite decide_True in Hcount by done. lia.
Qed.

(** The layer, and so the result, depends on the seeds as a set. *)
Lemma peeled_seeds_equiv L d0 seeds seeds' t :
  (∀ x, x ∈ seeds ↔ x ∈ seeds') →
  peeled triangles fixedEdges d0 L seeds t →
  peeled triangles fixedEdges d0 L seeds' t.
Proof.
  intros Heq. induction 1 as [t Ht|t n _ IH Hfree].
  - apply peeled_seed. by apply Heq.
  - by eapply peeled_step.
Qed.

Lemma vec_eq (l1 l2 : list N) :
  (∀ i, vec_at l1 i = vec_at l2 i) → l1 = l2.
Proof.
  intros Heq. apply list_eq. intros i.
  specialize (Heq (N.of_nat i)). unfold vec_at in Heq. by rewrite Nat2N.id in Heq.
Qed.

Lemma PeelLayer_Done_seeds_equiv L d0 seeds seeds' bb d' :
  (∀ x, x ∈ seeds ↔ x ∈ seeds') →
  PeelLayer triangles fixedEdges seeds L d0 = Done (bb, d') →
  PeelLayer triangles fixedEdges seeds' L d0 = Done (bb, d').
Proof.
  intros Heq Hrun.
  destruct (PeelLayer_Done_set seeds L d0 bb d' Hrun)
    as (X & HX & Hlen & Hin & Hout & Hbb).
  destruct (PeelLayer_returns triangles fixedEdges seeds' L d0) as (bb2 & d2 & Hrun2).
  { intros t Ht. apply Hin, HX. eapply peeled_seeds_equiv; [|exact Ht].
    intros x. by rewrite Heq. }
  rewrite Hrun2.
  destruct (PeelLayer_Done_set seeds' L d0 bb2 d2 Hrun2)
    as (X2 & HX2 & Hlen2 & Hin2 & Hout2 & Hbb2).
  assert (HXX : X2 = X).
  { apply set_eq. intros t. rewrite <- HX, <- HX2. split.
    - apply peeled_seeds_equiv. intros x. by rewrite Heq.
    - by apply peeled_seeds_equiv. }
  subst X2. do 2 f_equal.
  - apply set_eq. intros n. by rewrite Hbb, Hbb2.
  - apply vec_eq. intros t. destruct (decide (t ∈ X)) as [Ht|Ht].
    + destruct (Hin t Ht) as [-> _]. by destruct (Hin2 t Ht) as [-> _].
    + by rewrite (Hout t Ht), (Hout2 t Ht).
Qed.

Lemma PeelLayer_seeds_equiv L d0 seeds seeds' :
  (∀ x, x ∈ seeds ↔ x ∈ seeds') →
  PeelLayer triangles fixedEdges seeds L d0
  = PeelLayer triangles fixedEdges seeds' L d0.
Proof.
  intros Heq.
  destruct (PeelLayer triangles fixedEdges seeds L d0) as [[bb d']| |] eqn:Hrun.
  - symmetry. by eapply PeelLayer_Done_seeds_equiv.
  - destruct (PeelLayer triangles fixedEdges seeds' L d0) as [[bb d']| |] eqn:Hrun2.
    + assert (Hback : ∀ x, x ∈ seeds' ↔ x ∈ seeds) by (intros x; by rewrite Heq).
      pose proof (PeelLayer_Done_seeds_equiv L d0 seeds' seeds bb d' Hback Hrun2).
      congruence.
    + done.
    + by apply PeelLayer_never_OutOfFuel in Hrun2.
  - by apply PeelLayer_never_OutOfFuel in Hrun.
Qed.
End PeelFacts.

(** ** [CalculateTriangleDepths], the overload without overlaps *)

Section Depths.
Context `{CDTUtils}.
Variables (triangles : list Triangle) (fixedEdges : gset Edge).

Local Abbreviation only_reached := (only_reached triangles).



Lemma depths_below_init n : depths_below 0 (replicate n LayerDepth_max).
Proof.
  intros t v Hv. unfold vec_at in Hv. apply lookup_replicate in Hv as [-> _]. by right.
Qed.

Lemma depths_below_next seeds L d bb d' :
  depths_below L d →
  PeelLayer triangles fixedEdges seeds L d = Done (bb, d') →
  depths_below (L + 1) d'.
Proof.
  intros Hbelow Hrun t v Hv.
  destruct (PeelLayer_Done_values triangles fixedEdges seeds L d bb d' t v Hrun Hv)
    as [->|Hold]; [left; lia|].
  destruct (Hbelow t v Hold); [left; lia|by right].
Qed.

(** A triangle behind the boundary of layer [L] is unassigned, and [L] is
    not the last layer. *)
Lemma behind_unassigned seeds L d bb d' n :
  depths_below L d → L ≤ LayerDepth_max →
  PeelLayer triangles fixedEdges seeds L d = Done (bb, d') →
  n ∈ bb →
  vec_at d' n = Some LayerDepth_max ∧ L < LayerDepth_max.
Proof.
  intros Hbelow HL Hrun Hn.
  destruct (PeelLayer_Done_behind triangles fixedEdges seeds L d bb d' n Hrun Hn)
    as (v & Hv' & Hv & Hlt).
  destruct (Hbelow n v Hv) as [Hlo| ->]; [lia|]. done.
Qed.

Lemma LayerDepth_of_succ L : L < LayerDepth_max → LayerDepth_of (L + 1) = L + 1.
Proof. intros. apply LayerDepth_of_small. lia. Qed.

Lemma LayerDepth_of_wrap : LayerDepth_of (LayerDepth_max + 1) = 0.
Proof. unfold LayerDepth_of. apply N.Div0.mod_same. Qed.

Section WithOrder.
Variable order : gset N → list N.
Hypothesis order_enumerates : enumerates order.

Lemma elem_of_stack_of_order (s : gset N) x :
  x ∈ stack_of_range (order s) ↔ x ∈ s.
Proof. unfold stack_of_range. rewrite elem_of_reverse. apply order_enumerates. Qed.

Lemma stack_of_order_empty : stack_of_range (order ∅) = [].
Proof.
  destruct (stack_of_range (order ∅)) as [|x l] eqn:Heq; [done|].
  assert (Hx : x ∈ stack_of_range (order ∅)) by (rewrite Heq; left).
  apply elem_of_stack_of_order in Hx. set_solver.
Qed.

Lemma stack_of_order_nil (s : gset N) :
  stack_of_range (order s) = [] ↔ s = ∅.
Proof.
  split.
  - intros Heq. apply set_eq. intros x. rewrite <- elem_of_stack_of_order, Heq.
    set_solver.
  - intros ->. apply stack_of_order_empty.
Qed.

(** The loop runs at most once per unassigned triangle, and once more. *)
Lemma CalculateTriangleDepths_loop_fuel fuel seeds L d :
  L ≤ LayerDepth_max →
  depths_below L d → seeds_unassigned seeds d → seeds ≠ [] →
  (count_above L d + 2 ≤ fuel)%nat →
  CalculateTriangleDepths_loop triangles fixedEdges order fuel seeds L d ≠ OutOfFuel.
Proof.
  revert seeds L d. induction fuel as [|fuel IH];
    intros seeds L d HL Hbelow Hseeds Hne Hfuel; [lia|].
  simpl.
  destruct (PeelLayer triangles fixedEdges seeds L d) as [[bb d']| |] eqn:Hrun;
    simpl; [|done|by apply PeelLayer_never_OutOfFuel in Hrun].
  destruct (stack_of_range (order bb)) as [|n rest] eqn:Hstack; [done|].
  assert (Hn : n ∈ bb) by (apply elem_of_stack_of_order; rewrite Hstack; left).
  destruct (behind_unassigned seeds L d bb d' n Hbelow HL Hrun Hn) as [_ Hlt].
  rewrite (LayerDepth_of_succ L Hlt).
  apply IH.
  - lia.
  - by eapply depths_below_next.
  - intros s v Hs Hv. rewrite <- Hstack in Hs. apply elem_of_stack_of_order in Hs.
    destruct (behind_unassigned seeds L d bb d' s Hbelow HL Hrun Hs) as [Hmax _].
    congruence.
  - done.
  - destruct seeds as [|s0 seeds']; [done|].
    destruct (PeelLayer_Done_seed triangles fixedEdges (s0 :: seeds') L d bb d' s0 Hrun)
      as [_ Hs0]; [left|].
    apply vec_at_is_Some in Hs0 as [v0 Hv0].
    assert (v0 = LayerDepth_max) as -> by (eapply Hseeds; [left|done]).
    unfold PeelLayer in Hrun.
    destruct (PeelLayer_loop_count triangles fixedEdges _ _ _ _ _ _ _ Hrun) as [_ Hstrict].
    specialize (Hstrict s0 seeds' eq_refl).
    assert (Hex : exceeds d L s0) by (by exists LayerDepth_max).
    specialize (Hstrict Hex).
    pose proof (count_above_mono L (L + 1) d'). lia.
Qed.

Lemma CalculateTriangleDepths_never_OutOfFuel seed :
  CalculateTriangleDepths triangles fixedEdges order seed ≠ OutOfFuel.
Proof.
  unfold CalculateTriangleDepths. apply CalculateTriangleDepths_loop_fuel.
  - lia.
  - apply depths_below_init.
  - intros s v _ Hv. unfold vec_at in Hv. by apply lookup_replicate in Hv as [-> _].
  - done.
  - pose proof (count_above_length 0 (replicate (length triangles) LayerDepth_max)).
    rewrite length_replicate in *. lia.
Qed.

(** No index is out of range when the neighbour slots are in range. *)
Lemma CalculateTriangleDepths_loop_defined fuel seeds L d :
  neighbors_in_range triangles →
  length d = length triangles →
  (∀ s, s ∈ seeds → s < vec_size triangles) →
  CalculateTriangleDepths_loop triangles fixedEdges order fuel seeds L d ≠ Undefined.
Proof.
  intros Hnb. revert seeds L d.
  induction fuel as [|fuel IH]; intros seeds L d Hlen Hseeds; [done|].
  simpl.
  destruct (PeelLayer_returns triangles fixedEdges seeds L d) as (bb & d' & Hrun).
  { intros t. by apply in_range_usable. }
  rewrite Hrun. simpl.
  destruct (stack_of_range (order bb)) as [|n rest] eqn:Hstack; [done|].
  destruct (PeelLayer_Done_set triangles fixedEdges seeds L d bb d' Hrun)
    as (X & _ & Hlen' & _).
  apply IH.
  - congruence.
  - intros s Hs. rewrite <- Hstack in Hs. apply elem_of_stack_of_order in Hs.
    destruct (PeelLayer_Done_behind triangles fixedEdges seeds L d bb d' s Hrun Hs)
      as (v & _ & Hv & _).
    assert (Hlt : s < vec_size d) by (apply vec_at_is_Some; eauto).
    unfold vec_size in *. by rewrite <- Hlen.
Qed.


Lemma peeled_reached seed seeds L d t :
  (∀ s, s ∈ seeds → reached_from triangles seed s) →
  peeled triangles fixedEdges d L seeds t → reached_from triangles seed t.
Proof.
  intros Hseeds. induction 1 as [t Ht|t n _ IH Hfree]; [by apply Hseeds|].
  eapply rtc_r; [exact IH|].
  destruct Hfree as (i & e & Hnb & _). by exists i, e.
Qed.

Lemma PeelLayer_reached seed seeds L d bb d' :
  (∀ s, s ∈ seeds → reached_from triangles seed s) →
  only_reached seed d →
  PeelLayer triangles fixedEdges seeds L d = Done (bb, d') →
  only_reached seed d' ∧ (∀ n, n ∈ bb → reached_from triangles seed n).
Proof.
  intros Hseeds Honly Hrun.
  destruct (PeelLayer_Done_set triangles fixedEdges seeds L d bb d' Hrun)
    as (X & HX & _ & _ & Hout & Hbb).
  split.
  - intros t v Hv Hne. destruct (decide (t ∈ X)) as [Ht|Ht].
    + apply HX in Ht. by eapply peeled_reached.
    + rewrite (Hout t Ht) in Hv. by eapply Honly.
  - intros n Hn. apply Hbb in Hn as [_ (t & Ht & i & e & Hnb & _)].
    eapply rtc_r; [|by exists i, e].
    apply HX in Ht. by eapply peeled_reached.
Qed.

Lemma CalculateTriangleDepths_loop_reached seed fuel seeds L d depths :
  (∀ s, s ∈ seeds → reached_from triangles seed s) →
  only_reached seed d →
  CalculateTriangleDepths_loop triangles fixedEdges order fuel seeds L d = Done depths →
  length depths = length d ∧ only_reached seed depths.
Proof.
  revert seeds L d. induction fuel as [|fuel IH]; intros seeds L d Hseeds Honly Hrun;
    [done|].
  simpl in Hrun.
  destruct (PeelLayer triangles fixedEdges seeds L d) as [[bb d']| |] eqn:Hpeel;
    simpl in Hrun; [|done..].
  destruct (PeelLayer_reached seed seeds L d bb d' Hseeds Honly Hpeel) as [Honly' Hbb].
  destruct (PeelLayer_Done_set triangles fixedEdges seeds L d bb d' Hpeel)
    as (X & _ & Hlen' & _).
  destruct (stack_of_range (order bb)) as [|n rest] eqn:Hstack.
  - injection Hrun as <-. done.
  - rewrite <- Hlen'. eapply IH; [|exact Honly'|exact Hrun].
    intros s Hs. rewrite <- Hstack in Hs. apply elem_of_stack_of_order in Hs.
    by apply Hbb.
Qed.
End WithOrder.
End Depths.

(** ** [CalculateTriangleDepths], the overload with overlaps: one iteration *)

Lemma pending_delete (sbd : gmap N (gset N)) L k :
  pending (delete L sbd) k = if decide (k = L) then ∅ else pending sbd k.
Proof.
  unfold pending. destruct (decide (k = L)) as [->|Hne].
  - by rewrite lookup_delete_eq.
  - by rewrite lookup_delete_ne.
Qed.

Lemma pending_insert_self (sbd : gmap N (gset N)) key k :
  pending (<[key := pending sbd key]> sbd) k = pending sbd k.
Proof.
  unfold pending. destruct (decide (key = k)) as [->|Hne].
  - by rewrite lookup_insert_eq.
  - by rewrite lookup_insert_ne.
Qed.

Lemma record_seeds_spec (newSeeds : gmap N N) (deep : N) (sbd : gmap N (gset N)) :
  (∀ k t, t ∈ pending (record_seeds newSeeds (deep, sbd)).2 k
          ↔ t ∈ pending sbd k ∨ newSeeds !! t = Some k)
  ∧ deep ≤ (record_seeds newSeeds (deep, sbd)).1
  ∧ (∀ t k, newSeeds !! t = Some k → k ≤ (record_seeds newSeeds (deep, sbd)).1)
  ∧ ((record_seeds newSeeds (deep, sbd)).1 = deep
     ∨ ∃ t, newSeeds !! t = Some (record_seeds newSeeds (deep, sbd)).1).
Proof.
  unfold record_seeds.
  apply (map_fold_weak_ind
    (λ (r : N * gmap N (gset N)) (m : gmap N N),
       (∀ k t, t ∈ pending r.2 k ↔ t ∈ pending sbd k ∨ m !! t = Some k)
       ∧ deep ≤ r.1
       ∧ (∀ t k, m !! t = Some k → k ≤ r.1)
       ∧ (r.1 = deep ∨ ∃ t, m !! t = Some r.1))).
  - simpl. split; [|split; [lia|split; [|by left]]].
    + intros k t. rewrite lookup_empty. naive_solver.
    + intros t k Hk. by rewrite lookup_empty in Hk.
  - intros i x m r Hi (Hpend & Hle & Hall & Hmax). simpl.
    split; [|split; [lia|split]].
    + intros k t. unfold pending at 1.
      destruct (decide (x = k)) as [->|Hne].
      * rewrite lookup_insert_eq. simpl. rewrite elem_of_union, elem_of_singleton.
        fold (pending r.2 k). rewrite Hpend.
        destruct (decide (i = t)) as [->|Hit].
        -- rewrite lookup_insert_eq. naive_solver.
        -- rewrite lookup_insert_ne by done. naive_solver.
      * rewrite lookup_insert_ne by done. fold (pending r.2 k). rewrite Hpend.
        destruct (decide (i = t)) as [->|Hit].
        -- rewrite lookup_insert_eq, Hi. naive_solver.
        -- by rewrite lookup_insert_ne.
    + intros t k Hk. destruct (decide (i = t)) as [->|Hit].
      * rewrite lookup_insert_eq in Hk. injection Hk as ->. lia.
      * rewrite lookup_insert_ne in Hk by done. specialize (Hall t k Hk). lia.
    + destruct (N.max_spec r.1 x) as [[Hlt ->]|[Hge ->]].
      * right. exists i. by rewrite lookup_insert_eq.
      * destruct Hmax as [?|(t & Ht)]; [by left|].
        right. exists t. rewrite lookup_insert_ne; [done|]. intros ->. congruence.
Qed.

Section DepthsOverlapStep.
Context `{CDTUtils}.
Variables (triangles : list Triangle) (fixedEdges : gset Edge).
Variable overlapCount : gmap Edge N.
Variable order : gset N → list N.

(** What one run of the body of the [do] loop does. *)
Lemma CalculateTriangleDepths_ov_body_Done st st' :
  CalculateTriangleDepths_ov_body triangles fixedEdges overlapCount order st = Done st' →
  ∃ newSeeds,
    PeelLayer_ov triangles fixedEdges overlapCount
      (ds_seeds st) (ds_layerDepth st) (ds_triDepths st)
    = Done (newSeeds, ds_triDepths st')
    ∧ ds_layerDepth st' = LayerDepth_of (ds_layerDepth st + 1)
    ∧ ds_seeds st'
      = stack_of_range (order (pending (ds_seedsByDepth st') (ds_layerDepth st')))
    ∧ (∀ k t, t ∈ pending (ds_seedsByDepth st') k
              ↔ (k ≠ ds_layerDepth st ∧ t ∈ pending (ds_seedsByDepth st) k)
                ∨ newSeeds !! t = Some k)
    ∧ ds_deepestSeedDepth st ≤ ds_deepestSeedDepth st'
    ∧ (∀ t k, newSeeds !! t = Some k → k ≤ ds_deepestSeedDepth st')
    ∧ (ds_deepestSeedDepth st' = ds_deepestSeedDepth st
       ∨ ∃ t, newSeeds !! t = Some (ds_deepestSeedDepth st')).
Proof.
  unfold CalculateTriangleDepths_ov_body. intros Hbody.
  destruct (PeelLayer_ov _ _ _ _ _ _) as [[newSeeds d']| |]; simpl in Hbody; [|done..].
  pose proof (record_seeds_spec newSeeds (ds_deepestSeedDepth st)
                (delete (ds_layerDepth st) (ds_seedsByDepth st)))
    as (Hpend & Hle & Hall & Hmax).
  destruct (record_seeds newSeeds _) as [deep' sbd'] eqn:Hrec.
  simpl in *. injection Hbody as <-. simpl.
  exists newSeeds. split; [done|]. split; [done|].
  fold (pending sbd' (LayerDepth_of (ds_layerDepth st + 1))).
  split; [by rewrite pending_insert_self|].
  split; [|done].
  intros k t. rewrite pending_insert_self, Hpend, pending_delete.
  destruct (decide (k = ds_layerDepth st)); set_solver.
Qed.

Lemma CalculateTriangleDepths_ov_body_not_Done st :
  (∀ st', CalculateTriangleDepths_ov_body triangles fixedEdges overlapCount order st
          ≠ Done st') →
  CalculateTriangleDepths_ov_body triangles fixedEdges overlapCount order st = Undefined
  ∧ PeelLayer_ov triangles fixedEdges overlapCount
      (ds_seeds st) (ds_layerDepth st) (ds_triDepths st) = Undefined.
Proof.
  unfold CalculateTriangleDepths_ov_body. intros Hbody.
  pose proof (PeelLayer_ov_sim triangles fixedEdges overlapCount
                (ds_seeds st) (ds_layerDepth st) (ds_triDepths st)) as Hsim.
  destruct (PeelLayer_ov _ _ _ _ _ _) as [[newSeeds d']| |]; simpl in *.
  - exfalso. destruct (record_seeds newSeeds _) as [deep' sbd']. by eapply Hbody.
  - done.
  - by apply PeelLayer_never_OutOfFuel in Hsim.
Qed.
End DepthsOverlapStep.

(** ** The two overloads of [CalculateTriangleDepths] without overlap counts *)

Section DepthsEquiv.
Context `{CDTUtils}.
Variables (triangles : list Triangle) (fixedEdges : gset Edge).
(** the iteration orders of the two overloads *)
Variables (order1 order2 : gset N → list N).
Hypothesis order1_enumerates : enumerates order1.
Hypothesis order2_enumerates : enumerates order2.

Local Abbreviation body := (CalculateTriangleDepths_ov_body triangles fixedEdges ∅ order2).
Local Abbreviation loop_ov := (CalculateTriangleDepths_ov_loop triangles fixedEdges ∅ order2).
Local Abbreviation loop := (CalculateTriangleDepths_loop triangles fixedEdges order1).

Lemma PeelLayer_ov_loop_nil (overlapCount : gmap Edge N) fuel L d bbm :
  PeelLayer_ov_loop triangles fixedEdges overlapCount fuel L [] d bbm = Done (bbm, d).
Proof. by destruct fuel. Qed.

(** The body of the loop follows the outcome of [PeelLayer]. *)
Lemma CalculateTriangleDepths_ov_body_outcome (overlapCount : gmap Edge N) order st :
  match PeelLayer_ov triangles fixedEdges overlapCount
          (ds_seeds st) (ds_layerDepth st) (ds_triDepths st) with
  | Done _ => ∃ st', CalculateTriangleDepths_ov_body triangles fixedEdges
                       overlapCount order st = Done st'
  | Undefined => CalculateTriangleDepths_ov_body triangles fixedEdges
                   overlapCount order st = Undefined
  | OutOfFuel => CalculateTriangleDepths_ov_body triangles fixedEdges
                   overlapCount order st = OutOfFuel
  end.
Proof.
  unfold CalculateTriangleDepths_ov_body.
  destruct (PeelLayer_ov _ _ _ _ _ _) as [[newSeeds d']| |]; simpl; [|done..].
  destruct (record_seeds newSeeds _) as [deep' sbd']. eauto.
Qed.

(** Once the seeds are used up, the loop only counts up to the deepest
    recorded depth. *)
Lemma CalculateTriangleDepths_ov_loop_idle (overlapCount : gmap Edge N) fuel st :
  ds_seeds st = [] →
  (∀ k, pending (ds_seedsByDepth st) k = ∅) →
  ds_layerDepth st < ds_deepestSeedDepth st →
  ds_deepestSeedDepth st ≤ LayerDepth_max →
  (N.to_nat (ds_deepestSeedDepth st - ds_layerDepth st) ≤ fuel)%nat →
  CalculateTriangleDepths_ov_loop triangles fixedEdges overlapCount order2 fuel st
  = Done (ds_triDepths st).
Proof.
  revert st. induction fuel as [|fuel IH]; intros st Hseeds Hpend Hlt Hmax Hfuel; [lia|].
  simpl.
  assert (Hpeel : PeelLayer_ov triangles fixedEdges overlapCount
            (ds_seeds st) (ds_layerDepth st) (ds_triDepths st)
          = Done (∅, ds_triDepths st)).
  { rewrite Hseeds. apply PeelLayer_ov_loop_nil. }
  pose proof (CalculateTriangleDepths_ov_body_outcome overlapCount order2 st) as Hout.
  rewrite Hpeel in Hout. destruct Hout as [st' Hbody]. rewrite Hbody. simpl.
  destruct (CalculateTriangleDepths_ov_body_Done _ _ _ _ _ _ Hbody)
    as (newSeeds & Hpeel' & HL' & Hseeds' & Hpend' & Hle & _ & Hdeep).
  rewrite Hpeel in Hpeel'. injection Hpeel' as <- Hd.
  assert (Hpend0 : ∀ k, pending (ds_seedsByDepth st') k = ∅).
  { intros k. apply set_eq. intros t. rewrite Hpend', Hpend, lookup_empty. set_solver. }
  assert (Hdeep' : ds_deepestSeedDepth st' = ds_deepestSeedDepth st).
  { destruct Hdeep as [?|(t & Ht)]; [done|]. by rewrite lookup_empty in Ht. }
  assert (HL : ds_layerDepth st' = ds_layerDepth st + 1).
  { rewrite HL'. apply LayerDepth_of_succ. lia. }
  assert (Hs' : ds_seeds st' = []).
  { rewrite Hseeds', Hpend0. by apply stack_of_order_empty. }
  unfold CalculateTriangleDepths_ov_continue. rewrite Hs', Hdeep', HL.
  rewrite bool_decide_true by done. simpl.
  destruct (N.ltb_spec (ds_layerDepth st + 1) (ds_deepestSeedDepth st)) as [Hcont|Hstop].
  - rewrite IH; [by rewrite Hd|done|done|rewrite HL, Hdeep'; lia|
                 rewrite Hdeep'; lia|rewrite HL, Hdeep'; lia].
  - by rewrite Hd.
Qed.

(** Without overlap counts every recorded depth is the next layer. *)
Lemma PeelLayer_ov_empty seeds L d bbm d' :
  PeelLayer_ov triangles fixedEdges ∅ seeds L d = Done (bbm, d') →
  PeelLayer triangles fixedEdges seeds L d = Done (dom bbm, d')
  ∧ ∀ t k, bbm !! t = Some k → k = LayerDepth_of (L + 1).
Proof.
  intros Hrun.
  pose proof (PeelLayer_ov_sim triangles fixedEdges ∅ seeds L d) as Hsim.
  rewrite Hrun in Hsim. destruct Hsim as [Hpeel Hfrom]. split; [done|].
  intros t k Hk. destruct (Hfrom t k Hk) as (iT & i & e & _ & _ & _ & _ & ->).
  unfold behind_depth. by rewrite lookup_empty.
Qed.

Lemma CalculateTriangleDepths_lockstep f1 f2 seeds1 st :
  (∀ x, x ∈ seeds1 ↔ x ∈ ds_seeds st) →
  (∀ k, k ≠ ds_layerDepth st → pending (ds_seedsByDepth st) k = ∅) →
  ds_deepestSeedDepth st ≤ ds_layerDepth st →
  ds_layerDepth st ≤ LayerDepth_max →
  depths_below (ds_layerDepth st) (ds_triDepths st) →
  (f1 + N.to_nat LayerDepth_max + 2 ≤ f2)%nat →
  loop f1 seeds1 (ds_layerDepth st) (ds_triDepths st) ≠ OutOfFuel →
  loop_ov f2 st = loop f1 seeds1 (ds_layerDepth st) (ds_triDepths st).
Proof.
  revert f2 seeds1 st. induction f1 as [|f1 IH];
    intros f2 seeds1 st Hseeds Hpend Hdeep HL Hbelow Hfuel Hrun; [done|].
  destruct f2 as [|f2]; [lia|]. simpl in Hrun |- *.
  rewrite (PeelLayer_seeds_equiv triangles fixedEdges _ _ seeds1 (ds_seeds st) Hseeds)
    in Hrun |- *.
  pose proof (CalculateTriangleDepths_ov_body_outcome ∅ order2 st) as Hout.
  destruct (PeelLayer_ov triangles fixedEdges ∅ (ds_seeds st) (ds_layerDepth st)
              (ds_triDepths st)) as [[bbm d']| |] eqn:Hov.
  - (* the layer is peeled *)
    destruct Hout as [st' Hbody]. rewrite Hbody. simpl.
    destruct (PeelLayer_ov_empty _ _ _ _ _ Hov) as [Hpeel Hvals].
    rewrite Hpeel in Hrun |- *. simpl in Hrun |- *.
    destruct (CalculateTriangleDepths_ov_body_Done _ _ _ _ _ _ Hbody)
      as (newSeeds & Hpeel' & HL' & Hseeds' & Hpend' & Hle & Hall & Hmax).
    rewrite Hov in Hpeel'. injection Hpeel' as <- Hd.
    set (c := LayerDepth_of (ds_layerDepth st + 1)) in *.
    assert (Hpc : pending (ds_seedsByDepth st') c = dom bbm).
    { apply set_eq. intros t. rewrite Hpend', elem_of_dom. split.
      - intros [[Hk Ht]|Ht]; [|eauto]. rewrite (Hpend c Hk) in Ht. set_solver.
      - intros [k Hk]. right. by rewrite <- (Hvals t k Hk). }
    assert (Hpk : ∀ k, k ≠ c → pending (ds_seedsByDepth st') k = ∅).
    { intros k Hk. apply set_eq. intros t. rewrite Hpend'. split; [|set_solver].
      intros [[Hk' Ht]|Ht].
      - by rewrite (Hpend k Hk') in Ht.
      - exfalso. apply Hk. by apply (Hvals t k). }
    rewrite <- HL' in Hpc, Hpk. rewrite Hpc in Hseeds'.
    destruct (decide (dom bbm = ∅)) as [Hempty|Hne].
    + (* nothing behind the boundary: the overload without overlaps returns *)
      rewrite Hempty in Hseeds' |- *.
      rewrite (stack_of_order_empty order1 order1_enumerates).
      rewrite (stack_of_order_empty order2 order2_enumerates) in Hseeds'.
      assert (Hbbm : bbm = ∅) by (by apply dom_empty_inv_L).
      assert (Hdeep' : ds_deepestSeedDepth st' = ds_deepestSeedDepth st).
      { destruct Hmax as [?|(t & Ht)]; [done|]. rewrite Hbbm in Ht.
        by rewrite lookup_empty in Ht. }
      unfold CalculateTriangleDepths_ov_continue.
      rewrite Hseeds', bool_decide_true by done. simpl.
      destruct (N.ltb_spec (ds_layerDepth st') (ds_deepestSeedDepth st')) as [Hcont|Hstop];
        [|by rewrite Hd].
      rewrite CalculateTriangleDepths_ov_loop_idle; [by rewrite Hd|done| |done| |].
      * intros k. destruct (decide (k = ds_layerDepth st')) as [->|Hk].
        -- by rewrite Hpc.
        -- by apply Hpk.
      * lia.
      * lia.
    + (* the next layer has seeds: both overloads go on *)
      assert (Hn : ∃ n, n ∈ dom bbm).
      { apply set_choose_L. done. }
      destruct Hn as [n Hn].
      destruct (behind_unassigned triangles fixedEdges _ _ _ _ _ n Hbelow HL Hpeel Hn)
        as [_ Hlt].
      assert (Hc : c = ds_layerDepth st + 1) by (by apply LayerDepth_of_succ).
      assert (Hs1 : stack_of_range (order1 (dom bbm)) ≠ []).
      { by rewrite (stack_of_order_nil order1 order1_enumerates). }
      assert (Hs2 : ds_seeds st' ≠ []).
      { rewrite Hseeds'. by rewrite (stack_of_order_nil order2 order2_enumerates). }
      unfold CalculateTriangleDepths_ov_continue.
      rewrite bool_decide_false by done. simpl.
      destruct (stack_of_range (order1 (dom bbm))) as [|s1 rest1] eqn:Hstack1; [done|].
      fold c in Hrun |- *. rewrite <- HL', Hd in Hrun |- *.
      apply IH; try done.
      * intros x. rewrite <- Hstack1, Hseeds'.
        by rewrite (elem_of_stack_of_order order1 order1_enumerates),
                   (elem_of_stack_of_order order2 order2_enumerates).
      * destruct Hmax as [->|(t & Ht)]; [lia|].
        rewrite (Hvals _ _ Ht). fold c. lia.
      * lia.
      * rewrite HL', Hc, <- Hd. by eapply depths_below_next.
      * lia.
  - (* an index is out of range *)
    rewrite Hout. pose proof (PeelLayer_ov_sim triangles fixedEdges ∅
      (ds_seeds st) (ds_layerDepth st) (ds_triDepths st)) as Hsim.
    rewrite Hov in Hsim. by rewrite Hsim.
  - pose proof (PeelLayer_ov_sim triangles fixedEdges ∅
      (ds_seeds st) (ds_layerDepth st) (ds_triDepths st)) as Hsim.
    rewrite Hov in Hsim. by apply PeelLayer_never_OutOfFuel in Hsim.
Qed.
End DepthsEquiv.

(** ** [CalculateTriangleDepths], the overload with overlaps: invariants *)

Section DepthsOverlapInv.
Context `{CDTUtils}.
Variables (triangles : list Triangle) (fixedEdges : gset Edge).
Variable overlapCount : gmap Edge N.
Variable order : gset N → list N.
Hypothesis order_enumerates : enumerates order.

Local Abbreviation ov_in_range := (ov_in_range triangles).
Local Abbreviation ov_reached := (ov_reached triangles).

Local Abbreviation body :=
  (CalculateTriangleDepths_ov_body triangles fixedEdges overlapCount order).
Local Abbreviation loop :=
  (CalculateTriangleDepths_ov_loop triangles fixedEdges overlapCount order).

(** A property kept by the body of the loop holds of the state the
    depths are returned from. *)
Lemma CalculateTriangleDepths_ov_loop_inv (I : DepthState → Prop) fuel st depths :
  (∀ st st', I st → body st = Done st' → I st') →
  I st → loop fuel st = Done depths →
  ∃ st', I st' ∧ ds_triDepths st' = depths.
Proof.
  intros Hstep. revert st. induction fuel as [|fuel IH]; intros st HI Hrun; [done|].
  simpl in Hrun. destruct (body st) as [st'| |] eqn:Hbody; simpl in Hrun; [|done..].
  pose proof (Hstep st st' HI Hbody) as HI'.
  destruct (CalculateTriangleDepths_ov_continue st').
  - by eapply IH.
  - injection Hrun as <-. by exists st'.
Qed.

Lemma CalculateTriangleDepths_ov_loop_defined (I : DepthState → Prop) fuel st :
  (∀ st st', I st → body st = Done st' → I st') →
  (∀ st, I st → body st ≠ Undefined) →
  I st → loop fuel st ≠ Undefined.
Proof.
  intros Hstep Hdef. revert st. induction fuel as [|fuel IH]; intros st HI; [done|].
  simpl. destruct (body st) as [st'| |] eqn:Hbody; simpl; [|by apply Hdef in HI|done].
  pose proof (Hstep st st' HI Hbody) as HI'.
  destruct (CalculateTriangleDepths_ov_continue st'); [by apply IH|done].
Qed.

(** What the body gets from [PeelLayer]. *)
Lemma CalculateTriangleDepths_ov_body_peel st st' :
  body st = Done st' →
  ∃ bbm,
    PeelLayer triangles fixedEdges (ds_seeds st) (ds_layerDepth st) (ds_triDepths st)
    = Done (dom bbm, ds_triDepths st')
    ∧ recorded_from triangles fixedEdges overlapCount (ds_layerDepth st)
        (ds_triDepths st) (ds_seeds st) bbm
    ∧ ds_layerDepth st' = LayerDepth_of (ds_layerDepth st + 1)
    ∧ (∀ t, t ∈ ds_seeds st'
            ↔ t ∈ pending (ds_seedsByDepth st') (ds_layerDepth st'))
    ∧ (∀ k t, t ∈ pending (ds_seedsByDepth st') k
              ↔ (k ≠ ds_layerDepth st ∧ t ∈ pending (ds_seedsByDepth st) k)
                ∨ bbm !! t = Some k)
    ∧ ds_deepestSeedDepth st ≤ ds_deepestSeedDepth st'
    ∧ (∀ t k, bbm !! t = Some k → k ≤ ds_deepestSeedDepth st')
    ∧ (ds_deepestSeedDepth st' = ds_deepestSeedDepth st
       ∨ ∃ t, bbm !! t = Some (ds_deepestSeedDepth st')).
Proof.
  intros Hbody.
  destruct (CalculateTriangleDepths_ov_body_Done _ _ _ _ _ _ Hbody)
    as (bbm & Hpeel & HL & Hseeds & Hpend & Hrest).
  pose proof (PeelLayer_ov_sim triangles fixedEdges overlapCount
                (ds_seeds st) (ds_layerDepth st) (ds_triDepths st)) as Hsim.
  rewrite Hpeel in Hsim. destruct Hsim as [Hsim Hfrom].
  exists bbm. split; [done|]. split; [done|]. split; [done|].
  split; [|done]. intros t. rewrite Hseeds. by apply elem_of_stack_of_order.
Qed.


Lemma ov_in_range_step st st' :
  ov_in_range st → body st = Done st' → ov_in_range st'.
Proof.
  intros (Hlen & Hseeds & Hpend) Hbody.
  destruct (CalculateTriangleDepths_ov_body_peel st st' Hbody)
    as (bbm & Hpeel & _ & _ & Hseeds' & Hpend' & _).
  destruct (PeelLayer_Done_set triangles fixedEdges _ _ _ _ _ Hpeel)
    as (X & _ & Hlen' & _).
  assert (Hp : ∀ k t, t ∈ pending (ds_seedsByDepth st') k → t < vec_size triangles).
  { intros k t Ht. apply Hpend' in Ht as [[_ Ht]|Ht]; [by eapply Hpend|].
    assert (Hd : t ∈ dom bbm) by (apply elem_of_dom; eauto).
    destruct (PeelLayer_Done_behind triangles fixedEdges _ _ _ _ _ t Hpeel Hd)
      as (v & _ & Hv & _).
    assert (Hlt : t < vec_size (ds_triDepths st)) by (apply vec_at_is_Some; eauto).
    unfold vec_size in *. by rewrite <- Hlen. }
  split; [congruence|]. split; [|done].
  intros s Hs. apply Hseeds' in Hs. by eapply Hp.
Qed.

Lemma ov_in_range_defined st :
  neighbors_in_range triangles → ov_in_range st → body st ≠ Undefined.
Proof.
  intros Hnb (Hlen & Hseeds & _).
  destruct (PeelLayer_returns triangles fixedEdges (ds_seeds st) (ds_layerDepth st)
              (ds_triDepths st)) as (bb & d' & Hrun).
  { intros t. by apply in_range_usable. }
  pose proof (PeelLayer_ov_sim triangles fixedEdges overlapCount
                (ds_seeds st) (ds_layerDepth st) (ds_triDepths st)) as Hsim.
  pose proof (CalculateTriangleDepths_ov_body_outcome triangles fixedEdges
                overlapCount order st) as Hout.
  destruct (PeelLayer_ov _ _ _ _ _ _) as [[bbm d'']| |].
  - destruct Hout as [st' ->]. done.
  - congruence.
  - congruence.
Qed.


Lemma ov_reached_step seed st st' :
  ov_reached seed st → body st = Done st' → ov_reached seed st'.
Proof.
  intros (Hlen & Honly & Hseeds & Hpend) Hbody.
  destruct (CalculateTriangleDepths_ov_body_peel st st' Hbody)
    as (bbm & Hpeel & _ & _ & Hseeds' & Hpend' & _).
  destruct (PeelLayer_Done_set triangles fixedEdges _ _ _ _ _ Hpeel)
    as (X & _ & Hlen' & _).
  destruct (PeelLayer_reached triangles fixedEdges seed _ _ _ _ _ Hseeds Honly Hpeel)
    as [Honly' Hbb].
  assert (Hp : ∀ k t, t ∈ pending (ds_seedsByDepth st') k →
                      reached_from triangles seed t).
  { intros k t Ht. apply Hpend' in Ht as [[_ Ht]|Ht]; [by eapply Hpend|].
    apply Hbb, elem_of_dom. eauto. }
  split; [congruence|]. split; [done|]. split; [|done].
  intros s Hs. apply Hseeds' in Hs. by eapply Hp.
Qed.

Lemma ov_reached_init seed :
  ov_reached seed (CalculateTriangleDepths_ov_init triangles seed).
Proof.
  unfold ov_reached, CalculateTriangleDepths_ov_init; simpl.
  split; [apply length_replicate|]. split; [|split].
  - intros t v Hv Hne. unfold vec_at in Hv. by apply lookup_replicate in Hv as [-> _].
  - intros s Hs. apply list_elem_of_singleton in Hs as ->. apply rtc_refl.
  - intros k t Ht. unfold pending in Ht. rewrite lookup_empty in Ht. set_solver.
Qed.

Lemma ov_in_range_init seed :
  seed < vec_size triangles →
  ov_in_range (CalculateTriangleDepths_ov_init triangles seed).
Proof.
  intros Hseed. unfold ov_in_range, CalculateTriangleDepths_ov_init; simpl.
  split; [apply length_replicate|]. split.
  - intros s Hs. by apply list_elem_of_singleton in Hs as ->.
  - intros k t Ht. unfold pending in Ht. rewrite lookup_empty in Ht. set_solver.
Qed.
End DepthsOverlapInv.

(** ** [CalculateTriangleDepths]: the layers of the overload with overlaps *)

Lemma elements_enumerates : enumerates elements.
Proof. intros s x. apply elem_of_elements. Qed.

Lemma reverse_elements_enumerates : enumerates (λ s, reverse (elements s)).
Proof. intros s x. rewrite elem_of_reverse. apply elem_of_elements. Qed.



Example CalculateTriangleDepths_ov_example :
  CalculateTriangleDepths_ov (H := spec_utils) example_triangles
    {[ mkEdge 1 2; mkEdge 0 2; mkEdge 2 3 ]} {[ mkEdge 1 2 := 1 ]} elements 0
  = Done [0; 2; 1].
Proof. vm_compute. reflexivity. Qed.

(** C10. With an empty [overlapCount], the overload of
    [CalculateTriangleDepths] with overlaps returns the depths that the
    overload without overlaps returns, for the same seed, triangles and
    fixed edges, whatever the orders in which the two iterate over their
    unordered sets. *)
Theorem CalculateTriangleDepths_ov_empty_overlapCount `{CDTUtils}
    (triangles : list Triangle) (fixedEdges : gset Edge)
    (order1 order2 : gset N → list N) (seed : TriInd) :
  enumerates order1 → enumerates order2 →
  CalculateTriangleDepths_ov triangles fixedEdges ∅ order2 seed
  = CalculateTriangleDepths triangles fixedEdges order1 seed.
Proof.
  intros Ho1 Ho2.
  unfold CalculateTriangleDepths_ov, CalculateTriangleDepths.
  apply (CalculateTriangleDepths_lockstep triangles fixedEdges order1 order2 Ho1 Ho2
           (length triangles + 2) (CalculateTriangleDepths_ov_fuel triangles)
           [seed] (CalculateTriangleDepths_ov_init triangles seed)); simpl.
  - done.
  - intros k _. unfold pending. by rewrite lookup_empty.
  - lia.
  - lia.
  - apply depths_below_init.
  - unfold CalculateTriangleDepths_ov_fuel. lia.
  - by apply CalculateTriangleDepths_never_OutOfFuel.
Qed.

(** The two overloads on [example_triangles] with the edge [(1, 2)] fixed,
    iterating in opposite orders. *)
Lemma CalculateTriangleDepths_ov_empty_overlapCount_witness :
  CalculateTriangleDepths_ov (H := spec_utils) example_triangles
    {[ mkEdge 1 2 ]} ∅ (λ s, reverse (elements s)) 0
  = CalculateTriangleDepths (H := spec_utils) example_triangles
      {[ mkEdge 1 2 ]} elements 0.
Proof.
  exact (CalculateTriangleDepths_ov_empty_overlapCount (H := spec_utils)
    example_triangles {[ mkEdge 1 2 ]} elements (λ s, reverse (elements s)) 0
    elements_enumerates reverse_elements_enumerates).
Defined.

(** ** [CalculateTriangleDepths], the overload with overlaps: the loop ends *)

Section Assigned.
Context `{CDTUtils}.


Lemma assigned_count_cons v d :
  assigned_count (v :: d)
  = if decide (v < LayerDepth_max) then S (assigned_count d) else assigned_count d.
Proof.
  unfold assigned_count. rewrite list.filter_cons.
  by destruct (decide (v < LayerDepth_max)).
Qed.

Lemma assigned_count_length d : (assigned_count d ≤ length d)%nat.
Proof. apply list.length_filter. Qed.

(** Setting some depths to a layer below [LayerDepth_max] does not lower
    the count, and raises it when one of them was [LayerDepth_max]. *)
Lemma assigned_count_pointwise L d d' :
  L < LayerDepth_max →
  length d' = length d →
  (∀ i : nat, d' !! i = d !! i ∨ d' !! i = Some L) →
  (assigned_count d ≤ assigned_count d')%nat
  ∧ ∀ i : nat, d !! i = Some LayerDepth_max → d' !! i = Some L →
      (assigned_count d < assigned_count d')%nat.
Proof.
  intros HL. revert d'. induction d as [|x d IH]; intros [|x' d'] Hlen Hpt;
    simpl in Hlen; try discriminate.
  - split; [unfold assigned_count; simpl; lia|]. intros i Hi. by rewrite lookup_nil in Hi.
  - assert (Hlen' : length d' = length d) by lia.
    assert (Hpt' : ∀ i : nat, d' !! i = d !! i ∨ d' !! i = Some L).
    { intros i. apply (Hpt (S i)). }
    destruct (IH d' Hlen' Hpt') as [Hle Hstrict].
    rewrite !assigned_count_cons.
    assert (Hhead : x' = x ∨ x' = L).
    { destruct (Hpt 0%nat) as [Hh|Hh]; simpl in Hh; injection Hh as ->; eauto. }
    split.
    + destruct Hhead as [->| ->].
      * destruct (decide (x < LayerDepth_max)); lia.
      * rewrite (decide_True (P := L < LayerDepth_max)) by done.
        destruct (decide (x < LayerDepth_max)); lia.
    + intros [|i] Hi Hi'; simpl in Hi, Hi'.
      * injection Hi as ->. injection Hi' as ->.
        rewrite (decide_True (P := L < LayerDepth_max)) by done.
        rewrite (decide_False (P := LayerDepth_max < LayerDepth_max)) by lia. lia.
      * specialize (Hstrict i Hi Hi').
        destruct Hhead as [->| ->].
        -- destruct (decide (x < LayerDepth_max)); lia.
        -- rewrite (decide_True (P := L < LayerDepth_max)) by done.
           destruct (decide (x < LayerDepth_max)); lia.
Qed.
End Assigned.

Section DepthsOverlapFuel.
Context `{CDTUtils}.
Variables (triangles : list Triangle) (fixedEdges : gset Edge).
Variable overlapCount : gmap Edge N.
Variable order : gset N → list N.
Hypothesis order_enumerates : enumerates order.
(** a bound on the overlap counts, small enough for the depths never to
    reach [LayerDepth_max] *)
Variable K : N.
Hypothesis overlaps_bounded : ∀ e k, overlapCount !! e = Some k → k ≤ K.
Hypothesis depths_fit : (vec_size triangles + 1) * (K + 1) ≤ LayerDepth_max.

Local Abbreviation ov_bounded := (ov_bounded triangles K).
Local Abbreviation ob_len := (ob_len triangles K).
Local Abbreviation ob_layer := (ob_layer triangles K).
Local Abbreviation ob_below := (ob_below triangles K).
Local Abbreviation ob_deep := (ob_deep triangles K).
Local Abbreviation ob_pend_le := (ob_pend_le triangles K).
Local Abbreviation ob_pend := (ob_pend triangles K).
Local Abbreviation ob_seeds := (ob_seeds triangles K).

Local Abbreviation body :=
  (CalculateTriangleDepths_ov_body triangles fixedEdges overlapCount order).
Local Abbreviation loop :=
  (CalculateTriangleDepths_ov_loop triangles fixedEdges overlapCount order).


Lemma room_mono (a a' x : N) : x ≤ a * (K + 1) → a ≤ a' → x ≤ a' * (K + 1).
Proof. nia. Qed.

Lemma room_step (a a' x : N) :
  x ≤ a * (K + 1) → a + 1 ≤ a' → x + K + 1 ≤ a' * (K + 1).
Proof. nia. Qed.


Lemma peeled_has_seed L d seeds t :
  peeled triangles fixedEdges d L seeds t → ∃ s, s ∈ seeds.
Proof. induction 1; eauto. Qed.

Lemma assigned_le_size d : length d = length triangles → assigned d ≤ vec_size triangles.
Proof.
  intros Hlen. pose proof (assigned_count_length d). unfold vec_size, assigned. lia.
Qed.

Lemma behind_depth_le L e :
  L + K + 1 ≤ LayerDepth_max →
  behind_depth overlapCount L e ≤ L + K + 1.
Proof.
  intros HL. unfold behind_depth. destruct (overlapCount !! e) as [k|] eqn:Hk.
  - pose proof (overlaps_bounded e k Hk). rewrite LayerDepth_of_small; lia.
  - rewrite LayerDepth_of_small; lia.
Qed.

Lemma ov_bounded_step st st' :
  ov_bounded st → body st = Done st' →
  CalculateTriangleDepths_ov_continue st' = true →
  ov_bounded st' ∧ ds_layerDepth st' = ds_layerDepth st + 1.
Proof.
  intros Hinv Hbody Hcont.
  destruct (CalculateTriangleDepths_ov_body_peel triangles fixedEdges overlapCount
              order order_enumerates st st' Hbody)
    as (bbm & Hpeel & Hfrom & HL' & Hseeds' & Hpend' & Hdle & Hdall & Hdmax).
  destruct Hinv as [Hlen HL Hbelow Hdeep Hple Hpend Hseeds].
  set (L := ds_layerDepth st) in *. set (d := ds_triDepths st) in *.
  set (d' := ds_triDepths st') in *.
  assert (Hlt : L + K + 1 ≤ LayerDepth_max) by nia.
  assert (HL'' : ds_layerDepth st' = L + 1).
  { rewrite HL'. apply LayerDepth_of_succ. lia. }
  destruct (PeelLayer_Done_set triangles fixedEdges _ _ _ _ _ Hpeel)
    as (X & HX & Hlen' & Hin & Hout & Hbb).
  assert (Hpt : ∀ i : nat, d' !! i = d !! i ∨ d' !! i = Some L).
  { intros i. destruct (decide (N.of_nat i ∈ X)) as [Hi|Hi].
    - right. destruct (Hin _ Hi) as [HiL _]. unfold vec_at in HiL.
      by rewrite Nat2N.id in HiL.
    - left. pose proof (Hout _ Hi) as Hio. unfold vec_at in Hio.
      by rewrite Nat2N.id in Hio. }
  destruct (assigned_count_pointwise L d d' ltac:(lia) Hlen' Hpt) as [HA0 HAstrict].
  assert (HA : assigned d ≤ assigned d') by (unfold assigned; lia).
  assert (HA' : assigned d' ≤ vec_size triangles).
  { apply assigned_le_size. transitivity (length d); [exact Hlen'|exact Hlen]. }
  assert (Hvals : ∀ t v, vec_at d t = Some v → v = LayerDepth_max ∨ v < LayerDepth_max).
  { intros t v Hv. destruct (Hbelow t v Hv); [right; lia|by left]. }
  (* a triangle popped in this layer makes room for one more layer *)
  assert (Hpop : ∀ t v, t ∈ X → vec_at d t = Some v →
            (v = LayerDepth_max → (assigned d + 1) ≤ assigned d')).
  { intros t v Ht Hv ->. destruct (Hin t Ht) as [HtL _].
    specialize (HAstrict (N.to_nat t) Hv HtL). unfold assigned. lia. }
  assert (Htarget : ∀ t k, bbm !! t = Some k →
            k ≤ L + K + 1 ∧ vec_at d' t = Some LayerDepth_max).
  { intros t k Hk. split.
    - destruct (Hfrom t k Hk) as (iT & i & e & _ & _ & _ & _ & ->).
      by apply behind_depth_le.
    - assert (Hd : t ∈ dom bbm) by (apply elem_of_dom; eauto).
      by destruct (behind_unassigned triangles fixedEdges _ _ _ _ _ t Hbelow
                     ltac:(lia) Hpeel Hd). }
  assert (Hroom : ∀ t k, bbm !! t = Some k → L + K + 1 ≤ assigned d' * (K + 1)).
  { intros t k Hk.
    assert (Hd : t ∈ dom bbm) by (apply elem_of_dom; eauto).
    apply Hbb in Hd as [_ (t0 & Ht0 & _)].
    apply HX in Ht0. destruct (peeled_has_seed _ _ _ _ Ht0) as [s Hs].
    assert (HsX : s ∈ X) by (apply HX; by apply peeled_seed).
    destruct (Hin s HsX) as [_ [Hsr _]].
    apply vec_at_is_Some in Hsr as [v Hv].
    destruct (Hseeds s v Hs Hv) as [Hmax Hless].
    destruct (Hvals s v Hv) as [Hvm|Hvm].
    - specialize (Hmax Hvm). pose proof (Hpop s v HsX Hv Hvm).
      by apply (room_step (assigned d)).
    - specialize (Hless Hvm). by apply (room_mono (assigned d)). }
  assert (Hpend_new : ∀ k t v,
    t ∈ pending (ds_seedsByDepth st') k → L + 1 ≤ k →
    vec_at d' t = Some v →
    (v = LayerDepth_max → k ≤ assigned d' * (K + 1))
    ∧ (v < LayerDepth_max → k + K + 1 ≤ assigned d' * (K + 1))).
  { intros k t v Ht Hk Hv. apply Hpend' in Ht as [[Hne Ht]|Ht].
    - destruct (decide (t ∈ X)) as [HtX|HtX].
      + destruct (Hin t HtX) as [HtL [Htr _]].
        apply vec_at_is_Some in Htr as [v0 Hv0].
        destruct (Hpend k t v0 Ht ltac:(lia) Hv0) as [Hmax Hless].
        assert (v = L) by congruence. subst v. split; [lia|]. intros _.
        destruct (Hvals t v0 Hv0) as [Hvm|Hvm].
        * specialize (Hmax Hvm). pose proof (Hpop t v0 HtX Hv0 Hvm).
          by apply (room_step (assigned d)).
        * specialize (Hless Hvm). by apply (room_mono (assigned d)).
      + rewrite (Hout t HtX) in Hv.
        destruct (Hpend k t v Ht ltac:(lia) Hv) as [Hmax Hless].
        split; intros Hvm; [specialize (Hmax Hvm)|specialize (Hless Hvm)];
          by apply (room_mono (assigned d)).
    - destruct (Htarget t k Ht) as [Hk' Hvmax].
      pose proof (Hroom t k Ht). split; [intros _; lia|].
      intros Hvm. rewrite Hvmax in Hv. injection Hv as <-. lia. }
  assert (Hdeep' : ds_deepestSeedDepth st' ≤ assigned d' * (K + 1)).
  { destruct Hdmax as [->|(t & Ht)]; [by apply (room_mono (assigned d))|].
    destruct (Htarget t _ Ht) as [Hk' _]. pose proof (Hroom t _ Ht). lia. }
  assert (Hple' : ∀ k t, t ∈ pending (ds_seedsByDepth st') k →
                         k ≤ ds_deepestSeedDepth st').
  { intros k t Ht. apply Hpend' in Ht as [[_ Ht]|Ht].
    - specialize (Hple k t Ht). lia.
    - by eapply Hdall. }
  split; [|done]. split.
  - transitivity (length d); [exact Hlen'|exact Hlen].
  - rewrite HL''. unfold CalculateTriangleDepths_ov_continue in Hcont.
    apply orb_true_iff in Hcont as [Hne|Hdd].
    + apply negb_true_iff, bool_decide_eq_false in Hne.
      assert (∃ s, s ∈ ds_seeds st') as [s Hin'].
      { destruct (ds_seeds st') as [|s rest]; [done|exists s; left]. }
      apply Hseeds' in Hin'. apply Hple' in Hin'. rewrite HL'' in Hin'.
      assert (L + 1 ≤ assigned d' * (K + 1)) by lia.
      by apply (room_mono (assigned d')).
    + apply N.ltb_lt in Hdd. rewrite HL'' in Hdd.
      assert (L + 1 ≤ assigned d' * (K + 1)) by lia.
      by apply (room_mono (assigned d')).
  - rewrite HL''. by eapply depths_below_next.
  - done.
  - done.
  - intros k t v Ht Hk Hv. rewrite HL'' in Hk. by apply (Hpend_new k t v).
  - intros s v Hs Hv. apply Hseeds' in Hs. rewrite HL'' in Hs |- *.
    by apply (Hpend_new (L + 1) s v Hs).
Qed.

Lemma CalculateTriangleDepths_ov_loop_fuel fuel st :
  ov_bounded st →
  (N.to_nat (vec_size triangles * (K + 1) - ds_layerDepth st) + 1 ≤ fuel)%nat →
  loop fuel st ≠ OutOfFuel.
Proof.
  revert st. induction fuel as [|fuel IH]; intros st Hinv Hfuel; [lia|].
  simpl.
  pose proof (CalculateTriangleDepths_ov_body_outcome triangles fixedEdges
                overlapCount order st) as Hout.
  pose proof (PeelLayer_ov_sim triangles fixedEdges overlapCount
                (ds_seeds st) (ds_layerDepth st) (ds_triDepths st)) as Hsim.
  destruct (PeelLayer_ov _ _ _ _ _ _) as [[bbm d'']| |].
  - destruct Hout as [st' Hbody]. rewrite Hbody. simpl.
    destruct (CalculateTriangleDepths_ov_continue st') eqn:Hcont; [|done].
    destruct (ov_bounded_step st st' Hinv Hbody Hcont) as [Hinv' HL'].
    apply IH; [done|]. pose proof (ob_layer _ Hinv'). lia.
  - by rewrite Hout.
  - by apply PeelLayer_never_OutOfFuel in Hsim.
Qed.

Lemma ov_bounded_init seed :
  ov_bounded (CalculateTriangleDepths_ov_init triangles seed).
Proof.
  split; simpl.
  - apply length_replicate.
  - lia.
  - apply depths_below_init.
  - lia.
  - intros k t Ht. unfold pending in Ht. rewrite lookup_empty in Ht. set_solver.
  - intros k t v Ht. unfold pending in Ht. rewrite lookup_empty in Ht. set_solver.
  - intros s v _ Hv. split; [lia|].
    unfold vec_at in Hv. apply lookup_replicate in Hv as [-> _]. lia.
Qed.

Lemma CalculateTriangleDepths_ov_never_OutOfFuel seed :
  CalculateTriangleDepths_ov triangles fixedEdges overlapCount order seed ≠ OutOfFuel.
Proof.
  unfold CalculateTriangleDepths_ov. apply CalculateTriangleDepths_ov_loop_fuel.
  - apply ov_bounded_init.
  - unfold CalculateTriangleDepths_ov_fuel. simpl. nia.
Qed.
End DepthsOverlapFuel.

(** ** [CalculateTriangleDepths]: the triangles that are not reached *)

Section Unreached.
Context `{CDTUtils}.
Variables (triangles : list Triangle) (fixedEdges : gset Edge).

Lemma only_reached_unreached seed depths t :
  length depths = length triangles →
  only_reached triangles seed depths →
  t < vec_size triangles → ¬ reached_from triangles seed t →
  vec_at depths t = Some LayerDepth_max.
Proof.
  intros Hlen Honly Ht Hnot.
  assert (Hlt : t < vec_size depths) by (unfold vec_size in *; by rewrite Hlen).
  apply vec_at_is_Some in Hlt as [v Hv]. rewrite Hv. f_equal.
  destruct (decide (v = LayerDepth_max)) as [|Hne]; [done|].
  exfalso. apply Hnot. by eapply Honly.
Qed.

Lemma only_reached_init seed n :
  only_reached triangles seed (replicate n LayerDepth_max).
Proof.
  intros t v Hv Hne. unfold vec_at in Hv. by apply lookup_replicate in Hv as [-> _].
Qed.
End Unreached.



Example CalculateTriangleDepths_island :
  CalculateTriangleDepths (H := spec_utils) example_with_island
    {[ mkEdge 1 2; mkEdge 0 2; mkEdge 2 3 ]} elements 0 = Done [0; 1; 1; 65535]
  ∧ CalculateTriangleDepths_ov (H := spec_utils) example_with_island
      {[ mkEdge 1 2; mkEdge 0 2; mkEdge 2 3 ]} {[ mkEdge 1 2 := 1 ]} elements 0
    = Done [0; 2; 1; 65535].
Proof. split; vm_compute; reflexivity. Qed.

(** ** Insertion of vertices in [Randomized] order *)

(** The generator gives the numbers the C++ standard requires of
    [mt19937]: the first one, and the 10000th one, from the default seed
    5489. *)
Example mt19937_check :
  mt_nth 0 (mt19937_seed 5489) = 3499211612
  ∧ mt_nth (N.to_nat 9999) (mt19937_seed 5489) = 4123659995.
Proof. split; vm_compute; reflexivity. Qed.

Section InsertVerticesProofs.
Context `{CDTUtils} {Tri TVertex G : Type}.
Variable vertices_size : Tri → N.
Variable addSuperTriangle : list TVertex → Tri → Tri.
Variable addNewVertex : TVertex → Tri → Tri.
Variable insertVertex : VertInd → Tri → Tri.
Variable m_vertexInsertionOrder : Tri → VertexInsertionOrder.
Variable gen : G → N * G.
Variable random_shuffle : (N → G → N * G) → list N → G → list N * G.

Local Abbreviation with_super := (with_super vertices_size addSuperTriangle).
Local Abbreviation with_vertices :=
  (with_vertices vertices_size addSuperTriangle addNewVertex).
Local Abbreviation indices_to_insert :=
  (indices_to_insert vertices_size addSuperTriangle).




Lemma insertVertices_unfold range tr g :
  insertVertices vertices_size addSuperTriangle addNewVertex insertVertex
    m_vertexInsertionOrder gen random_shuffle range (tr, g)
  = match m_vertexInsertionOrder (with_vertices range tr) with
    | AsProvided =>
        (fold_left (λ tr iV, insertVertex iV tr) (indices_to_insert range tr)
           (with_vertices range tr), g)
    | Randomized =>
        (fold_left (λ tr iV, insertVertex iV tr)
           (random_shuffle (randomCDT gen) (indices_to_insert range tr) g).1
           (with_vertices range tr),
         (random_shuffle (randomCDT gen) (indices_to_insert range tr) g).2)
    end.
Proof.
  unfold insertVertices, with_vertices, with_super, indices_to_insert.
  destruct (m_vertexInsertionOrder _); [|done].
  by destruct (random_shuffle _ _ _).
Qed.
End InsertVerticesProofs.


(** ** Further properties: duplicate removal and edge remapping *)


Section DuplicatesBounds.
Context {T : Type} `{Countable T} {TVertex : Type}.
Variables (getX getY : TVertex → T).
Local Abbreviation step := (FindDuplicates_step getX getY).

Lemma find_bounds_init n : find_bounds (FindDuplicates_init (T := T) n).
Proof.
  unfold find_bounds, FindDuplicates_init; simpl.
  split; [lia|]. split; [lia|]. split; [|split; [|split]].
  - intros i j a b _ Hi. by rewrite lookup_nil in Hi.
  - intros a Ha. by apply elem_of_nil in Ha.
  - intros k m Hk. by rewrite lookup_empty in Hk.
  - intros i m Hi. lia.
Qed.

Lemma find_bounds_step (st : @FindState T _ _) v :
  find_bounds st → find_bounds (step st v).
Proof.
  intros (Hle & Hsum & Hsort & Hdup & Huv & Hmap).
  unfold find_bounds, FindDuplicates_step.
  destruct (uniqueVerts st !! V2d_make (getX v) (getY v)) as [j|] eqn:Hkey; simpl.
  - pose proof (Huv _ _ Hkey) as Hj.
    split; [lia|]. split; [rewrite length_app; simpl; lia|].
    split; [|split; [|split]].
    + intros i1 i2 a b Hlt Ha Hb.
      apply lookup_app_Some in Ha as [Ha|[Hge Ha]];
        apply lookup_app_Some in Hb as [Hb|[Hge' Hb]].
      * by apply (Hsort i1 i2).
      * apply list_lookup_singleton_Some in Hb as [_ <-].
        apply Hdup. by eapply list_elem_of_lookup_2.
      * apply lookup_lt_Some in Hb. lia.
      * apply list_lookup_singleton_Some in Ha as [Ha _].
        apply list_lookup_singleton_Some in Hb as [Hb _]. lia.
    + intros a Ha. apply elem_of_app in Ha as [Ha|Ha].
      * apply Hdup in Ha. lia.
      * apply list_elem_of_singleton in Ha as ->. lia.
    + done.
    + intros i m Hi Hm. unfold vec_at, vec_set in Hm.
      apply list_lookup_insert_Some in Hm as [(Heq & <- & _)|[Hne Hm]].
      * assert (i = iIn st) as -> by lia. lia.
      * apply Hmap; [|done]. lia.
  - split; [lia|]. split; [lia|]. split; [done|]. split; [|split].
    + intros a Ha. apply Hdup in Ha. lia.
    + intros k m Hk. apply lookup_insert_Some in Hk as [[_ <-]|[_ Hk]]; [lia|].
      apply Huv in Hk. lia.
    + intros i m Hi Hm. unfold vec_at, vec_set in Hm.
      apply list_lookup_insert_Some in Hm as [(Heq & <- & _)|[Hne Hm]].
      * assert (i = iIn st) as -> by lia. lia.
      * destruct (Hmap i m) as [? ?]; [lia|done|]. lia.
Qed.

Lemma find_bounds_fold q (st : @FindState T _ _) :
  find_bounds st → find_bounds (fold_left step q st).
Proof.
  revert st. induction q as [|v q IH]; intros st Hst; simpl; [done|].
  by apply IH, find_bounds_step.
Qed.

Lemma FindDuplicates_bounds vs :
  find_bounds (fold_left step vs (FindDuplicates_init (length vs))).
Proof. apply find_bounds_fold, find_bounds_init. Qed.

End DuplicatesBounds.

(** X1. [FindDuplicates] lists the duplicates in strictly increasing order
    of index, all of them indices of the input; the vector left by
    [RemoveDuplicates] has one entry less per duplicate; and every entry of
    the mapping is at most its own index and is an index of the vector left
    by the removal. *)
Theorem FindDuplicates_indices_in_range {T : Type} `{Countable T} {TVertex : Type}
    (getX getY : TVertex → T) (vs : list TVertex) :
  let di := FindDuplicates getX getY vs in
  let kept := RemoveDuplicates vs (duplicates di) in
  (∀ (i j : nat) a b, (i < j)%nat →
     duplicates di !! i = Some a → duplicates di !! j = Some b → a < b)
  ∧ (∀ a, a ∈ duplicates di → a < vec_size vs)
  ∧ (length kept + length (duplicates di) = length vs)%nat
  ∧ (∀ i m, vec_at (mapping di) i = Some m → m ≤ i ∧ m < vec_size kept).
Proof.
  intros di kept.
  destruct (FindDuplicates_bounds getX getY vs)
    as (Hle & Hsum & Hsort & Hdup & _ & Hmap).
  destruct (FindDuplicates_inv getX getY vs)
    as (HiIn & HiOut & Hlen & _ & _ & _ & _ & Hrem).
  rewrite HiIn in Hsum, Hdup, Hmap. rewrite HiOut in Hsum, Hmap.
  fold (FindDuplicates getX getY vs) in Hsum, Hsort, Hdup, Hmap, Hlen, Hrem.
  fold di in Hsum, Hsort, Hdup, Hmap, Hlen, Hrem.
  assert (Hkept : kept = survivors getX getY vs) by exact Hrem.
  split; [exact Hsort|]. split; [exact Hdup|]. split.
  - rewrite Hkept. lia.
  - intros i m Hm. rewrite Hkept. apply Hmap; [|done].
    assert (Hi : i < vec_size (mapping di)) by (apply vec_at_is_Some; eauto).
    unfold vec_size in Hi. by rewrite Hlen in Hi.
Qed.

Section SurvivorsProofs.
Context {T : Type} `{Countable T} {TVertex : Type}.
Variables (getX getY : TVertex → T).
Local Abbreviation pos := (position getX getY).
Local Abbreviation surv := (survivors getX getY).

Lemma survivors_NoDup p : NoDup (pos <$> surv p).
Proof.
  induction p as [|v p IH] using rev_ind; [apply NoDup_nil_2|].
  rewrite survivors_snoc. destruct (decide _) as [Hin|Hout]; [done|].
  rewrite fmap_app. apply list.NoDup_app. split; [done|]. split.
  - intros k Hk Hk'. apply list_elem_of_singleton in Hk'. by subst.
  - apply NoDup_singleton.
Qed.

Lemma survivors_sublist p : surv p `sublist_of` p.
Proof.
  induction p as [|v p IH] using rev_ind; [done|].
  rewrite survivors_snoc. destruct (decide _) as [Hin|Hout].
  - by apply sublist_inserts_r.
  - by apply sublist_app.
Qed.

Lemma survivors_cover p v :
  v ∈ p → ∃ w, w ∈ surv p ∧ pos w = pos v.
Proof.
  induction p as [|u p IH] using rev_ind; [by intros ?%elem_of_nil|].
  rewrite survivors_snoc. intros Hv.
  apply elem_of_app in Hv as [Hv|Hv].
  - destruct (IH Hv) as (w & Hw & Hpos). exists w. split; [|done].
    destruct (decide _); [done|]. apply elem_of_app. by left.
  - apply list_elem_of_singleton in Hv as ->.
    destruct (decide _) as [Hin|Hout].
    + apply list_elem_of_fmap in Hin as (w & Hpos & Hw). by exists w.
    + exists u. split; [|done]. apply elem_of_app. right. by apply list_elem_of_singleton.
Qed.

Lemma survivors_unique p : NoDup (pos <$> p) → surv p = p.
Proof.
  induction p as [|v p IH] using rev_ind; [done|].
  rewrite fmap_app. intros (Hp & Hv & _)%list.NoDup_app.
  rewrite survivors_snoc, (IH Hp).
  destruct (decide _) as [Hin|Hout]; [|done].
  exfalso. apply (Hv _ Hin). by apply list_elem_of_singleton.
Qed.

Lemma FindDuplicates_duplicates_nil vs :
  duplicates (FindDuplicates getX getY vs) = [] ↔ NoDup (pos <$> vs).
Proof.
  destruct (FindDuplicates_inv getX getY vs) as (_ & _ & _ & _ & _ & _ & Hdup & _).
  fold (FindDuplicates getX getY vs) in Hdup. split.
  - intros Hnil. apply NoDup_alt. intros i j k Hi Hj.
    apply list_lookup_fmap_Some in Hi as (v & -> & Hv).
    apply list_lookup_fmap_Some in Hj as (w & Hpos & Hw).
    destruct (decide (i = j)) as [|Hne]; [done|]. exfalso.
    destruct (decide (i < j)%nat).
    + assert (Hin : N.of_nat j ∈ duplicates (FindDuplicates getX getY vs)).
      { apply Hdup. exists j, i, v, w. repeat split; try done. }
      rewrite Hnil in Hin. by apply elem_of_nil in Hin.
    + assert (Hin : N.of_nat i ∈ duplicates (FindDuplicates getX getY vs)).
      { apply Hdup. exists i, j, w, v. repeat split; try done. lia. }
      rewrite Hnil in Hin. by apply elem_of_nil in Hin.
  - intros Hnd. destruct (duplicates _) as [|a l] eqn:Hl; [done|]. exfalso.
    assert (Hin : a ∈ a :: l) by left.
    apply Hdup in Hin as (i' & j & v & w & _ & Hlt & Hv & Hw & Hpos).
    assert (j = i'); [|lia].
    eapply (proj1 (NoDup_alt _) Hnd); apply list_lookup_fmap_Some; eauto.
Qed.

Lemma FindDuplicates_mapping_identity vs :
  NoDup (pos <$> vs) →
  mapping (FindDuplicates getX getY vs) = N.of_nat <$> seq 0 (length vs).
Proof.
  intros Hnd.
  destruct (FindDuplicates_inv getX getY vs) as (_ & _ & Hlen & _ & Hfwd & _ & _ & _).
  fold (FindDuplicates getX getY vs) in Hlen, Hfwd.
  rewrite (survivors_unique vs Hnd) in Hfwd.
  apply list_eq. intros i.
  destruct (vs !! i) as [v|] eqn:Hv.
  - destruct (Hfwd i v Hv) as (m & w & Hm & Hw & Hpos).
    assert (m = i) as ->.
    { eapply (proj1 (NoDup_alt _) Hnd); apply list_lookup_fmap_Some; eauto. }
    rewrite Hm. symmetry. apply list_lookup_fmap_Some. exists i. split; [done|].
    apply lookup_seq. split; [done|]. by apply lookup_lt_Some in Hv.
  - apply lookup_ge_None in Hv.
    rewrite (proj2 (lookup_ge_None _ _)) by lia.
    symmetry. apply lookup_ge_None. rewrite length_fmap, length_seq. lia.
Qed.

End SurvivorsProofs.

Section KeptProofs.
Context {T : Type} `{Countable T} {TVertex : Type}.
Variables (getX getY : TVertex → T).

Lemma RemoveDuplicates_survivors vs :
  RemoveDuplicates vs (duplicates (FindDuplicates getX getY vs))
  = survivors getX getY vs.
Proof.
  destruct (FindDuplicates_inv getX getY vs) as (_ & _ & _ & _ & _ & _ & _ & Hrem).
  exact Hrem.
Qed.

Lemma FindDuplicates_unique vs :
  NoDup (position getX getY <$> vs) →
  FindDuplicates getX getY vs
  = {| mapping := N.of_nat <$> seq 0 (length vs); duplicates := [] |}
  ∧ RemoveDuplicates vs (duplicates (FindDuplicates getX getY vs)) = vs.
Proof.
  intros Hnd.
  pose proof (FindDuplicates_mapping_identity getX getY vs Hnd) as Hmap.
  pose proof (proj2 (FindDuplicates_duplicates_nil getX getY vs) Hnd) as Hdup.
  split.
  - destruct (FindDuplicates getX getY vs) as [m d]. simpl in *. by subst.
  - rewrite RemoveDuplicates_survivors. by apply survivors_unique.
Qed.

End KeptProofs.

(** X2. [FindDuplicates] reports no duplicate exactly when no two vertices
    have the same x and y; the mapping is then the identity
    [0, 1, ..., n - 1], and [RemoveDuplicates] leaves the vertices as they
    are. *)
Theorem FindDuplicates_without_duplicates {T : Type} `{Countable T} {TVertex : Type}
    (getX getY : TVertex → T) (vs : list TVertex) :
  let di := FindDuplicates getX getY vs in
  (duplicates di = [] ↔ NoDup (position getX getY <$> vs))
  ∧ (NoDup (position getX getY <$> vs) →
     mapping di = N.of_nat <$> seq 0 (length vs)
     ∧ RemoveDuplicates vs (duplicates di) = vs).
Proof.
  intros di. split; [apply FindDuplicates_duplicates_nil|].
  intros Hnd. split; [by apply FindDuplicates_mapping_identity|].
  destruct (FindDuplicates_inv getX getY vs) as (_ & _ & _ & _ & _ & _ & _ & Hrem).
  unfold RemoveDuplicates, di, FindDuplicates. rewrite Hrem.
  by apply survivors_unique.
Qed.

(** X3. After [RemoveDuplicates] with the duplicates found by
    [FindDuplicates], no two vertices have the same position, the vertices
    left are a subsequence of the input, every position of the input is
    still there, and a second run finds nothing: identity mapping, no
    duplicate, same vector. *)
Theorem RemoveDuplicates_keeps_first_occurrences {T : Type} `{Countable T}
    {TVertex : Type} (getX getY : TVertex → T) (vs : list TVertex) :
  let kept := RemoveDuplicates vs (duplicates (FindDuplicates getX getY vs)) in
  NoDup (position getX getY <$> kept)
  ∧ kept `sublist_of` vs
  ∧ (∀ v, v ∈ vs → ∃ w, w ∈ kept ∧ position getX getY w = position getX getY v)
  ∧ FindDuplicates getX getY kept
    = {| mapping := N.of_nat <$> seq 0 (length kept); duplicates := [] |}
  ∧ RemoveDuplicates kept (duplicates (FindDuplicates getX getY kept)) = kept.
Proof.
  intros kept. unfold kept. rewrite RemoveDuplicates_survivors.
  split; [apply survivors_NoDup|]. split; [apply survivors_sublist|].
  split; [apply survivors_cover|].
  apply FindDuplicates_unique, survivors_NoDup.
Qed.

Lemma RemapEdges_lookup (edges : list Edge) (mp : list N) edges' :
  RemapEdges edges mp = Done edges' →
  length edges' = length edges
  ∧ ∀ (k : nat) e, edges !! k = Some e →
      ∃ a b, vec_at mp (v1 e) = Some a ∧ vec_at mp (v2 e) = Some b
             ∧ edges' !! k = Some (mkEdge a b).
Proof.
  revert edges'. induction edges as [|e edges IH]; intros edges' Hre; simpl in Hre.
  - injection Hre as <-. split; [done|]. intros k e He. by rewrite lookup_nil in He.
  - unfold vec_read in Hre.
    destruct (vec_at mp (v1 e)) as [a|] eqn:Ha; [|done].
    destruct (vec_at mp (v2 e)) as [b|] eqn:Hb; [|done].
    simpl in Hre. destruct (RemapEdges edges mp) as [rest| |] eqn:Hrest; [|done..].
    simpl in Hre. injection Hre as <-.
    destruct (IH rest eq_refl) as [Hlen Hall]. split; [simpl; by rewrite Hlen|].
    intros [|k] e' He'; simpl in He'.
    + injection He' as <-. exists a, b. by rewrite Ha, Hb.
    + apply (Hall k e' He').
Qed.

Lemma RemapEdges_outcome (edges : list Edge) (mp : list N) :
  match RemapEdges edges mp with
  | Done edges' =>
      ∀ e, e ∈ edges → v1 e < vec_size mp ∧ v2 e < vec_size mp
  | Undefined =>
      ∃ e, e ∈ edges ∧ (vec_size mp ≤ v1 e ∨ vec_size mp ≤ v2 e)
  | OutOfFuel => False
  end.
Proof.
  induction edges as [|e edges IH]; simpl.
  - intros e He. by apply elem_of_nil in He.
  - unfold vec_read.
    destruct (vec_at mp (v1 e)) as [a|] eqn:Ha; simpl.
    2:{ exists e. split; [left|]. left. by apply vec_at_None. }
    destruct (vec_at mp (v2 e)) as [b|] eqn:Hb; simpl.
    2:{ exists e. split; [left|]. right. by apply vec_at_None. }
    destruct (RemapEdges edges mp) as [rest| |]; simpl.
    + intros e' He'. apply elem_of_cons in He' as [->|He']; [|by apply IH].
      split; apply vec_at_is_Some; eauto.
    + destruct IH as (e' & He' & Hbad). exists e'. split; [by right|done].
    + done.
Qed.

(** X4. [RemapEdges] returns, with as many edges as it was given, exactly
    when both end points of every edge are below [mapping.size()];
    otherwise it reads [mapping] out of range. *)
Theorem RemapEdges_in_range_iff (edges : list Edge) (mapping : list N) :
  ((∀ e, e ∈ edges → v1 e < vec_size mapping ∧ v2 e < vec_size mapping)
   ↔ ∃ edges', RemapEdges edges mapping = Done edges'
               ∧ length edges' = length edges)
  ∧ ((∃ e, e ∈ edges ∧ (vec_size mapping ≤ v1 e ∨ vec_size mapping ≤ v2 e))
     ↔ RemapEdges edges mapping = Undefined).
Proof.
  pose proof (RemapEdges_outcome edges mapping) as Hout.
  pose proof (RemapEdges_lookup edges mapping) as Hlook.
  destruct (RemapEdges edges mapping) as [edges'| |]; [| |done].
  - split.
    + split; [|done]. intros _. exists edges'. split; [done|]. by apply Hlook.
    + split; [|done]. intros (e & He & Hbad). destruct (Hout e He). lia.
  - split.
    + split; [|by intros (? & ? & _)].
      intros Hall. destruct Hout as (e & He & Hbad). destruct (Hall e He). lia.
    + done.
Qed.

(** X5. When every end point of every edge is a vertex index,
    [RemoveDuplicatesAndRemapEdges] returns and keeps the number and the
    order of the edges, and every remapped edge joins the vertices that are,
    in the new vector, at the positions of the end points of the original
    edge. An edge between two vertices at the same position is kept, as the
    edge from the surviving vertex to itself. *)
Theorem RemoveDuplicatesAndRemapEdges_edges_follow {T : Type} `{Countable T}
    {TVertex : Type} (getX getY : TVertex → T)
    (vertices : list TVertex) (edges : list Edge) :
  (∀ e, e ∈ edges → v1 e < vec_size vertices ∧ v2 e < vec_size vertices) →
  ∃ vertices' edges' di,
    RemoveDuplicatesAndRemapEdges getX getY vertices edges
    = Done (vertices', edges', di)
    ∧ length edges' = length edges
    ∧ ∀ (k : nat) e, edges !! k = Some e →
        ∃ a b va vb wa wb,
          vec_at vertices (v1 e) = Some va ∧ vec_at vertices (v2 e) = Some vb
          ∧ edges' !! k = Some (mkEdge a b)
          ∧ vec_at vertices' a = Some wa ∧ vec_at vertices' b = Some wb
          ∧ position getX getY wa = position getX getY va
          ∧ position getX getY wb = position getX getY vb
          ∧ (position getX getY va = position getX getY vb →
             a = b ∧ edges' !! k = Some (a, a)).
Proof.
  intros Hall. unfold RemoveDuplicatesAndRemapEdges.
  destruct (FindDuplicates_inv getX getY vertices)
    as (_ & _ & Hlen & _ & Hfwd & _ & _ & Hrem).
  fold (FindDuplicates getX getY vertices) in Hlen, Hfwd, Hrem.
  pose proof (survivors_NoDup getX getY vertices) as Hnd.
  set (found := FindDuplicates getX getY vertices) in *.
  pose proof (RemapEdges_outcome edges (mapping found)) as Hout.
  pose proof (RemapEdges_lookup edges (mapping found)) as Hlook.
  assert (Hsize : vec_size (mapping found) = vec_size vertices).
  { unfold vec_size. by rewrite Hlen. }
  destruct (RemapEdges edges (mapping found)) as [edges'| |]; simpl.
  2:{ destruct Hout as (e & He & Hbad). destruct (Hall e He). lia. }
  2:{ done. }
  destruct (Hlook edges' eq_refl) as [Hlen' Hedges].
  exists (RemoveDuplicates vertices (duplicates found)), edges', found.
  split; [done|]. split; [done|].
  intros k e He.
  destruct (Hedges k e He) as (a & b & Ha & Hb & Hk).
  assert (Hin : e ∈ edges) by (by eapply list_elem_of_lookup_2).
  destruct (Hall e Hin) as [H1 H2].
  apply vec_at_is_Some in H1 as [va Hva]. apply vec_at_is_Some in H2 as [vb Hvb].
  destruct (Hfwd _ _ Hva) as (ma & wa & Hma & Hwa & Hpa).
  destruct (Hfwd _ _ Hvb) as (mb & wb & Hmb & Hwb & Hpb).
  unfold vec_at in Ha, Hb. rewrite Hma in Ha. rewrite Hmb in Hb.
  injection Ha as <-. injection Hb as <-.
  exists (N.of_nat ma), (N.of_nat mb), va, vb, wa, wb.
  unfold RemoveDuplicates. rewrite Hrem. unfold vec_at. rewrite !Nat2N.id.
  split; [done|]. split; [done|]. split; [done|]. split; [done|]. split; [done|].
  split; [done|]. split; [done|].
  intros Hsame.
  assert (ma = mb) as ->.
  { eapply (proj1 (NoDup_alt _) Hnd); apply list_lookup_fmap_Some.
    - exists wa. split; [reflexivity|done].
    - exists wb. split; [|done]. congruence. }
  split; [done|].
  transitivity (Some (mkEdge (N.of_nat mb) (N.of_nat mb))); [exact Hk|].
  unfold mkEdge. by rewrite N.ltb_irrefl.
Qed.

Lemma RemoveDuplicatesAndRemapEdges_edges_follow_witness :
  ∃ vertices' edges' di,
    RemoveDuplicatesAndRemapEdges getX_V2d getY_V2d
      [(0,0); (1,0); (0,0); (0,1)]%Z [mkEdge 0 3; mkEdge 2 1; mkEdge 0 2]
    = Done (vertices', edges', di)
    ∧ length edges' = 3%nat.
Proof.
  destruct (RemoveDuplicatesAndRemapEdges_edges_follow getX_V2d getY_V2d
              [(0,0); (1,0); (0,0); (0,1)]%Z [mkEdge 0 3; mkEdge 2 1; mkEdge 0 2])
    as (vs' & es' & di & Hrun & Hlen & _).
  - intros e He.
    apply elem_of_cons in He as [->|He]; [by vm_compute|].
    apply elem_of_cons in He as [->|He]; [by vm_compute|].
    apply list_elem_of_singleton in He as ->. by vm_compute.
  - exists vs', es', di. split; [exact Hrun|exact Hlen].
Defined.

Lemma position_V2d {T : Type} (v : T * T) : position getX_V2d getY_V2d v = v.
Proof. by destruct v. Qed.

Lemma fmap_position_V2d {T : Type} (l : list (T * T)) :
  position getX_V2d getY_V2d <$> l = l.
Proof.
  induction l as [|v l IH]; [done|]. rewrite fmap_cons, IH. by rewrite position_V2d.
Qed.

(** X6. The overload [RemoveDuplicates(std::vector<V2d<T> >&)]: the vector
    left has no repeated point, is a subsequence of the input with the same
    points, and [mapping] sends every input index to the index of the same
    point in it; running the function again changes nothing. *)
Theorem RemoveDuplicates_V2d_round_trip {T : Type} `{Countable T}
    (vertices : list (T * T)) :
  let kept := (RemoveDuplicates_V2d vertices).1 in
  let di := (RemoveDuplicates_V2d vertices).2 in
  NoDup kept
  ∧ kept `sublist_of` vertices
  ∧ (∀ v, v ∈ kept ↔ v ∈ vertices)
  ∧ (∀ i v, vec_at vertices i = Some v →
       ∃ m, vec_at (mapping di) i = Some m ∧ vec_at kept m = Some v)
  ∧ RemoveDuplicates_V2d kept
    = (kept, {| mapping := N.of_nat <$> seq 0 (length kept); duplicates := [] |}).
Proof.
  intros kept di. unfold RemoveDuplicates_V2d in kept, di. simpl in kept, di.
  assert (Hkept : kept = survivors getX_V2d getY_V2d vertices)
    by apply RemoveDuplicates_survivors.
  assert (Hnd : NoDup (position getX_V2d getY_V2d <$> kept))
    by (rewrite Hkept; apply survivors_NoDup).
  split; [by rewrite fmap_position_V2d in Hnd|]. split; [|split; [|split]].
  - rewrite Hkept. apply survivors_sublist.
  - intros v. split.
    + intros Hv. eapply elem_of_sublist; [exact Hv|].
      rewrite Hkept. apply survivors_sublist.
    + intros Hv. destruct (survivors_cover getX_V2d getY_V2d vertices v Hv)
        as (w & Hw & Hpos).
      rewrite !position_V2d in Hpos. subst w. by rewrite Hkept.
  - intros i v Hv.
    destruct (FindDuplicates_inv getX_V2d getY_V2d vertices)
      as (_ & _ & _ & _ & Hfwd & _ & _ & _).
    destruct (Hfwd _ _ Hv) as (m & w & Hm & Hw & Hpos).
    rewrite !position_V2d in Hpos. subst w.
    exists (N.of_nat m). split; [exact Hm|].
    rewrite Hkept. unfold vec_at. by rewrite Nat2N.id.
  - unfold RemoveDuplicates_V2d.
    destruct (FindDuplicates_unique getX_V2d getY_V2d kept Hnd) as [Hfind Hagain].
    by rewrite Hagain, Hfind.
Qed.
(** ** Further properties: hashing of points, edge extraction *)


(** X7. [hash<V2d<T> >] is symmetric in the two coordinates: the points
    (x, y) and (y, x) have the same hash, every point with equal
    coordinates hashes to 0, and a point hashes to 0 exactly when its two
    coordinates have the same hash. *)
Theorem hash_V2d_collisions {T : Type} (Hasher : T → N) (x y : T) :
  hash_V2d Hasher (V2d_make x y) = hash_V2d Hasher (V2d_make y x)
  ∧ hash_V2d Hasher (V2d_make x x) = 0
  ∧ (hash_V2d Hasher (V2d_make x y) = 0 ↔ Hasher x = Hasher y).
Proof.
  unfold hash_V2d, V2d_make, getX_V2d, getY_V2d; simpl.
  split; [apply N.lxor_comm|]. split; [apply N.lxor_nilpotent|].
  apply N.lxor_eq_0_iff.
Qed.

Lemma elem_of_extractEdges (triangles : list Triangle) (e : Edge) :
  e ∈ extractEdgesFromTriangles triangles
  ↔ ∃ t, t ∈ triangles ∧ e ∈ triangle_edges t.
Proof.
  unfold extractEdgesFromTriangles. rewrite extract_fold_elem. set_solver.
Qed.

Lemma size_union_le (X Y : gset Edge) : (size (X ∪ Y) ≤ size X + size Y)%nat.
Proof.
  rewrite size_union_alt.
  assert (size (Y ∖ X) ≤ size Y)%nat; [|lia].
  apply subseteq_size. set_solver.
Qed.

Lemma size_extractEdges (triangles : list Triangle) :
  (size (extractEdgesFromTriangles triangles) ≤ 3 * length triangles)%nat.
Proof.
  induction triangles as [|t ts IH] using rev_ind; [done|].
  unfold extractEdgesFromTriangles in *. rewrite fold_left_app, length_app. simpl.
  set (acc := fold_left _ ts ∅) in *.
  etrans; [apply size_union_le|]. rewrite size_singleton.
  assert (size (acc ∪ {[mkEdge (arr3_at (vertices t) I0) (arr3_at (vertices t) I1)]}
                    ∪ {[mkEdge (arr3_at (vertices t) I1) (arr3_at (vertices t) I2)]})
          ≤ size acc + 2)%nat; [|lia].
  etrans; [apply size_union_le|]. rewrite size_singleton.
  assert (size (acc ∪ {[mkEdge (arr3_at (vertices t) I0) (arr3_at (vertices t) I1)]})
          ≤ size acc + 1)%nat; [|lia].
  etrans; [apply size_union_le|]. by rewrite size_singleton.
Qed.

(** X8. [extractEdgesFromTriangles] of a concatenation is the union of the
    two edge sets; it returns at most three edges per triangle, the empty
    set only when there is no triangle, and the same set whatever the order
    of the triangles. *)
Theorem extractEdgesFromTriangles_union (ts1 ts2 : list Triangle) :
  extractEdgesFromTriangles (ts1 ++ ts2)
  = extractEdgesFromTriangles ts1 ∪ extractEdgesFromTriangles ts2
  ∧ (size (extractEdgesFromTriangles ts1) ≤ 3 * length ts1)%nat
  ∧ (extractEdgesFromTriangles ts1 = ∅ ↔ ts1 = [])
  ∧ (ts1 ≡ₚ ts2 → extractEdgesFromTriangles ts1 = extractEdgesFromTriangles ts2).
Proof.
  split; [|split; [apply size_extractEdges|split]].
  - apply set_eq. intros e. rewrite elem_of_union, !elem_of_extractEdges.
    setoid_rewrite elem_of_app. naive_solver.
  - split; [|by intros ->].
    destruct ts1 as [|t ts]; [done|]. intros Hempty. exfalso.
    assert (Hin : mkEdge (arr3_at (vertices t) I0) (arr3_at (vertices t) I1)
                  ∈ extractEdgesFromTriangles (t :: ts)).
    { apply elem_of_extractEdges. exists t. split; [left|]. left. }
    rewrite Hempty in Hin. by apply elem_of_empty in Hin.
  - intros Hperm. apply set_eq. intros e. rewrite !elem_of_extractEdges.
    by setoid_rewrite Hperm.
Qed.
(** ** Further properties: [PeelLayer] *)

Section PeelExtra.
Context `{CDTUtils}.
Variables (triangles : list Triangle) (fixedEdges : gset Edge).
Variable overlapCount : gmap Edge N.

Lemma PeelLayer_loop_more_fuel fuel fuel' L s d bb :
  PeelLayer_loop triangles fixedEdges fuel L s d bb ≠ OutOfFuel →
  (fuel ≤ fuel')%nat →
  PeelLayer_loop triangles fixedEdges fuel' L s d bb
  = PeelLayer_loop triangles fixedEdges fuel L s d bb.
Proof.
  revert fuel' s d bb. induction fuel as [|fuel IH]; intros fuel' s d bb Hrun Hle.
  - destruct s; [by destruct fuel'|done].
  - destruct fuel' as [|fuel']; [lia|]. destruct s as [|iT s]; [done|].
    simpl in *.
    destruct (PeelLayer_pop triangles fixedEdges L iT s d bb) as [[[s' d'] bb']| |];
      simpl in *; [|done..].
    apply IH; [done|lia].
Qed.

Lemma PeelLayer_ov_loop_more_fuel fuel fuel' L s d bbm :
  PeelLayer_ov_loop triangles fixedEdges overlapCount fuel L s d bbm ≠ OutOfFuel →
  (fuel ≤ fuel')%nat →
  PeelLayer_ov_loop triangles fixedEdges overlapCount fuel' L s d bbm
  = PeelLayer_ov_loop triangles fixedEdges overlapCount fuel L s d bbm.
Proof.
  revert fuel' s d bbm. induction fuel as [|fuel IH]; intros fuel' s d bbm Hrun Hle.
  - destruct s; [by destruct fuel'|done].
  - destruct fuel' as [|fuel']; [lia|]. destruct s as [|iT s]; [done|].
    simpl in *.
    destruct (PeelLayer_ov_pop triangles fixedEdges overlapCount L iT s d bbm)
      as [[[s' d'] bbm']| |]; simpl in *; [|done..].
    apply IH; [done|lia].
Qed.

Lemma PeelLayer_ov_never_OutOfFuel seeds L d :
  PeelLayer_ov triangles fixedEdges overlapCount seeds L d ≠ OutOfFuel.
Proof.
  intros Hrun.
  pose proof (PeelLayer_ov_sim triangles fixedEdges overlapCount seeds L d) as Hsim.
  rewrite Hrun in Hsim. by apply PeelLayer_never_OutOfFuel in Hsim.
Qed.

End PeelExtra.

(** X9. The [while] loop of both overloads of [PeelLayer] ends, whatever
    the input, out-of-range indices included: it stops within
    [7 * triDepths.size() + seeds.size() + 5] iterations, and a larger
    iteration budget changes nothing. *)
Theorem PeelLayer_terminates `{CDTUtils} (triangles : list Triangle)
    (fixedEdges : gset Edge) (overlapCount : gmap Edge N)
    (seeds : list N) (layerDepth : LayerDepth) (triDepths : list N) :
  PeelLayer triangles fixedEdges seeds layerDepth triDepths ≠ OutOfFuel
  ∧ PeelLayer_ov triangles fixedEdges overlapCount seeds layerDepth triDepths
    ≠ OutOfFuel
  ∧ ∀ fuel, (7 * length triDepths + length seeds + 5 ≤ fuel)%nat →
      PeelLayer_loop triangles fixedEdges fuel layerDepth seeds triDepths ∅
      = PeelLayer triangles fixedEdges seeds layerDepth triDepths
      ∧ PeelLayer_ov_loop triangles fixedEdges overlapCount fuel layerDepth
          seeds triDepths ∅
        = PeelLayer_ov triangles fixedEdges overlapCount seeds layerDepth triDepths.
Proof.
  split; [apply PeelLayer_never_OutOfFuel|].
  split; [apply PeelLayer_ov_never_OutOfFuel|].
  intros fuel Hfuel. split.
  - apply PeelLayer_loop_more_fuel; [apply PeelLayer_never_OutOfFuel|done].
  - apply PeelLayer_ov_loop_more_fuel; [apply PeelLayer_ov_never_OutOfFuel|done].
Qed.

(** X10. [PeelLayer] returns exactly when every triangle of the layer is
    usable: it is a triangle with a depth entry, and each of its neighbour
    slots holds [noNeighbor] or an index with a depth entry. Otherwise it
    indexes a vector out of range. *)
Theorem PeelLayer_defined_iff `{CDTUtils} (triangles : list Triangle)
    (fixedEdges : gset Edge) (seeds : list N) (layerDepth : LayerDepth)
    (triDepths : list N) :
  ((∃ behindBoundary triDepths',
      PeelLayer triangles fixedEdges seeds layerDepth triDepths
      = Done (behindBoundary, triDepths'))
   ↔ ∀ iT, peeled triangles fixedEdges triDepths layerDepth seeds iT →
           usable triangles triDepths iT)
  ∧ (PeelLayer triangles fixedEdges seeds layerDepth triDepths = Undefined
     ↔ ¬ ∀ iT, peeled triangles fixedEdges triDepths layerDepth seeds iT →
               usable triangles triDepths iT).
Proof.
  assert (Hiff : (∃ bb d', PeelLayer triangles fixedEdges seeds layerDepth triDepths
                           = Done (bb, d'))
                 ↔ ∀ iT, peeled triangles fixedEdges triDepths layerDepth seeds iT →
                         usable triangles triDepths iT).
  { split.
    - intros (bb & d' & Hrun) iT Hp.
      by apply (PeelLayer_Done _ _ _ _ _ _ _ Hrun).
    - apply PeelLayer_returns. }
  split; [exact Hiff|].
  pose proof (PeelLayer_never_OutOfFuel triangles fixedEdges seeds layerDepth triDepths)
    as Hfuel.
  split.
  - intros Hrun Hall. apply Hiff in Hall as (bb & d' & Hdone). congruence.
  - intros Hnot.
    destruct (PeelLayer triangles fixedEdges seeds layerDepth triDepths)
      as [[bb d']| |] eqn:Hrun; [|done..].
    exfalso. apply Hnot, Hiff. eauto.
Qed.


Lemma PeelLayer_ov_result `{CDTUtils} (triangles : list Triangle)
    (fixedEdges : gset Edge) (overlapCount : gmap Edge N)
    (seeds : list N) (L : LayerDepth) (d : list N) :
  peel_ov_result (PeelLayer_ov triangles fixedEdges overlapCount seeds L d)
  = PeelLayer triangles fixedEdges seeds L d.
Proof.
  pose proof (PeelLayer_ov_sim triangles fixedEdges overlapCount seeds L d) as Hsim.
  destruct (PeelLayer_ov triangles fixedEdges overlapCount seeds L d)
    as [[bbm d']| |]; simpl; [by destruct Hsim|done..].
Qed.

(** X11. [PeelLayer] depends on its seeds only as a set: two stacks with
    the same elements, in any order and with any repetitions, give the same
    depths and the same returned set and, with overlaps, the same depths and
    the same recorded triangles. *)
Theorem PeelLayer_seed_order_irrelevant `{CDTUtils} (triangles : list Triangle)
    (fixedEdges : gset Edge) (overlapCount : gmap Edge N)
    (seeds seeds' : list N) (layerDepth : LayerDepth) (triDepths : list N) :
  (∀ iT, iT ∈ seeds ↔ iT ∈ seeds') →
  PeelLayer triangles fixedEdges seeds layerDepth triDepths
  = PeelLayer triangles fixedEdges seeds' layerDepth triDepths
  ∧ peel_ov_result
      (PeelLayer_ov triangles fixedEdges overlapCount seeds layerDepth triDepths)
    = peel_ov_result
        (PeelLayer_ov triangles fixedEdges overlapCount seeds' layerDepth triDepths).
Proof.
  intros Hsame. rewrite !PeelLayer_ov_result.
  split; by apply PeelLayer_seeds_equiv.
Qed.

Lemma PeelLayer_seed_order_irrelevant_witness :
  PeelLayer (H := spec_utils) example_triangles {[ mkEdge 1 2 ]} [0; 2] 0
    [65535; 65535; 65535]
  = PeelLayer (H := spec_utils) example_triangles {[ mkEdge 1 2 ]} [2; 0; 2] 0
      [65535; 65535; 65535].
Proof.
  refine (proj1 (PeelLayer_seed_order_irrelevant (H := spec_utils) example_triangles
                   {[ mkEdge 1 2 ]} ∅ [0; 2] [2; 0; 2] 0 [65535; 65535; 65535] _)).
  intros iT. rewrite !elem_of_cons, !elem_of_nil. tauto.
Defined.

(** X12. The two overloads of [PeelLayer] peel alike: on the same input
    the overload with overlaps leaves the same depths and records the same
    triangles (the keys of its map are the set the other returns), and it
    is out of range exactly when the other is; [overlapCount] bears on the
    recorded depths only. *)
Theorem PeelLayer_overloads_agree `{CDTUtils} (triangles : list Triangle)
    (fixedEdges : gset Edge) (overlapCount : gmap Edge N)
    (seeds : list N) (layerDepth : LayerDepth) (triDepths : list N) :
  match PeelLayer_ov triangles fixedEdges overlapCount seeds layerDepth triDepths with
  | Done (behindBoundary, triDepths') =>
      PeelLayer triangles fixedEdges seeds layerDepth triDepths
      = Done (dom behindBoundary, triDepths')
  | Undefined =>
      PeelLayer triangles fixedEdges seeds layerDepth triDepths = Undefined
  | OutOfFuel => False
  end.
Proof.
  pose proof (PeelLayer_ov_sim triangles fixedEdges overlapCount seeds layerDepth
                triDepths) as Hsim.
  pose proof (PeelLayer_ov_never_OutOfFuel triangles fixedEdges overlapCount seeds
                layerDepth triDepths) as Hfuel.
  destruct (PeelLayer_ov triangles fixedEdges overlapCount seeds layerDepth triDepths)
    as [[bbm d']| |]; [by destruct Hsim|done|done].
Qed.
(** ** Further properties: [CalculateTriangleDepths] *)


Section CrossingProofs.
Context `{CDTUtils}.
Variables (triangles : list Triangle) (fixedEdges : gset Edge).
Variable seed : TriInd.
Hypothesis seed_in_range : seed < vec_size triangles.
Hypothesis slots_in_range : neighbors_in_range triangles.

Local Abbreviation crossing := (crossing triangles fixedEdges seed).
Local Abbreviation below := (below_crossing triangles fixedEdges seed).
Local Abbreviation counted := (counted triangles fixedEdges seed).
Local Abbreviation count_inv := (count_inv triangles fixedEdges seed).
Local Abbreviation peeled := (peeled triangles fixedEdges).

Lemma crossing_mono k t : crossing k t → ∀ k', (k ≤ k')%nat → crossing k' t.
Proof.
  induction 1 as [k|k u t Hu IH Hfree|k u t Hu IH Hfix]; intros k' Hle.
  - apply crossing_seed.
  - eapply crossing_free; [by apply IH|done].
  - destruct k' as [|k']; [lia|]. eapply crossing_fixed; [apply IH; lia|done].
Qed.

Lemma neighbor_at_in_range u i t e :
  neighbor_at triangles u i t e → t < vec_size triangles.
Proof.
  intros (tr & Htr & Hnb & _ & Hno).
  destruct (slots_in_range u tr i Htr) as [Heq|Hlt]; congruence.
Qed.

Lemma crossing_in_range k t : crossing k t → t < vec_size triangles.
Proof.
  induction 1 as [k|k u t Hu IH (i & e & Hnb & _)|k u t Hu IH (i & e & Hnb & _)].
  - done.
  - by eapply neighbor_at_in_range.
  - by eapply neighbor_at_in_range.
Qed.

Lemma counted_unassigned L d t v :
  counted L d → vec_at d t = Some v → ¬ below L t → v = LayerDepth_max.
Proof.
  intros Hc Hv Hnot. destruct (Hc t v Hv) as [(Hlt & _ & Hmin & _)|[-> _]]; [|done].
  exfalso. apply Hnot. exists (N.to_nat v). split; [lia|done].
Qed.

Lemma counted_above L d t v :
  counted L d → L ≤ LayerDepth_max → vec_at d t = Some v → L ≤ v →
  v = LayerDepth_max ∧ ¬ below L t.
Proof.
  intros Hc HL Hv Hle. destruct (Hc t v Hv) as [(Hlt & _)|[-> Hnot]]; [lia|done].
Qed.

Lemma counted_cases L d t :
  counted L d → length d = length triangles → t < vec_size triangles →
  (∃ v, vec_at d t = Some v ∧ v < L ∧ below L t)
  ∨ (vec_at d t = Some LayerDepth_max ∧ ¬ below L t).
Proof.
  intros Hc Hlen Ht.
  assert (Ht' : t < vec_size d) by (unfold vec_size in *; by rewrite Hlen).
  apply vec_at_is_Some in Ht' as [v Hv].
  destruct (Hc t v Hv) as [(Hlt & _ & Hmin & _)|[-> Hnot]].
  - left. exists v. split; [done|]. split; [done|].
    exists (N.to_nat v). split; [lia|done].
  - by right.
Qed.

Lemma peeled_crossing seeds L d t :
  count_inv seeds L d → L ≤ LayerDepth_max →
  peeled d L seeds t →
  crossing (N.to_nat L) t ∧ ¬ below L t ∧ vec_at d t = Some LayerDepth_max.
Proof.
  intros [Hlen Hc Hseeds Hcomp] HL.
  induction 1 as [s Hs|u t Hu IH (i & e & Hnb & Hfree & v & Hv & Hlt)].
  - destruct (Hseeds s Hs) as [Hmax Hcross]. split; [done|]. split; [|done].
    by apply (counted_above L d s LayerDepth_max Hc HL Hmax).
  - destruct IH as (Hcross & _).
    destruct (counted_above L d t v Hc HL Hv) as [-> Hnot]; [lia|].
    split; [|done]. eapply crossing_free; [done|]. by exists i, e.
Qed.

Section WithOrder.
Variable order : gset N → list N.
Hypothesis order_enumerates : enumerates order.

Lemma elem_of_next_seeds (bb : gset N) x :
  x ∈ stack_of_range (order bb) ↔ x ∈ bb.
Proof. unfold stack_of_range. rewrite elem_of_reverse. apply order_enumerates. Qed.

Lemma below_next L t : below L t → below (L + 1) t.
Proof. intros (k & Hk & Hc). exists k. split; [lia|done]. Qed.

Lemma counted_step seeds L d bb d' :
  count_inv seeds L d → L < LayerDepth_max →
  PeelLayer triangles fixedEdges seeds L d = Done (bb, d') →
  counted (L + 1) d'.
Proof.
  intros Hinv HL Hrun.
  pose proof (peeled_crossing seeds L d) as Hpc.
  destruct (PeelLayer_Done_set triangles fixedEdges seeds L d bb d' Hrun)
    as (X & HX & Hlen' & Hin & Hout & Hbb).
  intros t v Hv. destruct (decide (t ∈ X)) as [HtX|HtX].
  - destruct (Hin t HtX) as [HvL _]. rewrite HvL in Hv. injection Hv as <-.
    apply HX in HtX. destruct (Hpc t Hinv) as (Hcross & Hnot & _); [lia|done|].
    left. split; [lia|]. split; [done|]. split; [done|].
    intros j Hj Hcj. apply Hnot. exists j. split; [lia|done].
  - rewrite (Hout t HtX) in Hv.
    destruct (ci_counted _ _ _ _ _ _ Hinv t v Hv) as [(Hlt & Hmax & Hmin)|[-> Hnot]].
    + left. split; [lia|done].
    + right. split; [done|]. intros (k & Hk & Hck).
      destruct (decide (N.of_nat k < L)) as [Hlo|Hhi].
      * apply Hnot. by exists k.
      * assert (k = N.to_nat L) as -> by lia.
        apply HtX, HX. by apply (ci_complete _ _ _ _ _ _ Hinv).
Qed.

Lemma count_inv_step seeds L d bb d' :
  count_inv seeds L d → L < LayerDepth_max →
  PeelLayer triangles fixedEdges seeds L d = Done (bb, d') →
  count_inv (stack_of_range (order bb)) (L + 1) d'.
Proof.
  intros Hinv HL Hrun.
  pose proof (peeled_crossing seeds L d) as Hpc.
  pose proof (counted_step seeds L d bb d' Hinv HL Hrun) as Hnext.
  destruct (PeelLayer_Done_set triangles fixedEdges seeds L d bb d' Hrun)
    as (X & HX & Hlen' & Hin & Hout & Hbb).
  pose proof (ci_len _ _ _ _ _ _ Hinv) as Hlen.
  pose proof (ci_counted _ _ _ _ _ _ Hinv) as Hc.
  assert (Hlen'' : length d' = length triangles) by congruence.
  assert (Hbb_in : ∀ s, s ∈ bb →
            (s ∉ X) ∧ vec_at d s = Some LayerDepth_max
            ∧ ∃ u, u ∈ X ∧ fixed_neighbor triangles fixedEdges u s).
  { intros s Hs. apply Hbb in Hs as (HsX & u & Hu & i & e & Hnb & Hfix & v & Hv & Hlt).
    split; [done|]. split.
    - destruct (counted_above L d s v Hc) as [-> _]; [lia|done|lia|done].
    - exists u. split; [done|]. by exists i, e. }
  split.
  - done.
  - done.
  - intros s Hs. apply elem_of_next_seeds in Hs.
    destruct (Hbb_in s Hs) as (HsX & Hmax & u & Hu & Hfix).
    split; [by rewrite (Hout s HsX)|].
    replace (N.to_nat (L + 1)) with (S (N.to_nat L)) by lia.
    eapply crossing_fixed; [|exact Hfix].
    apply HX in Hu. by destruct (Hpc u Hinv) as (Hcross & _); [lia|done|].
  - intros HL1 t Hcross.
    remember (N.to_nat (L + 1)) as k eqn:Hk. revert Hk.
    induction Hcross as [k|k u t Hu IH Hfree|k u t Hu IH Hfix]; intros Hk Hnot.
    + exfalso. apply Hnot. exists 0%nat. split; [lia|apply crossing_seed].
    + pose proof (crossing_in_range _ _ Hu) as Hur.
      destruct (counted_cases (L + 1) d' u Hnext Hlen'' Hur)
        as [(v & _ & _ & k' & Hk' & Hcu)|[_ Hnu]].
      { exfalso. apply Hnot. exists k'. split; [done|]. by eapply crossing_free. }
      specialize (IH Hk Hnu).
      destruct Hfree as (i & e & Hnb & Hfree).
      pose proof (neighbor_at_in_range _ _ _ _ Hnb) as Htr.
      destruct (counted_cases (L + 1) d' t Hnext Hlen'' Htr)
        as [(v & _ & _ & Hbt)|[Hmax _]]; [done|].
      eapply peeled_step; [exact IH|].
      exists i, e. split; [done|]. split; [done|].
      exists LayerDepth_max. split; [done|lia].
    + assert (k = N.to_nat L) as -> by lia.
      pose proof (crossing_in_range _ _ Hu) as Hur.
      destruct (counted_cases L d u Hc Hlen Hur)
        as [(v & _ & _ & j & Hj & Hcj)|[_ Hnu]].
      { exfalso. apply Hnot. exists (S j). split; [lia|]. by eapply crossing_fixed. }
      assert (HuX : u ∈ X) by (apply HX, (ci_complete _ _ _ _ _ _ Hinv); done).
      destruct Hfix as (i & e & Hnb & Hfix).
      pose proof (neighbor_at_in_range _ _ _ _ Hnb) as Htr.
      destruct (counted_cases L d t Hc Hlen Htr)
        as [(v & _ & _ & Hbt)|[Hmax Hnt]].
      { exfalso. by apply Hnot, below_next. }
      apply peeled_seed, elem_of_next_seeds, Hbb.
      assert (HtX : t ∉ X).
      { intros HtX. apply HX in HtX.
        destruct (Hpc t Hinv) as (Hct & _); [lia|done|].
        apply Hnot. exists (N.to_nat L). split; [lia|done]. }
      split; [done|]. exists u. split; [done|].
      exists i, e. split; [done|]. split; [done|].
      exists LayerDepth_max. split; [done|lia].
Qed.

Lemma count_inv_exit seeds L d d' :
  count_inv seeds L d → L ≤ LayerDepth_max →
  PeelLayer triangles fixedEdges seeds L d = Done (∅, d') →
  counts_crossings triangles fixedEdges seed d'.
Proof.
  intros Hinv HL Hrun.
  pose proof (λ t, peeled_crossing seeds L d t Hinv HL) as Hpc.
  destruct (PeelLayer_Done_set triangles fixedEdges seeds L d ∅ d' Hrun)
    as (X & HX & Hlen' & Hin & Hout & Hbb).
  pose proof (ci_len _ _ _ _ _ _ Hinv) as Hlen.
  pose proof (ci_counted _ _ _ _ _ _ Hinv) as Hc.
  destruct (decide (L = LayerDepth_max)) as [->|Hne].
  - intros t v Hv. destruct (decide (t ∈ X)) as [HtX|HtX].
    + destruct (Hin t HtX) as [HvL _]. rewrite HvL in Hv. injection Hv as <-.
      apply HX in HtX. destruct (Hpc t HtX) as (_ & Hnot & _).
      right. split; [done|]. intros k Hk Hck. apply Hnot. by exists k.
    + rewrite (Hout t HtX) in Hv.
      destruct (Hc t v Hv) as [(_ & Hmax & Hmin)|[-> Hnot]]; [by left|].
      right. split; [done|]. intros k Hk Hck. apply Hnot. by exists k.
  - assert (HLlt : L < LayerDepth_max) by lia.
    assert (Hall : ∀ k t, crossing k t → below L t ∨ t ∈ X).
    { intros k t Hcross.
      induction Hcross as [k|k u t Hu IH Hfree|k u t Hu IH Hfix].
      - destruct (counted_cases L d seed Hc Hlen seed_in_range)
          as [(v & _ & _ & Hb)|[_ Hnb]]; [by left|].
        right. apply HX, (ci_complete _ _ _ _ _ _ Hinv); [done| |done].
        apply crossing_seed.
      - destruct Hfree as (i & e & Hnb & Hfree).
        destruct IH as [(j & Hj & Hcj)|HuX].
        { left. exists j. split; [done|]. eapply crossing_free; [done|]. by exists i, e. }
        pose proof (neighbor_at_in_range _ _ _ _ Hnb) as Htr.
        destruct (counted_cases L d t Hc Hlen Htr)
          as [(v & _ & _ & Hb)|[Hmax _]]; [by left|].
        right. apply HX. eapply peeled_step; [by apply HX|].
        exists i, e. split; [done|]. split; [done|].
        exists LayerDepth_max. split; [done|lia].
      - destruct Hfix as (i & e & Hnb & Hfix).
        pose proof (neighbor_at_in_range _ _ _ _ Hnb) as Htr.
        destruct (counted_cases L d t Hc Hlen Htr)
          as [(v & _ & _ & Hb)|[Hmax Hnt]]; [by left|].
        right. destruct IH as [(j & Hj & Hcj)|HuX].
        + apply HX, (ci_complete _ _ _ _ _ _ Hinv); [done| |done].
          apply (crossing_mono (S j)); [|lia].
          eapply crossing_fixed; [done|]. by exists i, e.
        + destruct (decide (t ∈ X)) as [|HtX]; [done|]. exfalso.
          assert (Hin' : t ∈ (∅ : gset N)); [|by apply elem_of_empty in Hin'].
          apply Hbb. split; [done|]. exists u. split; [done|].
          exists i, e. split; [done|]. split; [done|].
          exists LayerDepth_max. split; [done|lia]. }
    intros t v Hv. destruct (decide (t ∈ X)) as [HtX|HtX].
    + destruct (Hin t HtX) as [HvL _]. rewrite HvL in Hv. injection Hv as <-.
      apply HX in HtX. destruct (Hpc t HtX) as (Hcross & Hnot & _).
      left. split; [done|]. split; [done|].
      intros j Hj Hcj. apply Hnot. exists j. split; [lia|done].
    + rewrite (Hout t HtX) in Hv.
      destruct (Hc t v Hv) as [(_ & Hmax & Hmin)|[-> Hnot]]; [by left|].
      right. split; [done|]. intros k Hk Hck.
      destruct (Hall k t Hck) as [Hb|HtX']; [by apply Hnot|by apply HtX].
Qed.

Lemma CalculateTriangleDepths_loop_counts fuel seeds L d depths :
  count_inv seeds L d → L ≤ LayerDepth_max →
  CalculateTriangleDepths_loop triangles fixedEdges order fuel seeds L d
  = Done depths →
  counts_crossings triangles fixedEdges seed depths
  ∧ length depths = length triangles.
Proof.
  revert seeds L d. induction fuel as [|fuel IH]; intros seeds L d Hinv HL Hrun;
    [done|].
  simpl in Hrun.
  destruct (PeelLayer triangles fixedEdges seeds L d) as [[bb d']| |] eqn:Hpeel;
    simpl in Hrun; [|done..].
  destruct (stack_of_range (order bb)) as [|n rest] eqn:Hstack.
  - injection Hrun as <-.
    assert (bb = ∅) as ->.
    { apply set_eq. intros x. rewrite <- elem_of_next_seeds, Hstack. set_solver. }
    split; [by eapply count_inv_exit|].
    destruct (PeelLayer_Done_set triangles fixedEdges seeds L d ∅ d' Hpeel)
      as (X & _ & Hlen' & _).
    rewrite Hlen'. apply (ci_len _ _ _ _ _ _ Hinv).
  - assert (Hn : n ∈ bb) by (apply elem_of_next_seeds; rewrite Hstack; left).
    assert (HLlt : L < LayerDepth_max).
    { destruct (PeelLayer_Done_set triangles fixedEdges seeds L d bb d' Hpeel)
        as (X & _ & _ & _ & _ & Hbb).
      destruct (proj1 (Hbb n) Hn) as (HnX & u & HuX & i & e & Hnb & Hfix & v & Hv & Hlt).
      destruct (counted_above L d n v (ci_counted _ _ _ _ _ _ Hinv) HL Hv) as [-> _];
        [lia|done]. }
    rewrite (LayerDepth_of_small (L + 1)) in Hrun by lia.
    apply (IH (n :: rest) (L + 1) d'); [|lia|done].
    rewrite <- Hstack. by apply (count_inv_step seeds L d bb d').
Qed.

Lemma count_inv_init :
  count_inv [seed] 0 (replicate (length triangles) LayerDepth_max).
Proof.
  assert (Hrep : ∀ t v, vec_at (replicate (length triangles) LayerDepth_max) t = Some v →
                        v = LayerDepth_max).
  { intros t v Hv. unfold vec_at in Hv. by apply lookup_replicate in Hv as [-> _]. }
  assert (Hget : ∀ t, t < vec_size triangles →
            vec_at (replicate (length triangles) LayerDepth_max) t = Some LayerDepth_max).
  { intros t Ht. unfold vec_at. apply lookup_replicate. split; [done|].
    unfold vec_size in Ht. lia. }
  split.
  - apply length_replicate.
  - intros t v Hv. right. split; [by eapply Hrep|]. intros (k & Hk & _). lia.
  - intros s Hs. apply list_elem_of_singleton in Hs as ->.
    split; [by apply Hget|apply crossing_seed].
  - intros Hmax t Hcross _.
    remember (N.to_nat 0) as k0 eqn:Hk. revert Hk.
    induction Hcross as [k|k u t Hu IH Hfree|k u t Hu IH Hfix]; intros Hk.
    + apply peeled_seed. left.
    + destruct Hfree as (i & e & Hnb & Hfree).
      eapply peeled_step; [by apply IH|].
      exists i, e. split; [done|]. split; [done|].
      exists LayerDepth_max. split; [|done].
      apply Hget. by eapply neighbor_at_in_range.
    + lia.
Qed.

End WithOrder.

End CrossingProofs.

(** X13. On a triangulation where no index is out of range,
    [CalculateTriangleDepths] without overlaps returns, for every triangle,
    the least number of fixed edges crossed on a way from the seed to it
    through neighbour slots, when that number is below [LayerDepth_max]; a
    triangle that is not reached, or only by crossing [LayerDepth_max]
    fixed edges or more, keeps [LayerDepth_max]. *)
Theorem CalculateTriangleDepths_counts_fixed_edges `{CDTUtils}
    (triangles : list Triangle) (fixedEdges : gset Edge)
    (order : gset N → list N) (seed : TriInd) :
  enumerates order →
  well_formed triangles [seed] (replicate (length triangles) LayerDepth_max) = true →
  ∃ depths,
    CalculateTriangleDepths triangles fixedEdges order seed = Done depths
    ∧ length depths = length triangles
    ∧ ∀ t, t < vec_size triangles →
        ∃ v, vec_at depths t = Some v
             ∧ ((v < LayerDepth_max
                 ∧ crossing triangles fixedEdges seed (N.to_nat v) t
                 ∧ ∀ j, (j < N.to_nat v)%nat →
                        ¬ crossing triangles fixedEdges seed j t)
                ∨ (v = LayerDepth_max
                   ∧ ∀ k, N.of_nat k < LayerDepth_max →
                          ¬ crossing triangles fixedEdges seed k t)).
Proof.
  intros Horder Hwf.
  apply well_formed_spec in Hwf as (_ & Hseeds & Hslots).
  assert (Hseed : seed < vec_size triangles) by (apply Hseeds; left).
  pose proof (CalculateTriangleDepths_never_OutOfFuel triangles fixedEdges order
                Horder seed) as Hfuel.
  pose proof (CalculateTriangleDepths_loop_defined triangles fixedEdges order Horder
                (length triangles + 2) [seed] 0
                (replicate (length triangles) LayerDepth_max)
                Hslots (length_replicate _ _) Hseeds) as Hdef.
  fold (CalculateTriangleDepths triangles fixedEdges order seed) in Hdef.
  destruct (CalculateTriangleDepths triangles fixedEdges order seed)
    as [depths| |] eqn:Hrun; [|done..].
  exists depths. split; [done|].
  destruct (CalculateTriangleDepths_loop_counts triangles fixedEdges seed Hseed Hslots
              order Horder (length triangles + 2) [seed] 0
              (replicate (length triangles) LayerDepth_max) depths)
    as [Hcount Hlen].
  - by apply count_inv_init.
  - lia.
  - exact Hrun.
  - split; [done|]. intros t Ht.
    assert (Ht' : t < vec_size depths) by (unfold vec_size in *; by rewrite Hlen).
    apply vec_at_is_Some in Ht' as [v Hv]. exists v. split; [done|].
    destruct (Hcount t v Hv) as [(Hlt & Hc & Hmin)|[-> Hnone]]; [left|right]; done.
Qed.

Lemma CalculateTriangleDepths_counts_fixed_edges_witness :
  ∃ depths,
    CalculateTriangleDepths (H := spec_utils) example_triangles
      {[ mkEdge 1 2; mkEdge 2 3 ]} elements 0 = Done depths
    ∧ length depths = 3%nat.
Proof.
  destruct (CalculateTriangleDepths_counts_fixed_edges (H := spec_utils)
              example_triangles {[ mkEdge 1 2; mkEdge 2 3 ]} elements 0)
    as (depths & Hrun & Hlen & _).
  - intros s x. apply elem_of_elements.
  - reflexivity.
  - exists depths. split; [exact Hrun|exact Hlen].
Defined.

Section CrossingReached.
Context `{CDTUtils}.
Variables (triangles : list Triangle) (seed : TriInd).

Lemma crossing_reached (fixedEdges : gset Edge) k t :
  crossing triangles fixedEdges seed k t → reached_from triangles seed t.
Proof.
  induction 1 as [k|k u t Hu IH (i & e & Hnb & _)|k u t Hu IH (i & e & Hnb & _)].
  - apply rtc_refl.
  - eapply rtc_r; [exact IH|]. by exists i, e.
  - eapply rtc_r; [exact IH|]. by exists i, e.
Qed.

Lemma reached_crossing_free t :
  reached_from triangles seed t → crossing triangles ∅ seed 0 t.
Proof.
  revert t. unfold reached_from.
  apply (rtc_ind_r (λ t, crossing triangles ∅ seed 0 t)).
  - apply crossing_seed.
  - intros u t Hu (i & e & Hnb) IH.
    eapply crossing_free; [exact IH|]. exists i, e. split; [done|]. set_solver.
Qed.

End CrossingReached.

(** X14. Without fixed edges, [CalculateTriangleDepths] is a flood fill:
    every triangle reached from the seed gets the depth 0, and every other
    one keeps [LayerDepth_max]. *)
Theorem CalculateTriangleDepths_without_fixed_edges `{CDTUtils}
    (triangles : list Triangle) (order : gset N → list N) (seed : TriInd) :
  enumerates order →
  well_formed triangles [seed] (replicate (length triangles) LayerDepth_max) = true →
  0 < LayerDepth_max →
  ∃ depths,
    CalculateTriangleDepths triangles ∅ order seed = Done depths
    ∧ ∀ t, t < vec_size triangles →
        (reached_from triangles seed t → vec_at depths t = Some 0)
        ∧ (¬ reached_from triangles seed t → vec_at depths t = Some LayerDepth_max).
Proof.
  intros Horder Hwf Hmax.
  apply well_formed_spec in Hwf as (_ & Hseeds & Hslots).
  assert (Hseed : seed < vec_size triangles) by (apply Hseeds; left).
  pose proof (CalculateTriangleDepths_never_OutOfFuel triangles ∅ order
                Horder seed) as Hfuel.
  pose proof (CalculateTriangleDepths_loop_defined triangles ∅ order Horder
                (length triangles + 2) [seed] 0
                (replicate (length triangles) LayerDepth_max)
                Hslots (length_replicate _ _) Hseeds) as Hdef.
  fold (CalculateTriangleDepths triangles ∅ order seed) in Hdef.
  destruct (CalculateTriangleDepths triangles ∅ order seed)
    as [depths| |] eqn:Hrun; [|done..].
  exists depths. split; [done|].
  destruct (CalculateTriangleDepths_loop_counts triangles ∅ seed Hseed Hslots
              order Horder (length triangles + 2) [seed] 0
              (replicate (length triangles) LayerDepth_max) depths)
    as [Hcount Hlen]; [by apply count_inv_init|lia|exact Hrun|].
  intros t Ht.
  assert (Ht' : t < vec_size depths) by (unfold vec_size in *; by rewrite Hlen).
  apply vec_at_is_Some in Ht' as [v Hv]. rewrite Hv.
  destruct (Hcount t v Hv) as [(Hlt & Hc & Hmin)|[-> Hnone]].
  - split.
    + intros Hreach. apply reached_crossing_free in Hreach.
      destruct (decide (v = 0)) as [->|Hne]; [done|].
      exfalso. apply (Hmin 0%nat); [lia|done].
    + intros Hnot. exfalso. by apply Hnot, (crossing_reached _ _ _ _ _ Hc).
  - split; [|done].
    intros Hreach. apply reached_crossing_free in Hreach.
    exfalso. by apply (Hnone 0%nat).
Qed.

Lemma CalculateTriangleDepths_without_fixed_edges_witness :
  ∃ depths,
    CalculateTriangleDepths (H := spec_utils) example_with_island ∅ elements 0
    = Done depths
    ∧ (reached_from (H := spec_utils) example_with_island 0 0 →
       vec_at depths 0 = Some 0).
Proof.
  destruct (CalculateTriangleDepths_without_fixed_edges (H := spec_utils)
              example_with_island elements 0)
    as (depths & Hrun & Hall).
  - intros s x. apply elem_of_elements.
  - reflexivity.
  - reflexivity.
  - exists depths. split; [exact Hrun|]. apply Hall. reflexivity.
Defined.

Section DepthsExtra.
Context `{CDTUtils}.
Variables (triangles : list Triangle) (fixedEdges : gset Edge).

Lemma CalculateTriangleDepths_ov_empty (order1 order2 : gset N → list N) seed :
  enumerates order1 → enumerates order2 →
  CalculateTriangleDepths_ov triangles fixedEdges ∅ order2 seed
  = CalculateTriangleDepths triangles fixedEdges order1 seed.
Proof.
  intros Ho1 Ho2.
  unfold CalculateTriangleDepths_ov, CalculateTriangleDepths.
  apply (CalculateTriangleDepths_lockstep triangles fixedEdges order1 order2 Ho1 Ho2
           (length triangles + 2) (CalculateTriangleDepths_ov_fuel triangles)
           [seed] (CalculateTriangleDepths_ov_init triangles seed)); simpl.
  - done.
  - intros k _. unfold pending. by rewrite lookup_empty.
  - lia.
  - lia.
  - apply depths_below_init.
  - unfold CalculateTriangleDepths_ov_fuel. lia.
  - by apply CalculateTriangleDepths_never_OutOfFuel.
Qed.

Lemma CalculateTriangleDepths_loop_more_fuel order fuel fuel' seeds L d :
  CalculateTriangleDepths_loop triangles fixedEdges order fuel seeds L d ≠ OutOfFuel →
  (fuel ≤ fuel')%nat →
  CalculateTriangleDepths_loop triangles fixedEdges order fuel' seeds L d
  = CalculateTriangleDepths_loop triangles fixedEdges order fuel seeds L d.
Proof.
  revert fuel' seeds L d. induction fuel as [|fuel IH];
    intros fuel' seeds L d Hrun Hle; [done|].
  destruct fuel' as [|fuel']; [lia|]. simpl in *.
  destruct (PeelLayer triangles fixedEdges seeds L d) as [[bb d']| |]; simpl in *;
    [|done..].
  destruct (stack_of_range (order bb)) as [|n rest]; [done|].
  apply IH; [done|lia].
Qed.

Lemma PeelLayer_seed_out_of_range seed rest L d :
  vec_size d ≤ seed →
  PeelLayer triangles fixedEdges (seed :: rest) L d = Undefined.
Proof.
  intros Hout. unfold PeelLayer, PeelLayer_fuel.
  replace (7 * length d + length (seed :: rest) + 5)%nat
    with (S (7 * length d + length rest + 5)) by (simpl; lia).
  simpl. rewrite PeelLayer_pop_Undefined; [done|]. intros [Hlt _]. lia.
Qed.

Lemma PeelLayer_ov_seed_out_of_range (overlapCount : gmap Edge N) seed rest L d :
  vec_size d ≤ seed →
  PeelLayer_ov triangles fixedEdges overlapCount (seed :: rest) L d = Undefined.
Proof.
  intros Hout. unfold PeelLayer_ov, PeelLayer_fuel.
  replace (7 * length d + length (seed :: rest) + 5)%nat
    with (S (7 * length d + length rest + 5)) by (simpl; lia).
  simpl. rewrite PeelLayer_ov_pop_Undefined; [done|]. intros [Hlt _]. lia.
Qed.

End DepthsExtra.

(** X15. The depths returned by [CalculateTriangleDepths] without overlaps
    do not depend on the order in which the [unordered_set] of the next
    seeds is iterated. *)
Theorem CalculateTriangleDepths_order_irrelevant `{CDTUtils}
    (triangles : list Triangle) (fixedEdges : gset Edge)
    (order1 order2 : gset N → list N) (seed : TriInd) :
  enumerates order1 → enumerates order2 →
  CalculateTriangleDepths triangles fixedEdges order1 seed
  = CalculateTriangleDepths triangles fixedEdges order2 seed.
Proof.
  intros Ho1 Ho2.
  rewrite <- (CalculateTriangleDepths_ov_empty triangles fixedEdges order1 order2 seed
                Ho1 Ho2).
  by apply CalculateTriangleDepths_ov_empty.
Qed.

Lemma CalculateTriangleDepths_order_irrelevant_witness :
  CalculateTriangleDepths (H := spec_utils) example_triangles
    {[ mkEdge 1 2; mkEdge 2 3 ]} elements 0
  = CalculateTriangleDepths (H := spec_utils) example_triangles
      {[ mkEdge 1 2; mkEdge 2 3 ]} (λ s, reverse (elements s)) 0.
Proof.
  apply (CalculateTriangleDepths_order_irrelevant (H := spec_utils)).
  - intros s x. apply elem_of_elements.
  - intros s x. rewrite elem_of_reverse. apply elem_of_elements.
Defined.

(** X16. A seed that is not a triangle index, and so any seed on an empty
    triangulation, makes both overloads of [CalculateTriangleDepths] write
    [triDepths] out of range. *)
Theorem CalculateTriangleDepths_seed_out_of_range `{CDTUtils}
    (triangles : list Triangle) (fixedEdges : gset Edge)
    (overlapCount : gmap Edge N) (order : gset N → list N) (seed : TriInd) :
  vec_size triangles ≤ seed →
  CalculateTriangleDepths triangles fixedEdges order seed = Undefined
  ∧ CalculateTriangleDepths_ov triangles fixedEdges overlapCount order seed
    = Undefined.
Proof.
  intros Hout.
  assert (Hsize : vec_size (replicate (length triangles) LayerDepth_max) ≤ seed).
  { unfold vec_size in *. by rewrite length_replicate. }
  split.
  - unfold CalculateTriangleDepths. rewrite Nat.add_comm. simpl.
    by rewrite PeelLayer_seed_out_of_range.
  - unfold CalculateTriangleDepths_ov, CalculateTriangleDepths_ov_fuel.
    replace (2 * N.to_nat (LayerDepth_max + 1) + length triangles + 2)%nat
      with (S (2 * N.to_nat (LayerDepth_max + 1) + length triangles + 1)) by lia.
    simpl. unfold CalculateTriangleDepths_ov_body. simpl.
    by rewrite PeelLayer_ov_seed_out_of_range.
Qed.

Lemma CalculateTriangleDepths_seed_out_of_range_witness :
  CalculateTriangleDepths (H := spec_utils) [] ∅ elements 0 = Undefined
  ∧ CalculateTriangleDepths_ov (H := spec_utils) [] ∅ ∅ elements 0 = Undefined.
Proof.
  apply (CalculateTriangleDepths_seed_out_of_range (H := spec_utils)).
  vm_compute. discriminate.
Defined.

(** X17. The [do] loop of [CalculateTriangleDepths] without overlaps ends,
    whatever the input: it runs at most [triangles.size() + 2] times, and a
    larger iteration budget changes nothing. *)
Theorem CalculateTriangleDepths_terminates `{CDTUtils}
    (triangles : list Triangle) (fixedEdges : gset Edge)
    (order : gset N → list N) (seed : TriInd) :
  enumerates order →
  CalculateTriangleDepths triangles fixedEdges order seed ≠ OutOfFuel
  ∧ ∀ fuel, (length triangles + 2 ≤ fuel)%nat →
      CalculateTriangleDepths_loop triangles fixedEdges order fuel [seed] 0
        (replicate (length triangles) LayerDepth_max)
      = CalculateTriangleDepths triangles fixedEdges order seed.
Proof.
  intros Horder.
  pose proof (CalculateTriangleDepths_never_OutOfFuel triangles fixedEdges order
                Horder seed) as Hfuel.
  split; [done|]. intros fuel Hle.
  by apply CalculateTriangleDepths_loop_more_fuel.
Qed.

Lemma CalculateTriangleDepths_terminates_witness :
  CalculateTriangleDepths (H := spec_utils) example_triangles {[ mkEdge 1 2 ]}
    elements 0
  ≠ OutOfFuel.
Proof.
  refine (proj1 (CalculateTriangleDepths_terminates (H := spec_utils)
                   example_triangles {[ mkEdge 1 2 ]} elements 0 _)).
  intros s x. apply elem_of_elements.
Defined.



(** X18. With overlaps, the depths returned by [CalculateTriangleDepths]
    can depend on the order in which the [unordered_set] of seeds is
    iterated. In a fan of four triangles around a vertex whose four edges
    are fixed, one of them with an overlap count of 1, the triangle opposite
    to the seed gets the depth 3 when the two seeds of layer 1 are taken in
    one order, and the depth 2 in the other. *)
Theorem CalculateTriangleDepths_ov_order_dependent :
  enumerates elements
  ∧ enumerates (λ s, reverse (elements s))
  ∧ CalculateTriangleDepths_ov (H := spec_utils) fan_triangles fan_fixedEdges
      fan_overlapCount elements 0
    = Done [0; 1; 3; 1]
  ∧ CalculateTriangleDepths_ov (H := spec_utils) fan_triangles fan_fixedEdges
      fan_overlapCount (λ s, reverse (elements s)) 0
    = Done [0; 1; 2; 1].
Proof.
  split; [intros s x; apply elem_of_elements|].
  split; [intros s x; rewrite elem_of_reverse; apply elem_of_elements|].
  split; vm_compute; reflexivity.
Qed.

(** X19. [PeelLayer] changes a depth only to [layerDepth], and only for a
    seed or for a triangle whose depth was above [layerDepth]; every seed
    ends at [layerDepth]; a returned triangle is not a seed and keeps its
    depth, which is above [layerDepth]; the number of depths above
    [layerDepth] never grows. *)
Theorem PeelLayer_lowers_depths `{CDTUtils} (triangles : list Triangle)
    (fixedEdges : gset Edge) (seeds : list N) (layerDepth : LayerDepth)
    (triDepths : list N) (behindBoundary : gset N) (triDepths' : list N) :
  PeelLayer triangles fixedEdges seeds layerDepth triDepths
  = Done (behindBoundary, triDepths') →
  (∀ iT v', vec_at triDepths' iT = Some v' →
     vec_at triDepths iT = Some v'
     ∨ (v' = layerDepth
        ∧ (iT ∈ seeds ∨ ∃ v, vec_at triDepths iT = Some v ∧ layerDepth < v)))
  ∧ (∀ iT, iT ∈ seeds → vec_at triDepths' iT = Some layerDepth)
  ∧ (∀ iN, iN ∈ behindBoundary →
       (iN ∉ seeds)
       ∧ ∃ v, vec_at triDepths' iN = Some v ∧ vec_at triDepths iN = Some v
              ∧ layerDepth < v)
  ∧ (count_above layerDepth triDepths' ≤ count_above layerDepth triDepths)%nat.
Proof.
  intros Hrun.
  destruct (PeelLayer_Done_set triangles fixedEdges seeds layerDepth triDepths
              behindBoundary triDepths' Hrun)
    as (X & HX & Hlen & Hin & Hout & Hbb).
  split; [|split; [|split]].
  - intros iT v' Hv'. destruct (decide (iT ∈ X)) as [HtX|HtX].
    + right. destruct (Hin iT HtX) as [HL _]. rewrite HL in Hv'. injection Hv' as <-.
      split; [done|]. apply HX in HtX.
      destruct HtX as [iT Hs|iT' iT _ (i & e & _ & _ & Hex)]; [by left|by right].
    + left. by rewrite <- (Hout iT HtX).
  - intros iT Hs. by apply (PeelLayer_Done_seed triangles fixedEdges seeds layerDepth
                              triDepths behindBoundary triDepths' iT Hrun).
  - intros iN HiN. split.
    + intros Hs. apply Hbb in HiN as [HnX _]. apply HnX, HX. by apply peeled_seed.
    + by apply (PeelLayer_Done_behind triangles fixedEdges seeds layerDepth triDepths
                  behindBoundary triDepths' iN Hrun).
  - unfold PeelLayer in Hrun.
    by destruct (PeelLayer_loop_count triangles fixedEdges _ _ _ _ _ _ _ Hrun).
Qed.

Lemma PeelLayer_lowers_depths_witness :
  vec_at [0; 65535; 0] 0 = Some 0.
Proof.
  refine (proj1 (proj2 (PeelLayer_lowers_depths (H := spec_utils) example_triangles
                          {[ mkEdge 1 2; mkEdge 2 3 ]} [0] 0 [65535; 65535; 65535]
                          {[ 1 ]} [0; 65535; 0] _)) 0 _).
  - vm_compute. reflexivity.
  - left.
Defined.
(** ** Further properties: batch insertion *)

(** ** The shuffle of [insertVertices] *)

Lemma insert_swap_head (l : list N) (j : nat) (a y : N) :
  l !! j = Some y → y :: <[j := a]> l ≡ₚ a :: l.
Proof.
  revert j. induction l as [|b l IH]; intros j Hj; [by rewrite lookup_nil in Hj|].
  destruct j as [|j]; simpl in *.
  - injection Hj as ->. apply Permutation_swap.
  - rewrite Permutation_swap, (IH j Hj). apply Permutation_swap.
Qed.

Lemma insert_swap_perm (l : list N) (i j : nat) (x y : N) :
  l !! i = Some x → l !! j = Some y →
  <[i := y]> (<[j := x]> l) ≡ₚ l.
Proof.
  revert i j. induction l as [|a l IH]; intros i j Hi Hj;
    [by rewrite lookup_nil in Hi|].
  destruct i as [|i], j as [|j]; simpl in *.
  - injection Hi as ->. by injection Hj as ->.
  - injection Hi as ->. by apply insert_swap_head.
  - injection Hj as ->. by apply insert_swap_head.
  - by rewrite (IH i j Hi Hj).
Qed.

Lemma swap_at_perm (l : list N) (i j : nat) :
  (i < length l)%nat → (j < length l)%nat → swap_at l i j ≡ₚ l.
Proof.
  intros Hi Hj. unfold swap_at.
  destruct (lookup_lt_is_Some_2 l i Hi) as [x Hx].
  destruct (lookup_lt_is_Some_2 l j Hj) as [y Hy].
  rewrite (list_lookup_total_correct l i x Hx), (list_lookup_total_correct l j y Hy).
  by apply insert_swap_perm.
Qed.

Lemma swap_at_length (l : list N) (i j : nat) : length (swap_at l i j) = length l.
Proof. unfold swap_at. by rewrite !length_insert. Qed.

Section ShuffleProofs.
Context {G : Type}.
Variable gen : G → N * G.
Local Abbreviation drawn := (drawn gen).

Lemma randomCDT_below (i : N) (g : G) :
  i ≠ 0 → (randomCDT gen i g).1 < i ∧ (randomCDT gen i g).2 = (gen g).2.
Proof.
  intros Hi. unfold randomCDT. destruct (gen g) as [r g']; simpl.
  split; [by apply N.mod_lt|done].
Qed.

Lemma gnu_shuffle_from_randomCDT (n i : nat) (l : list N) (g : G) :
  (i + n ≤ length l)%nat →
  (gnu_shuffle_from (randomCDT gen) i n l g).1 ≡ₚ l
  ∧ (gnu_shuffle_from (randomCDT gen) i n l g).2 = drawn n g.
Proof.
  revert i l g. induction n as [|n IH]; intros i l g Hlen; [done|].
  simpl.
  destruct (randomCDT_below (N.of_nat i + 1) g) as [Hlt Hg]; [lia|].
  destruct (randomCDT gen (N.of_nat i + 1) g) as [j g'] eqn:Hrand; simpl in *.
  destruct (IH (S i) (swap_at l i (N.to_nat j)) g') as [Hperm Hdrawn].
  { rewrite swap_at_length. lia. }
  split.
  - rewrite Hperm. apply swap_at_perm; lia.
  - rewrite Hdrawn, Hg. unfold drawn. exact (eq_sym (Nat.iter_succ_r n (λ g, (gen g).2) g)).
Qed.

Lemma gnu_random_shuffle_randomCDT (l : list N) (g : G) :
  (gnu_random_shuffle (randomCDT gen) l g).1 ≡ₚ l
  ∧ (gnu_random_shuffle (randomCDT gen) l g).2 = drawn (length l - 1) g.
Proof.
  unfold gnu_random_shuffle. destruct l as [|x l]; [done|].
  apply gnu_shuffle_from_randomCDT. simpl. lia.
Qed.

End ShuffleProofs.

(** X20. Under [Randomized], with the shuffle of the GNU library,
    [insertVertices] inserts every new vertex exactly once: the order of
    the insertions is a permutation of the indices
    [nExistingVerts, ..., nExistingVerts + n - 1], and the generator of
    [randomCDT] has drawn [n - 1] numbers (none for an empty range). *)
Theorem insertVertices_Randomized_permutation `{CDTUtils} {Tri TVertex G : Type}
    (vertices_size : Tri → N) (addSuperTriangle : list TVertex → Tri → Tri)
    (addNewVertex : TVertex → Tri → Tri) (insertVertex : VertInd → Tri → Tri)
    (m_vertexInsertionOrder : Tri → VertexInsertionOrder)
    (gen : G → N * G) (range : list TVertex) (tr : Tri) (g : G) :
  m_vertexInsertionOrder
    (with_vertices vertices_size addSuperTriangle addNewVertex range tr)
  = Randomized →
  ∃ ii,
    ii ≡ₚ indices_to_insert vertices_size addSuperTriangle range tr
    ∧ insertVertices vertices_size addSuperTriangle addNewVertex insertVertex
        m_vertexInsertionOrder gen gnu_random_shuffle range (tr, g)
      = (fold_left (λ tr iV, insertVertex iV tr) ii
           (with_vertices vertices_size addSuperTriangle addNewVertex range tr),
         drawn gen (length range - 1) g).
Proof.
  intros Horder. rewrite insertVertices_unfold, Horder.
  destruct (gnu_random_shuffle_randomCDT gen
              (indices_to_insert vertices_size addSuperTriangle range tr) g)
    as [Hperm Hdrawn].
  eexists. split; [exact Hperm|]. rewrite Hdrawn.
  unfold indices_to_insert, new_indices. by rewrite length_map, length_seq.
Qed.

Lemma insertVertices_Randomized_permutation_witness :
  ∃ ii,
    ii ≡ₚ [3; 4; 5; 6]
    ∧ (log_insertVertices [(0,0); (1,0); (0,1); (1,1)]%Z
         ({| il_vertices := []; il_inserted := [] |}, mt19937_seed 9001)).1
      = fold_left (λ tr iV, log_insertVertex iV tr) ii
          {| il_vertices := [(0,0); (0,0); (0,0); (0,0); (1,0); (0,1); (1,1)]%Z;
             il_inserted := [] |}.
Proof.
  destruct (insertVertices_Randomized_permutation (H := spec_utils)
              (λ tr, N.of_nat (length (il_vertices tr)))
              log_addSuperTriangle log_addNewVertex log_insertVertex
              (λ _, Randomized) mt_next [(0,0); (1,0); (0,1); (1,1)]%Z
              {| il_vertices := []; il_inserted := [] |} (mt19937_seed 9001))
    as (ii & Hperm & Hrun); [reflexivity|].
  exists ii. split; [exact Hperm|].
  unfold log_insertVertices. rewrite Hrun. reflexivity.
Defined.

(** ** Batches of constraint edges *)

Lemma mkEdge_comm (a b : VertInd) : mkEdge a b = mkEdge b a.
Proof.
  unfold mkEdge. destruct (N.ltb_spec a b), (N.ltb_spec b a); try done; try lia.
  by assert (a = b) as -> by lia.
Qed.

Section InsertEdgesExtra.
Context `{CDTUtils} {Tri TEdge : Type}.
Variables (insertEdge : Edge → Tri → Tri) (eraseDummies : Tri → Tri).
Variable m_nTargetVerts : Tri → N.
Variables (getStart getEnd : TEdge → VertInd).

Lemma offset_edge_swap tr e :
  offset_edge m_nTargetVerts getStart getEnd tr e
  = offset_edge m_nTargetVerts getEnd getStart tr e.
Proof. unfold offset_edge. apply mkEdge_comm. Qed.

Lemma insertEdges_fold_swap (range : list TEdge) (tr : Tri) :
  fold_left (λ tr e, insertEdge (offset_edge m_nTargetVerts getStart getEnd tr e) tr)
    range tr
  = fold_left (λ tr e, insertEdge (offset_edge m_nTargetVerts getEnd getStart tr e) tr)
      range tr.
Proof.
  revert tr. induction range as [|e range IH]; intros tr; [done|].
  simpl. by rewrite offset_edge_swap, IH.
Qed.

Hypothesis insertEdge_nTargetVerts :
  ∀ e tr, m_nTargetVerts (insertEdge e tr) = m_nTargetVerts tr.

Lemma insertEdges_logged (range : list TEdge) (tr : Tri) (log : list Call) :
  insertEdges (logged_insertEdge insertEdge) (logged_eraseDummies eraseDummies)
    (logged_nTargetVerts m_nTargetVerts) getStart getEnd range (tr, log)
  = (insertEdges insertEdge eraseDummies m_nTargetVerts getStart getEnd range tr,
     log ++ map (λ e, CallInsertEdge
                        (mkEdge (VertInd_of (getStart e + m_nTargetVerts tr))
                                (VertInd_of (getEnd e + m_nTargetVerts tr))))
                range
         ++ [CallEraseDummies]).
Proof.
  unfold insertEdges.
  rewrite (insertEdges_fold_logged insertEdge m_nTargetVerts getStart getEnd
             insertEdge_nTargetVerts).
  unfold logged_eraseDummies. simpl. by rewrite <- app_assoc.
Qed.

Lemma insertEdges_nTargetVerts (range : list TEdge) (tr : Tri) :
  (∀ tr, m_nTargetVerts (eraseDummies tr) = m_nTargetVerts tr) →
  m_nTargetVerts
    (insertEdges insertEdge eraseDummies m_nTargetVerts getStart getEnd range tr)
  = m_nTargetVerts tr.
Proof.
  intros Herase. unfold insertEdges. rewrite Herase.
  revert tr. induction range as [|e range IH]; intros tr; [done|].
  simpl. by rewrite IH, insertEdge_nTargetVerts.
Qed.

End InsertEdgesExtra.

(** X21. Batches of edges compose: [insertEdges] on [range1 ++ range2]
    makes the calls of [insertEdge] that [insertEdges] on [range1] followed
    by [insertEdges] on [range2] makes, in the same order, with one call of
    [eraseDummies] at the end instead of one after each batch; on an empty
    range it still calls [eraseDummies]. [insertEdge] and [eraseDummies]
    are any functions that leave [m_nTargetVerts] as it is. *)
Theorem insertEdges_split_batches `{CDTUtils} {Tri TEdge : Type}
    (insertEdge : Edge → Tri → Tri) (eraseDummies : Tri → Tri)
    (m_nTargetVerts : Tri → N) (getStart getEnd : TEdge → VertInd)
    (range1 range2 : list TEdge) (tr : Tri) :
  (∀ e tr, m_nTargetVerts (insertEdge e tr) = m_nTargetVerts tr) →
  (∀ tr, m_nTargetVerts (eraseDummies tr) = m_nTargetVerts tr) →
  let run :=
    insertEdges (logged_insertEdge insertEdge) (logged_eraseDummies eraseDummies)
      (logged_nTargetVerts m_nTargetVerts) getStart getEnd in
  let call e :=
    CallInsertEdge (mkEdge (VertInd_of (getStart e + m_nTargetVerts tr))
                           (VertInd_of (getEnd e + m_nTargetVerts tr))) in
  (run (range1 ++ range2) (tr, [])).2
  = map call range1 ++ map call range2 ++ [CallEraseDummies]
  ∧ (run range2 (run range1 (tr, []))).2
    = map call range1 ++ [CallEraseDummies] ++ map call range2 ++ [CallEraseDummies]
  ∧ (run range2 (run range1 (tr, []))).1
    = insertEdges insertEdge eraseDummies m_nTargetVerts getStart getEnd range2
        (insertEdges insertEdge eraseDummies m_nTargetVerts getStart getEnd range1 tr)
  ∧ (run [] (tr, [])).2 = [CallEraseDummies].
Proof.
  intros Hins Herase run call. subst run call.
  rewrite !(insertEdges_logged insertEdge eraseDummies m_nTargetVerts getStart getEnd
              Hins).
  simpl.
  rewrite (insertEdges_nTargetVerts insertEdge eraseDummies m_nTargetVerts getStart
             getEnd Hins range1 tr Herase).
  rewrite map_app, <- !app_assoc. done.
Qed.

Lemma insertEdges_split_batches_witness :
  (insertEdges (H := spec_utils)
     (logged_insertEdge (λ (e : Edge) (tr : list Edge), e :: tr))
     (logged_eraseDummies (λ tr : list Edge, tr))
     (logged_nTargetVerts (λ _ : list Edge, 3)) fst snd
     ([(0, 3)] ++ [(2, 1)]) ([], [])).2
  = [CallInsertEdge (3, 6); CallInsertEdge (4, 5); CallEraseDummies].
Proof.
  exact (proj1 (insertEdges_split_batches (H := spec_utils)
    (λ (e : Edge) (tr : list Edge), e :: tr) (λ tr, tr) (λ _, 3) fst snd
    [(0, 3)] [(2, 1)] [] (λ e tr, eq_refl) (λ tr, eq_refl))).
Defined.

(** X22. [insertEdges] does not depend on the direction of the edges it
    is given: exchanging [getStart] and [getEnd] changes nothing, an [Edge]
    being an unordered pair. *)
Theorem insertEdges_direction_irrelevant `{CDTUtils} {Tri TEdge : Type}
    (insertEdge : Edge → Tri → Tri) (eraseDummies : Tri → Tri)
    (m_nTargetVerts : Tri → N) (getStart getEnd : TEdge → VertInd)
    (range : list TEdge) (tr : Tri) :
  insertEdges insertEdge eraseDummies m_nTargetVerts getStart getEnd range tr
  = insertEdges insertEdge eraseDummies m_nTargetVerts getEnd getStart range tr.
Proof. unfold insertEdges. by rewrite insertEdges_fold_swap. Qed.
(** ** Further properties: overlap counts of 0, inputs without duplicates *)

Section ZeroOverlap.
Context `{CDTUtils}.
Variables (triangles : list Triangle) (fixedEdges : gset Edge).
Variable overlapCount : gmap Edge N.
Hypothesis zero_on_fixed :
  ∀ e k, e ∈ fixedEdges → overlapCount !! e = Some k → k = 0.

Lemma behind_depth_zero L e :
  e ∈ fixedEdges → behind_depth overlapCount L e = behind_depth ∅ L e.
Proof.
  intros He. unfold behind_depth. rewrite lookup_empty.
  destruct (overlapCount !! e) as [k|] eqn:Hk; [|done].
  rewrite (zero_on_fixed e k He Hk). by rewrite N.add_0_r.
Qed.

Lemma PeelLayer_ov_visit_zero L d t st i :
  PeelLayer_ov_visit fixedEdges overlapCount L d t st i
  = PeelLayer_ov_visit fixedEdges ∅ L d t st i.
Proof.
  unfold PeelLayer_ov_visit.
  destruct (decide (opNeighbor t i = noNeighbor)); [done|].
  destruct (vec_read d (opNeighbor t i)) as [v| |]; simpl; [|done..].
  destruct (v <=? L); [done|].
  destruct (decide (opEdge t i ∈ fixedEdges)) as [He|]; [|done].
  by rewrite behind_depth_zero.
Qed.

Lemma PeelLayer_ov_pop_zero L iT s d bbm :
  PeelLayer_ov_pop triangles fixedEdges overlapCount L iT s d bbm
  = PeelLayer_ov_pop triangles fixedEdges ∅ L iT s d bbm.
Proof.
  unfold PeelLayer_ov_pop.
  destruct (vec_write d iT L) as [d'| |]; simpl; [|done..].
  destruct (vec_read triangles iT) as [t| |]; simpl; [|done..].
  rewrite !PeelLayer_ov_visit_zero.
  destruct (PeelLayer_ov_visit fixedEdges ∅ L d' t (s, delete iT bbm) I0)
    as [st0| |]; simpl; [|done..].
  rewrite !PeelLayer_ov_visit_zero.
  destruct (PeelLayer_ov_visit fixedEdges ∅ L d' t st0 I1) as [st1| |]; simpl;
    [|done..].
  by rewrite !PeelLayer_ov_visit_zero.
Qed.

Lemma PeelLayer_ov_loop_zero fuel L s d bbm :
  PeelLayer_ov_loop triangles fixedEdges overlapCount fuel L s d bbm
  = PeelLayer_ov_loop triangles fixedEdges ∅ fuel L s d bbm.
Proof.
  revert s d bbm. induction fuel as [|fuel IH]; intros s d bbm; [done|].
  destruct s as [|iT s]; [done|]. simpl. rewrite PeelLayer_ov_pop_zero.
  destruct (PeelLayer_ov_pop triangles fixedEdges ∅ L iT s d bbm)
    as [[[s' d'] bbm']| |]; simpl; [|done..].
  apply IH.
Qed.

Lemma CalculateTriangleDepths_ov_body_zero order st :
  CalculateTriangleDepths_ov_body triangles fixedEdges overlapCount order st
  = CalculateTriangleDepths_ov_body triangles fixedEdges ∅ order st.
Proof.
  unfold CalculateTriangleDepths_ov_body, PeelLayer_ov.
  by rewrite PeelLayer_ov_loop_zero.
Qed.

Lemma CalculateTriangleDepths_ov_loop_zero order fuel st :
  CalculateTriangleDepths_ov_loop triangles fixedEdges overlapCount order fuel st
  = CalculateTriangleDepths_ov_loop triangles fixedEdges ∅ order fuel st.
Proof.
  revert st. induction fuel as [|fuel IH]; intros st; [done|].
  simpl. rewrite CalculateTriangleDepths_ov_body_zero.
  destruct (CalculateTriangleDepths_ov_body triangles fixedEdges ∅ order st)
    as [st'| |]; simpl; [|done..].
  by rewrite IH.
Qed.

End ZeroOverlap.

(** X23. An overlap count of 0 counts as no entry, and the entries of
    [overlapCount] for edges that are not fixed are not read: when every
    fixed edge has no entry, or the entry 0, the overload of
    [CalculateTriangleDepths] with overlaps returns what the overload
    without overlaps returns. *)
Theorem CalculateTriangleDepths_ov_zero_counts `{CDTUtils}
    (triangles : list Triangle) (fixedEdges : gset Edge)
    (overlapCount : gmap Edge N) (order1 order2 : gset N → list N)
    (seed : TriInd) :
  enumerates order1 → enumerates order2 →
  (∀ e k, e ∈ fixedEdges → overlapCount !! e = Some k → k = 0) →
  CalculateTriangleDepths_ov triangles fixedEdges overlapCount order2 seed
  = CalculateTriangleDepths triangles fixedEdges order1 seed.
Proof.
  intros Ho1 Ho2 Hzero.
  rewrite <- (CalculateTriangleDepths_ov_empty triangles fixedEdges order1 order2 seed
                Ho1 Ho2).
  unfold CalculateTriangleDepths_ov.
  by apply CalculateTriangleDepths_ov_loop_zero.
Qed.

Lemma CalculateTriangleDepths_ov_zero_counts_witness :
  CalculateTriangleDepths_ov (H := spec_utils) example_triangles
    {[ mkEdge 1 2; mkEdge 2 3 ]} {[ mkEdge 1 2 := 0; mkEdge 0 2 := 5 ]} elements 0
  = CalculateTriangleDepths (H := spec_utils) example_triangles
      {[ mkEdge 1 2; mkEdge 2 3 ]} elements 0.
Proof.
  apply (CalculateTriangleDepths_ov_zero_counts (H := spec_utils)).
  - intros s x. apply elem_of_elements.
  - intros s x. apply elem_of_elements.
  - intros e k He Hk.
    apply lookup_insert_Some in Hk as [[_ <-]|[Hne Hk]]; [reflexivity|].
    apply lookup_singleton_Some in Hk as [<- <-].
    exfalso. revert He. vm_compute. intros He. discriminate He.
Defined.

Lemma RemapEdges_identity (n : nat) (edges : list Edge) :
  (∀ e, e ∈ edges → v1 e ≤ v2 e ∧ v2 e < N.of_nat n) →
  RemapEdges edges (N.of_nat <$> seq 0 n) = Done edges.
Proof.
  assert (Hread : ∀ a, a < N.of_nat n → vec_read (N.of_nat <$> seq 0 n) a = Done a).
  { intros a Ha. unfold vec_read, vec_at.
    rewrite list_lookup_fmap, lookup_seq_lt by lia. simpl. f_equal. lia. }
  induction edges as [|[a b] edges IH]; intros Hall; [done|].
  destruct (Hall (a, b)) as [Hle Hlt]; [left|]. unfold v1, v2 in Hle, Hlt.
  simpl in Hle, Hlt. simpl. unfold v1, v2. simpl.
  rewrite (Hread a), (Hread b) by lia. simpl.
  rewrite IH by (intros e He; apply Hall; by right). simpl.
  f_equal. f_equal. unfold mkEdge.
  destruct (N.ltb_spec a b); [done|]. by assert (a = b) as -> by lia.
Qed.

(** X24. On vertices without duplicates, and edges given as canonical
    pairs of vertex indices, [RemoveDuplicatesAndRemapEdges] changes
    nothing: it leaves the vertices and the edges as they are and returns
    the identity mapping and no duplicate. *)
Theorem RemoveDuplicatesAndRemapEdges_unique_noop {T : Type} `{Countable T}
    {TVertex : Type} (getX getY : TVertex → T)
    (vertices : list TVertex) (edges : list Edge) :
  NoDup (position getX getY <$> vertices) →
  (∀ e, e ∈ edges → v1 e ≤ v2 e ∧ v2 e < vec_size vertices) →
  RemoveDuplicatesAndRemapEdges getX getY vertices edges
  = Done (vertices, edges,
          {| mapping := N.of_nat <$> seq 0 (length vertices); duplicates := [] |}).
Proof.
  intros Hnd Hedges. unfold RemoveDuplicatesAndRemapEdges.
  destruct (FindDuplicates_unique getX getY vertices Hnd) as [Hfind Hkept].
  rewrite Hkept, Hfind. simpl.
  by rewrite (RemapEdges_identity (length vertices) edges Hedges).
Qed.

Lemma RemoveDuplicatesAndRemapEdges_unique_noop_witness :
  RemoveDuplicatesAndRemapEdges getX_V2d getY_V2d
    [(0,0); (1,0); (0,1)]%Z [(0, 2); (1, 2)]
  = Done ([(0,0); (1,0); (0,1)]%Z, [(0, 2); (1, 2)],
          {| mapping := [0; 1; 2]; duplicates := [] |}).
Proof.
  apply (RemoveDuplicatesAndRemapEdges_unique_noop getX_V2d getY_V2d
           [(0,0); (1,0); (0,1)]%Z [(0, 2); (1, 2)]).
  - refine (bool_decide_unpack _ _). vm_compute. exact I.
  - intros e He.
    apply elem_of_cons in He as [->|He]; [by vm_compute|].
    apply list_elem_of_singleton in He as ->. by vm_compute.
Defined.

(** X25. At a layer that no depth exceeds, as is the layer
    [LayerDepth_max], [PeelLayer] writes the depths of the seeds only and
    returns the empty set. *)
Theorem PeelLayer_nothing_above `{CDTUtils} (triangles : list Triangle)
    (fixedEdges : gset Edge) (seeds : list N) (layerDepth : LayerDepth)
    (triDepths : list N) (behindBoundary : gset N) (triDepths' : list N) :
  (∀ iT v, vec_at triDepths iT = Some v → v ≤ layerDepth) →
  PeelLayer triangles fixedEdges seeds layerDepth triDepths
  = Done (behindBoundary, triDepths') →
  behindBoundary = ∅
  ∧ (∀ iT, iT ∈ seeds → vec_at triDepths' iT = Some layerDepth)
  ∧ (∀ iT, iT ∉ seeds → vec_at triDepths' iT = vec_at triDepths iT).
Proof.
  intros Hle Hrun.
  destruct (PeelLayer_Done triangles fixedEdges seeds layerDepth triDepths
              behindBoundary triDepths' Hrun) as (_ & Hin & Hout & Hbb).
  assert (Hnone : ∀ iN, ¬ exceeds triDepths layerDepth iN).
  { intros iN (v & Hv & Hlt). specialize (Hle iN v Hv). lia. }
  assert (Hpeeled : ∀ iT, peeled triangles fixedEdges triDepths layerDepth seeds iT
                          → iT ∈ seeds).
  { intros iT [s Hs|u t _ (i & e & _ & _ & Hex)]; [done|]. by apply Hnone in Hex. }
  split; [|split].
  - apply set_eq. intros iN. split; [|set_solver].
    intros HiN. apply Hbb in HiN as (_ & u & _ & i & e & _ & _ & Hex).
    by apply Hnone in Hex.
  - intros iT Hs. apply Hin. by apply peeled_seed.
  - intros iT Hs. apply Hout. intros Hp. by apply Hs, Hpeeled.
Qed.

Lemma PeelLayer_nothing_above_witness :
  vec_at [65535; 65535; 0] 0 = Some 65535.
Proof.
  refine (proj1 (proj2 (PeelLayer_nothing_above (H := spec_utils) example_triangles
                          {[ mkEdge 1 2; mkEdge 2 3 ]} [0] 65535 [0; 65535; 0]
                          ∅ [65535; 65535; 0] _ _)) 0 _).
  - intros iT v Hv. unfold vec_at in Hv.
    destruct (N.to_nat iT) as [|[|[|n]]]; simpl in Hv; try discriminate Hv;
      injection Hv as <-; lia.
  - vm_compute. reflexivity.
  - left.
Defined.

Section ByPosition.
Context {T : Type} `{Countable T} {TVertex : Type}.
Variables (getX getY : TVertex → T).

Lemma FindDuplicates_fold_position vs (st : @FindState T _ _) :
  fold_left (FindDuplicates_step getX_V2d getY_V2d) (position getX getY <$> vs) st
  = fold_left (FindDuplicates_step getX getY) vs st.
Proof.
  revert st. induction vs as [|v vs IH]; intros st; [done|].
  simpl. by rewrite IH.
Qed.

End ByPosition.

(** ** Further properties: the outer layer, with overlaps *)

Section OuterProofs.
Context `{CDTUtils}.
Variables (triangles : list Triangle) (fixedEdges : gset Edge).
Variable overlapCount : gmap Edge N.
Variable order : gset N → list N.
Hypothesis order_enumerates : enumerates order.
Variable seed : TriInd.
Hypothesis seed_in_range : seed < vec_size triangles.
Hypothesis slots_in_range : neighbors_in_range triangles.
Variable K : N.
Hypothesis K_bounds : ∀ e k, overlapCount !! e = Some k → k ≤ K.
Hypothesis no_wrap : (vec_size triangles + 1) * (K + 1) ≤ LayerDepth_max.

Local Abbreviation crossing := (crossing triangles fixedEdges seed).
Local Abbreviation outer_inv := (outer_inv triangles fixedEdges seed).
Local Abbreviation outer_depths := (outer_depths triangles fixedEdges seed).
Local Abbreviation body :=
  (CalculateTriangleDepths_ov_body triangles fixedEdges overlapCount order).
Local Abbreviation loop :=
  (CalculateTriangleDepths_ov_loop triangles fixedEdges overlapCount order).

Lemma CalculateTriangleDepths_ov_loop_last (I Q : DepthState → Prop) fuel st depths :
  (∀ st st', I st → body st = Done st' →
     Q st' ∧ (CalculateTriangleDepths_ov_continue st' = true → I st')) →
  I st → loop fuel st = Done depths →
  ∃ st', Q st' ∧ ds_triDepths st' = depths.
Proof.
  intros Hstep. revert st. induction fuel as [|fuel IH]; intros st HI Hrun; [done|].
  simpl in Hrun. destruct (body st) as [st'| |] eqn:Hbody; simpl in Hrun; [|done..].
  destruct (Hstep st st' HI Hbody) as [HQ HI'].
  destruct (CalculateTriangleDepths_ov_continue st') eqn:Hcont.
  - by apply (IH st'); [apply HI'|].
  - injection Hrun as <-. by exists st'.
Qed.

Lemma positive_LayerDepth_max : 0 < LayerDepth_max.
Proof. nia. Qed.

Lemma outer_inv_step st st' :
  ov_bounded triangles K st → outer_inv st → body st = Done st' →
  outer_depths (ds_triDepths st')
  ∧ (CalculateTriangleDepths_ov_continue st' = true →
     ov_bounded triangles K st' ∧ outer_inv st').
Proof.
  intros Hbound [Hlen Hsound Hcomplete Hseeds Hpending Hfirst] Hbody.
  pose proof positive_LayerDepth_max as Hmax.
  destruct (CalculateTriangleDepths_ov_body_peel triangles fixedEdges overlapCount
              order order_enumerates st st' Hbody)
    as (bbm & Hpeel & Hfrom & HL' & Hseeds' & Hpend' & _).
  destruct (PeelLayer_Done_set triangles fixedEdges _ _ _ _ _ Hpeel)
    as (X & HX & Hlen' & Hin & Hout & Hbb).
  set (L := ds_layerDepth st) in *. set (d := ds_triDepths st) in *.
  set (d' := ds_triDepths st') in *.
  assert (Hlen'' : length d' = length triangles) by congruence.
  assert (Hlayer : ∀ t, t ∈ X → (crossing 0 t ↔ L = 0)).
  { intros t HtX. destruct (decide (L = 0)) as [HL0|HL0].
    - destruct (Hfirst HL0) as [Hs Hd]. split; [done|]. intros _.
      apply HX in HtX. rewrite Hs, Hd, HL0 in HtX.
      by destruct (peeled_crossing triangles fixedEdges seed seed_in_range [seed] 0 _ t
                     (count_inv_init triangles fixedEdges seed seed_in_range
                        slots_in_range)) as [Hc _]; [lia|done|].
    - split; [|done]. intros Hc. exfalso.
      apply HX in HtX. destruct HtX as [s Hs|u t _ (i & e & _ & _ & v & Hv & Hlt)].
      + apply (Hseeds ltac:(lia) s Hs Hc).
      + assert (Ht : t < vec_size triangles).
        { assert (t < vec_size d) by (apply vec_at_is_Some; eauto).
          unfold vec_size in *. by rewrite <- Hlen. }
        rewrite (Hcomplete ltac:(lia) t Ht Hc) in Hv. injection Hv as <-. lia. }
  assert (Hall : L = 0 → ∀ t, crossing 0 t → t ∈ X).
  { intros HL0 t Hc. destruct (Hfirst HL0) as [Hs Hd].
    apply HX. rewrite Hs, Hd, HL0.
    apply (ci_complete _ _ _ _ _ _
             (count_inv_init triangles fixedEdges seed seed_in_range slots_in_range));
      [done|done|].
    intros (k & Hk & _). lia. }
  assert (Hsound' : ∀ t, vec_at d' t = Some 0 → crossing 0 t).
  { intros t Ht. destruct (decide (t ∈ X)) as [HtX|HtX].
    - destruct (Hin t HtX) as [HtL _]. rewrite HtL in Ht. injection Ht as HL0.
      by apply Hlayer.
    - rewrite (Hout t HtX) in Ht. by apply Hsound. }
  assert (Hcomplete' : ∀ t, t < vec_size triangles → crossing 0 t →
                            vec_at d' t = Some 0).
  { intros t Ht Hc. destruct (decide (L = 0)) as [HL0|HL0].
    - destruct (Hin t (Hall HL0 t Hc)) as [HtL _]. by rewrite HtL, HL0.
    - destruct (decide (t ∈ X)) as [HtX|HtX].
      + exfalso. by apply HL0, (Hlayer t HtX).
      + rewrite (Hout t HtX). apply Hcomplete; [lia|done|done]. }
  assert (Hrecorded : ∀ t k, bbm !! t = Some k → ¬ crossing 0 t).
  { intros t k Htk Hc.
    assert (HtX : t ∉ X).
    { assert (Hdom : t ∈ dom bbm) by (apply elem_of_dom; eauto).
      by apply Hbb in Hdom as [HtX _]. }
    destruct (decide (L = 0)) as [HL0|HL0]; [by apply HtX, Hall|].
    destruct (Hfrom t k Htk) as (iT & i & e & _ & _ & _ & (v & Hv & Hlt) & _).
    assert (Ht : t < vec_size triangles).
    { assert (t < vec_size d) by (apply vec_at_is_Some; eauto).
      unfold vec_size in *. by rewrite <- Hlen. }
    rewrite (Hcomplete ltac:(lia) t Ht Hc) in Hv. injection Hv as <-. lia. }
  assert (Hpending' : ∀ k t, t ∈ pending (ds_seedsByDepth st') k → ¬ crossing 0 t).
  { intros k t Ht. apply Hpend' in Ht as [[_ Ht]|Ht].
    - by apply (Hpending k).
    - by apply (Hrecorded t k). }
  split.
  - split; [done|]. intros t Ht. split; [apply Hsound'|by apply Hcomplete'].
  - intros Hcont.
    destruct (ov_bounded_step triangles fixedEdges overlapCount order order_enumerates
                K K_bounds no_wrap st st' Hbound Hbody Hcont) as [Hbound' Hnext].
    split; [done|]. split.
    + done.
    + done.
    + intros _. done.
    + intros _ s Hs. apply Hseeds' in Hs. by apply (Hpending' (ds_layerDepth st') s).
    + done.
    + intros HL0. fold L in Hnext. lia.
Qed.

Lemma outer_inv_init :
  outer_inv (CalculateTriangleDepths_ov_init triangles seed).
Proof.
  pose proof positive_LayerDepth_max as Hmax.
  split; simpl.
  - apply length_replicate.
  - intros t Ht. unfold vec_at in Ht. apply lookup_replicate in Ht as [Ht _]. lia.
  - lia.
  - lia.
  - intros k t Ht. unfold pending in Ht. rewrite lookup_empty in Ht. set_solver.
  - done.
Qed.

End OuterProofs.

(** X27. With overlaps too, when the depths cannot reach
    [LayerDepth_max] (the overlap counts being at most [K] and
    [(number of triangles + 1) * (K + 1)] at most [LayerDepth_max]),
    [CalculateTriangleDepths] returns, and the triangles at depth 0 are
    exactly the triangles reached from the seed through neighbour slots
    without crossing a fixed edge. *)
Theorem CalculateTriangleDepths_ov_outer_layer `{CDTUtils}
    (triangles : list Triangle) (fixedEdges : gset Edge)
    (overlapCount : gmap Edge N) (order : gset N → list N) (seed : TriInd)
    (K : N) :
  enumerates order →
  well_formed triangles [seed] (replicate (length triangles) LayerDepth_max) = true →
  (∀ e k, overlapCount !! e = Some k → k ≤ K) →
  (vec_size triangles + 1) * (K + 1) ≤ LayerDepth_max →
  ∃ depths,
    CalculateTriangleDepths_ov triangles fixedEdges overlapCount order seed
    = Done depths
    ∧ length depths = length triangles
    ∧ ∀ t, t < vec_size triangles →
        (vec_at depths t = Some 0 ↔ crossing triangles fixedEdges seed 0 t).
Proof.
  intros Horder Hwf HK Hfit.
  apply well_formed_spec in Hwf as (_ & Hseeds & Hslots).
  assert (Hseed : seed < vec_size triangles) by (apply Hseeds; left).
  pose proof (CalculateTriangleDepths_ov_never_OutOfFuel triangles fixedEdges
                overlapCount order Horder K HK Hfit seed) as Hfuel.
  assert (Hdef : CalculateTriangleDepths_ov triangles fixedEdges overlapCount
                   order seed ≠ Undefined).
  { unfold CalculateTriangleDepths_ov.
    eapply (CalculateTriangleDepths_ov_loop_defined _ _ _ _ (ov_in_range triangles)).
    - intros st st' HI Hb. eapply ov_in_range_step; eauto.
    - intros st HI. eapply ov_in_range_defined; eauto.
    - eapply ov_in_range_init; eauto. }
  destruct (CalculateTriangleDepths_ov triangles fixedEdges overlapCount order seed)
    as [depths| |] eqn:Hrun; [|done..].
  exists depths. split; [done|].
  destruct (CalculateTriangleDepths_ov_loop_last triangles fixedEdges overlapCount order
              (λ st, ov_bounded triangles K st
                     ∧ outer_inv triangles fixedEdges seed st)
              (λ st, outer_depths triangles fixedEdges seed (ds_triDepths st))
              (CalculateTriangleDepths_ov_fuel triangles)
              (CalculateTriangleDepths_ov_init triangles seed) depths)
    as (st' & [Hlen Houter] & <-).
  - intros st st' [Hb Ho] Hbody.
    destruct (outer_inv_step triangles fixedEdges overlapCount order Horder seed Hseed
                Hslots K HK Hfit st st' Hb Ho Hbody) as [HQ HI].
    split; [done|]. intros Hcont. by apply HI.
  - split.
    + by eapply ov_bounded_init.
    + eapply outer_inv_init; eauto.
  - exact Hrun.
  - done.
Qed.

Lemma CalculateTriangleDepths_ov_outer_layer_witness :
  ∃ depths,
    CalculateTriangleDepths_ov (H := spec_utils) example_triangles
      {[ mkEdge 1 2; mkEdge 0 2; mkEdge 2 3 ]} {[ mkEdge 1 2 := 1 ]} elements 0
    = Done depths
    ∧ length depths = 3%nat.
Proof.
  destruct (CalculateTriangleDepths_ov_outer_layer (H := spec_utils) example_triangles
              {[ mkEdge 1 2; mkEdge 0 2; mkEdge 2 3 ]} {[ mkEdge 1 2 := 1 ]}
              elements 0 1)
    as (depths & Hrun & Hlen & _).
  - intros s x. apply elem_of_elements.
  - reflexivity.
  - intros e k Hk. apply lookup_singleton_Some in Hk as [_ <-]. reflexivity.
  - vm_compute. discriminate.
  - exists depths. split; [exact Hrun|exact Hlen].
Defined.
(** ** Further properties: appending vertices, composing mappings, size of the depths *)

Section AppendProofs.
Context {T : Type} `{Countable T} {TVertex : Type}.
Variables (getX getY : TVertex → T).
Local Abbreviation step := (FindDuplicates_step getX getY).

Lemma FindDuplicates_step_room (st : @FindState T _ _) v extra :
  (N.to_nat (iIn st) < length (mapping (di st)))%nat →
  step (with_room st extra) v = with_room (step st v) extra.
Proof.
  intros Hlt. unfold FindDuplicates_step, with_room, vec_set. simpl.
  destruct (uniqueVerts st !! V2d_make (getX v) (getY v)); simpl;
    by rewrite insert_app_l.
Qed.

Lemma FindDuplicates_step_shape (st : @FindState T _ _) v :
  iIn (step st v) = iIn st + 1
  ∧ length (mapping (di (step st v))) = length (mapping (di st)).
Proof.
  unfold FindDuplicates_step, vec_set.
  destruct (uniqueVerts st !! V2d_make (getX v) (getY v)); simpl;
    by rewrite length_insert.
Qed.

Lemma FindDuplicates_fold_room vs (st : @FindState T _ _) extra :
  (N.to_nat (iIn st) + length vs ≤ length (mapping (di st)))%nat →
  fold_left step vs (with_room st extra) = with_room (fold_left step vs st) extra.
Proof.
  revert st. induction vs as [|v vs IH]; intros st Hlen; [done|].
  simpl in *. rewrite FindDuplicates_step_room by lia.
  destruct (FindDuplicates_step_shape st v) as [HiIn Hmap].
  apply IH. rewrite HiIn, Hmap. lia.
Qed.

Lemma FindDuplicates_fold_later ws (st : @FindState T _ _) (k : nat) :
  (k ≤ N.to_nat (iIn st))%nat →
  take k (mapping (di (fold_left step ws st))) = take k (mapping (di st))
  ∧ ∃ later,
      duplicates (di (fold_left step ws st)) = duplicates (di st) ++ later
      ∧ ∀ i, i ∈ later → iIn st ≤ i.
Proof.
  revert st. induction ws as [|w ws IH]; intros st Hk; simpl.
  - split; [done|]. exists []. split; [by rewrite app_nil_r|].
    intros i Hi. by apply elem_of_nil in Hi.
  - destruct (FindDuplicates_step_shape st w) as [HiIn _].
    destruct (IH (step st w)) as (Htake & later & Hdup & Hlater); [lia|].
    rewrite Htake, Hdup. clear Htake Hdup IH.
    unfold FindDuplicates_step, vec_set in *.
    destruct (uniqueVerts st !! V2d_make (getX w) (getY w)); simpl in *.
    + split; [by rewrite take_insert_ge by lia|].
      exists (iIn st :: later). split; [by rewrite <- app_assoc|].
      intros i Hi. apply elem_of_cons in Hi as [->|Hi]; [lia|].
      apply Hlater in Hi. lia.
    + split; [by rewrite take_insert_ge by lia|].
      exists later. split; [done|]. intros i Hi. apply Hlater in Hi. lia.
Qed.

End AppendProofs.

(** X28. [FindDuplicates] is stable under appending: on the vertices
    [vs ++ ws], the mapping of the first [vs.size()] indices and the
    duplicates found among them are those of [vs] alone, and the
    duplicates found after them are indices of [ws]. *)
Theorem FindDuplicates_append {T : Type} `{Countable T} {TVertex : Type}
    (getX getY : TVertex → T) (vs ws : list TVertex) :
  let di := FindDuplicates getX getY vs in
  let di' := FindDuplicates getX getY (vs ++ ws) in
  take (length vs) (mapping di') = mapping di
  ∧ ∃ later,
      duplicates di' = duplicates di ++ later
      ∧ ∀ i, i ∈ later → vec_size vs ≤ i.
Proof.
  intros di di'. unfold di, di', FindDuplicates.
  rewrite length_app, fold_left_app.
  set (st := fold_left (FindDuplicates_step getX getY) vs
               (FindDuplicates_init (length vs))).
  assert (Hinit : FindDuplicates_init (T := T) (length vs + length ws)
                  = with_room (FindDuplicates_init (length vs))
                      (replicate (length ws) 0)).
  { unfold FindDuplicates_init, with_room. simpl. by rewrite replicate_add. }
  rewrite Hinit, FindDuplicates_fold_room
    by (simpl; rewrite length_replicate; lia).
  fold st.
  destruct (FindDuplicates_inv getX getY vs) as (HiIn & _ & Hlen & _).
  fold st in HiIn, Hlen.
  destruct (FindDuplicates_fold_later getX getY ws
              (with_room st (replicate (length ws) 0)) (length vs))
    as (Htake & later & Hdup & Hlater).
  { simpl. rewrite HiIn. lia. }
  split.
  - rewrite Htake. simpl. rewrite <- Hlen. by rewrite take_app_length.
  - exists later. split; [exact Hdup|].
    intros i Hi. apply Hlater in Hi. simpl in Hi. rewrite HiIn in Hi. exact Hi.
Qed.



Section DepthsBounded.
Context `{CDTUtils}.
Variables (triangles : list Triangle) (fixedEdges : gset Edge).
Variable order : gset N → list N.
Hypothesis order_enumerates : enumerates order.

Lemma CalculateTriangleDepths_loop_bounded fuel seeds L d depths :
  L ≤ LayerDepth_max →
  depths_below L d → seeds_unassigned seeds d → seeds ≠ [] →
  (N.to_nat L + count_above L d ≤ length d)%nat →
  CalculateTriangleDepths_loop triangles fixedEdges order fuel seeds L d
  = Done depths →
  length depths = length d
  ∧ ∀ t v, vec_at depths t = Some v →
           v = LayerDepth_max ∨ v < vec_size d.
Proof.
  revert seeds L d. induction fuel as [|fuel IH];
    intros seeds L d HL Hbelow Hseeds Hne Hroom Hrun; [done|].
  simpl in Hrun.
  destruct (PeelLayer triangles fixedEdges seeds L d) as [[bb d']| |] eqn:Hpeel;
    simpl in Hrun; [|done..].
  destruct (PeelLayer_Done_set triangles fixedEdges seeds L d bb d' Hpeel)
    as (X & _ & Hlen' & _).
  assert (Hstrict : L < LayerDepth_max →
                    (count_above L d' < count_above L d)%nat).
  { intros HLlt. destruct seeds as [|s0 seeds']; [done|].
    destruct (PeelLayer_Done_seed triangles fixedEdges (s0 :: seeds') L d bb d' s0 Hpeel)
      as [_ Hs0]; [left|].
    apply vec_at_is_Some in Hs0 as [v0 Hv0].
    assert (v0 = LayerDepth_max) as -> by (eapply Hseeds; [left|done]).
    unfold PeelLayer in Hpeel.
    destruct (PeelLayer_loop_count triangles fixedEdges _ _ _ _ _ _ _ Hpeel)
      as [_ Hs]. apply (Hs s0 seeds' eq_refl). by exists LayerDepth_max. }
  pose proof (depths_below_next triangles fixedEdges seeds L d bb d' Hbelow Hpeel)
    as Hbelow'.
  destruct (stack_of_range (order bb)) as [|n rest] eqn:Hstack.
  - injection Hrun as <-. split; [done|].
    intros t v Hv. destruct (Hbelow' t v Hv) as [Hlt| ->]; [|by left].
    destruct (decide (v = LayerDepth_max)) as [|Hne']; [by left|].
    right. unfold vec_size.
    destruct (decide (L = LayerDepth_max)) as [HLeq|HLne]; [lia|].
    assert (count_above L d' < count_above L d)%nat by (apply Hstrict; lia). lia.
  - assert (Hn : n ∈ bb).
    { apply (elem_of_stack_of_order order order_enumerates). rewrite Hstack. left. }
    destruct (behind_unassigned triangles fixedEdges seeds L d bb d' n Hbelow HL Hpeel Hn)
      as [_ Hlt].
    rewrite (LayerDepth_of_succ L Hlt) in Hrun.
    destruct (IH (n :: rest) (L + 1) d') as [Hlen Hall]; try done.
    + lia.
    + intros s v Hs Hv. rewrite <- Hstack in Hs.
      apply (elem_of_stack_of_order order order_enumerates) in Hs.
      destruct (behind_unassigned triangles fixedEdges seeds L d bb d' s Hbelow HL
                  Hpeel Hs) as [Hmax _].
      congruence.
    + pose proof (count_above_mono L (L + 1) d').
      assert (count_above L d' < count_above L d)%nat by (by apply Hstrict). lia.
    + split; [congruence|]. intros t v Hv. unfold vec_size in *.
      rewrite <- Hlen'. by apply (Hall t).
Qed.
End DepthsBounded.

(** X30. Every depth returned by [CalculateTriangleDepths] without
    overlaps is [LayerDepth_max] or is below the number of triangles,
    whatever the input. *)
Theorem CalculateTriangleDepths_below_size `{CDTUtils}
    (triangles : list Triangle) (fixedEdges : gset Edge)
    (order : gset N → list N) (seed : TriInd) (depths : list N) :
  enumerates order →
  CalculateTriangleDepths triangles fixedEdges order seed = Done depths →
  length depths = length triangles
  ∧ ∀ t v, vec_at depths t = Some v →
           v = LayerDepth_max ∨ v < vec_size triangles.
Proof.
  intros Horder Hrun. unfold CalculateTriangleDepths in Hrun.
  destruct (CalculateTriangleDepths_loop_bounded triangles fixedEdges order Horder
              (length triangles + 2) [seed] 0
              (replicate (length triangles) LayerDepth_max) depths)
    as [Hlen Hall]; try done.
  - lia.
  - apply depths_below_init.
  - intros s v _ Hv. unfold vec_at in Hv. by apply lookup_replicate in Hv as [-> _].
  - pose proof (count_above_length 0 (replicate (length triangles) LayerDepth_max)).
    simpl. lia.
  - rewrite length_replicate in Hlen. split; [done|].
    intros t v Hv. destruct (Hall t v Hv) as [?|Hlt]; [by left|right].
    unfold vec_size in *. by rewrite length_replicate in Hlt.
Qed.

Lemma CalculateTriangleDepths_below_size_witness :
  length [0; 1; 0] = length example_triangles.
Proof.
  refine (proj1 (CalculateTriangleDepths_below_size (H := spec_utils) example_triangles
                   {[ mkEdge 1 2; mkEdge 2 3 ]} elements 0 [0; 1; 0] _ _)).
  - intros s x. apply elem_of_elements.
  - vm_compute. reflexivity.
Defined.
